(** * Typescript Math Toolkit: deviates, bagging and least squares

    A shallow embedding of the numerical core of the repository
    (libs/Deviates.ts, libs/Bagging.ts, libs/llsq.ts, libs/Pllsq.ts,
    libs/Bllsq.ts, and the coordinate mapping of app/app.component.ts) and
    the properties its specification states about it.

    Conventions of the embedding.
    - A JavaScript [number] is NaN, +Infinity, -Infinity or an exact rational
      kept in lowest terms: arithmetic is not rounded and zero is unsigned
      (the index computation of Bagging.ts, where a negative zero appears,
      carries the sign of its zero apart).  The properties are about
      comparisons, counts, guards and ranges, which rounding does not
      change; where one gives a computed value, its hypotheses keep the data
      to integers on which double precision is exact (below 2^53).
    - The state of the congruential generator is an integer; seeds are
      integers (the only caller in the repository passes 1001); the
      properties on seeds of 1 and more take them below 757223 * 127773,
      where every step of the generator is exact in double precision.
    - [undefined] is [None]; a nullable array is an [option (list number)].
    - Objects with mutable fields are records threaded through the calls.
    - [Math.sqrt] and [Math.log] are parameters of the functions using them.
    - A [while] loop whose exit depends on the drawn deviates takes a fuel
      argument; [None] stands for a call that does not return. *)

From Stdlib Require Import ZArith QArith Qround Qabs Qreduction Lia Lqa List Bool.
From Stdlib Require String.
From stdpp Require Import base option list gmap.
Import ListNotations String.StringSyntax.

Local Open Scope Z_scope.
Delimit Scope string_scope with string.

(** ** JavaScript numbers *)
Module JS.

Inductive number : Type :=
| NaN
| PInf
| NInf
| Num (q : Q).

(** A finite result, in lowest terms. *)
Definition fin (q : Q) : number := Num (Qred q).

Definition of_Z (z : Z) : number := Num (inject_Z z).
Definition of_nat (n : nat) : number := of_Z (Z.of_nat n).

(** [undefined] in a numeric context is NaN. *)
Definition to_number (v : option number) : number :=
  match v with Some a => a | None => NaN end.

Definition isNaN (a : number) : bool :=
  match a with NaN => true | _ => false end.

Definition Qltb (a b : Q) : bool := negb (Qle_bool b a).

(** The infinity with the sign of [q]; NaN when [q] is zero. *)
Definition inf_of_sign (q : Q) : number :=
  if Qltb 0 q then PInf else if Qltb q 0 then NInf else NaN.

Definition nneg (a : number) : number :=
  match a with
  | NaN => NaN
  | PInf => NInf
  | NInf => PInf
  | Num q => fin (- q)
  end.

Definition nadd (a b : number) : number :=
  match a, b with
  | NaN, _ | _, NaN => NaN
  | PInf, NInf | NInf, PInf => NaN
  | PInf, _ | _, PInf => PInf
  | NInf, _ | _, NInf => NInf
  | Num x, Num y => fin (x + y)
  end.

Definition nsub (a b : number) : number := nadd a (nneg b).

Definition nmul (a b : number) : number :=
  match a, b with
  | NaN, _ | _, NaN => NaN
  | PInf, PInf | NInf, NInf => PInf
  | PInf, NInf | NInf, PInf => NInf
  | PInf, Num y | Num y, PInf => inf_of_sign y
  | NInf, Num y | Num y, NInf => inf_of_sign (- y)
  | Num x, Num y => fin (x * y)
  end.

Definition ndiv (a b : number) : number :=
  match a, b with
  | NaN, _ | _, NaN => NaN
  | (PInf | NInf), (PInf | NInf) => NaN
  | Num _, (PInf | NInf) => Num 0
  | PInf, Num y => if Qltb y 0 then NInf else PInf
  | NInf, Num y => if Qltb y 0 then PInf else NInf
  | Num x, Num y =>
      if Qeq_bool y 0 then inf_of_sign x else fin (x / y)
  end.

(** [a < b]; false as soon as one side is NaN. *)
Definition nlt (a b : number) : bool :=
  match a, b with
  | NaN, _ | _, NaN => false
  | _, NInf => false
  | NInf, _ => true
  | PInf, _ => false
  | Num _, PInf => true
  | Num x, Num y => Qltb x y
  end.

(** [a <= b]. *)
Definition nle (a b : number) : bool :=
  match a, b with
  | NaN, _ | _, NaN => false
  | NInf, _ => true
  | _, PInf => true
  | _, NInf => false
  | PInf, _ => false
  | Num x, Num y => Qle_bool x y
  end.

Definition ngt (a b : number) : bool := nlt b a.
Definition nge (a b : number) : bool := nle b a.

(** [a == b] on numbers. *)
Definition num_eqb (a b : number) : bool :=
  match a, b with
  | PInf, PInf | NInf, NInf => true
  | Num x, Num y => Qeq_bool x y
  | _, _ => false
  end.

Definition Math_floor (a : number) : number :=
  match a with Num q => of_Z (Qfloor q) | _ => a end.

(** [Math.round]: to the nearest integer, halves upwards. *)
Definition Math_round (a : number) : number :=
  match a with Num q => of_Z (Qfloor (q + (1 # 2))) | _ => a end.

Definition Math_abs (a : number) : number :=
  match a with
  | NaN => NaN
  | PInf | NInf => PInf
  | Num q => fin (Qabs q)
  end.

(** Zero is unsigned in [number].  The one computation of the repository
    that produces a negative zero and removes it is the index of
    Bagging.ts, [Math.abs(Math.floor(Math.round(v)))]: there the three
    functions are taken with the sign of their zero.  [Math.round] gives -0
    on [-0.5, 0) (its argument, a sum of non-zero terms, is not -0 itself),
    [Math.floor] keeps an integer and the sign of its zero, and [Math.abs]
    gives +0. *)
Record signed : Type := { magnitude : number; negative_zero : bool }.

Definition Math_round_signed (a : number) : signed :=
  {| magnitude := Math_round a;
     negative_zero :=
       match a with
       | Num q => Qle_bool (- (1 # 2)) q && Qltb q 0
       | _ => false
       end |}.

Definition Math_floor_signed (s : signed) : signed :=
  {| magnitude := Math_floor (magnitude s); negative_zero := negative_zero s |}.

Definition Math_abs_signed (s : signed) : signed :=
  {| magnitude := Math_abs (magnitude s); negative_zero := false |}.

(** The array index a number denotes, when it denotes one. *)
Definition index_of (a : number) : option Z :=
  match a with
  | Num q => if Qeq_bool q (inject_Z (Qfloor q)) then Some (Qfloor q) else None
  | _ => None
  end.

(** Two numbers name the same property of an object. *)
Definition same_key (a b : number) : bool :=
  match a, b with
  | NaN, NaN | PInf, PInf | NInf, NInf => true
  | Num x, Num y => Qeq_bool x y
  | _, _ => false
  end.

(** [a[i]] on a dense array: [undefined] outside of it. *)
Definition array_get {A : Type} (a : list A) (i : number) : option A :=
  match index_of i with
  | Some z => if z <? 0 then None else a !! Z.to_nat z
  | None => None
  end.

(** The number of iterations of [for (i = 0; i < bound; ++i)]; a loop
    bounded by +Infinity does not end.  The counter of the code is a double,
    which [++i] no longer advances at 2^53: the properties that state that a
    call returns take their bound at most 2^53, and the others are about
    calls that return. *)
Definition for_count (bound : number) : option nat :=
  match bound with
  | Num q => Some (Z.to_nat (Qceiling q))
  | PInf => None
  | NaN | NInf => Some O
  end.

(** A call either returns or throws (a [TypeError] from reading a property
    of [null] or [undefined], or an error raised by a collaborator). *)
Inductive completion (A : Type) : Type :=
| Return (a : A)
| Throw.
Arguments Return {A} a.
Arguments Throw {A}.

End JS.
Import JS.

(** ** libs/Deviates.ts *)
Module Deviates.

Definition IA : Z := 16807.
Definition IM : Z := 2147483647.
Definition AM : number := ndiv (Num 1) (of_Z IM).
Definition IQ : Z := 127773.
Definition IR : Z := 2836.
Definition NTAB : Z := 32.
Definition NDIV : number := nadd (Num 1) (ndiv (of_Z (IM - 1)) (of_Z NTAB)).
Definition EPS : number := Num (12 # 100000000).
Definition RNMX : number := nsub (Num 1) EPS.

Record state : Type := mk {
  _idum : Z;
  _iv : gmap Z Z;
  _normVal : number;
  _u : number;
  _s : number;
  _a : number;
  _b : number;
  _a1 : number;
  _a2 : number
}.

(** The constructor. *)
Definition new : state :=
  {| _idum := 0; _iv := ∅; _normVal := Num 0; _u := Num 0; _s := Num 1;
     _a := Num 1; _b := Num 1; _a1 := Num 0; _a2 := Num 0 |}.

Definition set_gen (d : state) (idum : Z) (iv : gmap Z Z) : state :=
  {| _idum := idum; _iv := iv; _normVal := _normVal d; _u := _u d;
     _s := _s d; _a := _a d; _b := _b d; _a1 := _a1 d; _a2 := _a2 d |}.

Definition set_normVal (d : state) (v : number) : state :=
  {| _idum := _idum d; _iv := _iv d; _normVal := v; _u := _u d;
     _s := _s d; _a := _a d; _b := _b d; _a1 := _a1 d; _a2 := _a2 d |}.

Definition set_u_s (d : state) (u s : number) : state :=
  {| _idum := _idum d; _iv := _iv d; _normVal := _normVal d; _u := u;
     _s := s; _a := _a d; _b := _b d; _a1 := _a1 d; _a2 := _a2 d |}.

Definition set_gamma (d : state) (a b a1 a2 : number) : state :=
  {| _idum := _idum d; _iv := _iv d; _normVal := _normVal d; _u := _u d;
     _s := _s d; _a := a; _b := b; _a1 := a1; _a2 := a2 |}.

(** One step of the congruential generator, with Schrage's decomposition
    (lines 86-91 and 101-106); [Math.floor] of the quotient of two integers
    is the floor division of [Z]. *)
Definition lcg (idum : Z) : Z :=
  let k := idum / IQ in
  let idum := IA * (idum - k * IQ) - IR * k in
  if idum <? 0 then idum + IM else idum.

(** The loop of lines 84-96, [j] running from [NTAB+7] down to 0, from the
    emptied table; a seed below 1 is replaced by 1 ([isNaN] is false on an
    integer). *)
Definition seed_step (acc : Z * gmap Z Z) (j : Z) : Z * gmap Z Z :=
  let idum := lcg (fst acc) in
  (idum, if j <? NTAB then <[j := idum]> (snd acc) else snd acc).

Definition seed_table (start : Z) : Z * gmap Z Z :=
  fold_left seed_step (rev (seqZ 0 (NTAB + 7 + 1)))
            (if start <? 1 then 1 else start, ∅).

(** [uniform].  The local [iy] is 0 unless the call initialises, where it is
    the content of slot 0 of the new table.  A [j] that is no index (NaN)
    reads [undefined] and leaves the table as it is. *)
Definition uniform (d : state) (start : Z) (init : bool) : number * state :=
  let '(idum, iv, iy) :=
    if init
    then let '(idum, iv) := seed_table start in (idum, iv, of_Z <$> iv !! 0)
    else (_idum d, _iv d, Some (Num 0)) in
  let idum := lcg idum in
  let j := Math_floor (ndiv (to_number iy) NDIV) in
  let '(iy, iv) :=
    match index_of j with
    | Some jz => (of_Z <$> iv !! jz, <[jz := idum]> iv)
    | None => (None, iv)
    end in
  let temp := nmul AM (to_number iy) in
  (if ngt temp RNMX then RNMX else temp, set_gen d idum iv).

Section Transcendental.

Variables Math_log Math_sqrt : number -> number.

(** The loop of [exponential] (lines 132-134); it is entered at least once
    since [tmp] starts at 0. *)
Fixpoint exponential_loop (fuel : nat) (d : state) (start : Z) (init : bool)
  : option (number * state) :=
  match fuel with
  | O => None
  | S fuel =>
      let '(tmp, d) := uniform d start init in
      if num_eqb tmp (Num 0) then exponential_loop fuel d start init
      else Some (tmp, d)
  end.

Definition exponential (fuel : nat) (d : state) (start : Z) (init : bool)
  : option (number * state) :=
  match exponential_loop fuel d start init with
  | Some (tmp, d) => Some (nneg (Math_log tmp), d)
  | None => None
  end.

(** Lines 160-164 of [normal] and 259-263 of [logistic]: the same text. *)
Definition store_mean_sd (d : state) (mu sig : number) (init : bool) : state :=
  if init
  then set_u_s d
         (if isNaN mu || nlt mu (Num 0) then Num 0 else mu)
         (if isNaN sig || nlt sig (Num 1) then Num 1 else sig)
  else d.

(** The rejection loop of [normal] (lines 168-173), entered with [rsq = 0]. *)
Fixpoint normal_loop (fuel : nat) (d : state) (start : Z) (init : bool)
  : option (number * number * number * state) :=
  match fuel with
  | O => None
  | S fuel =>
      let '(r1, d) := uniform d start init in
      let v1 := nsub (nmul (Num 2) r1) (Num 1) in
      let '(r2, d) := uniform d start init in
      let v2 := nsub (nmul (Num 2) r2) (Num 1) in
      let rsq := nadd (nmul v1 v1) (nmul v2 v2) in
      if nge rsq (Num 1) || num_eqb rsq (Num 0)
      then normal_loop fuel d start init
      else Some (v1, v2, rsq, d)
  end.

Definition normal (fuel : nat) (d : state) (start : Z) (mu sig : number)
    (init : bool) : option (number * state) :=
  let d := store_mean_sd d mu sig init in
  if num_eqb (_normVal d) (Num 0)
  then
    match normal_loop fuel d start init with
    | Some (v1, v2, rsq, d) =>
        let fac :=
          Math_sqrt (ndiv (nmul (nneg (Num 2)) (Math_log rsq)) rsq) in
        let d := set_normVal d (nmul v1 fac) in
        Some (nadd (_u d) (nmul (nmul (_s d) v2) fac), d)
    | None => None
    end
  else
    let fac := _normVal d in
    let d := set_normVal d (Num 0) in
    Some (nadd (_u d) (nmul (_s d) fac), d).

(** Lines 207-218 of [gamma].  The guard tests [start], the seed, which is
    truthy when it is not 0. *)
Definition gamma_setup (d : state) (start : Z) (alpha beta : number) : state :=
  if negb (start =? 0)
  then
    let a := if isNaN alpha || nle alpha (Num 0) then Num 1 else alpha in
    let a := if nlt a (Num 1) then nadd a (Num 1) else a in
    let b := if isNaN beta || nlt beta (Num (1 # 10000)) then Num (1 # 2)
             else beta in
    let a1 := nsub a (ndiv (Num 1) (Num 3)) in
    let a2 := ndiv (Num 1) (Math_sqrt (nmul (Num 9) a1)) in
    set_gamma d a b a1 a2
  else d.

(** The inner loop of [gamma] (lines 227-231). *)
Fixpoint gamma_inner (fuel : nat) (d : state) (start : Z) (init : bool)
    (x v : number) : option (number * number * state) :=
  if nle v (Num 0)
  then
    match fuel with
    | O => None
    | S fuel =>
        let '(x, d) := uniform d start init in
        let v := nadd (Num 1) (nmul (_a2 d) x) in
        gamma_inner fuel d start init x v
    end
  else Some (x, v, d).

(** The outer loop of [gamma] (lines 225-236). *)
Fixpoint gamma_outer (fuel : nat) (d : state) (start : Z) (init : bool)
    (u v x xSQ : number) : option (number * state) :=
  if ngt u (nsub (Num 1) (nmul xSQ xSQ))
     && ngt (Math_log u)
            (nadd (nmul (Num (1 # 2)) xSQ)
                  (nmul (_a1 d) (nadd (nsub (Num 1) v) (Math_log v))))
  then
    match fuel with
    | O => None
    | S fuel' =>
        match gamma_inner fuel d start init x v with
        | Some (x, v, d) =>
            let v := nmul (nmul v v) v in
            let '(u, d) := uniform d start init in
            let xSQ := nmul x x in
            gamma_outer fuel' d start init u v x xSQ
        | None => None
        end
    end
  else Some (v, d).

Definition gamma (fuel : nat) (d : state) (start : Z) (alpha beta : number)
    (init : bool) : option (number * state) :=
  let d := gamma_setup d start alpha beta in
  match gamma_outer fuel d start init (Num 10) (Num 0) (Num 0) (Num 0) with
  | Some (v, d) => Some (ndiv (nmul (_a1 d) v) (_b d), d)
  | None => None
  end.

(** The loop of [logistic] (lines 265-268), entered with [v = 0]. *)
Fixpoint logistic_loop (fuel : nat) (d : state) (start : Z) (init : bool)
  : option (number * state) :=
  match fuel with
  | O => None
  | S fuel =>
      let '(v, d) := uniform d start init in
      if num_eqb (nmul v (nsub (Num 1) v)) (Num 0)
      then logistic_loop fuel d start init
      else Some (v, d)
  end.

Definition logistic (fuel : nat) (d : state) (start : Z) (mu sig : number)
    (init : bool) : option (number * state) :=
  let d := store_mean_sd d mu sig init in
  match logistic_loop fuel d start init with
  | Some (v, d) =>
      Some (nadd (_u d)
              (nmul (nmul (Num (55132889542179205 # 100000000000000000))
                          (_s d))
                    (Math_log (ndiv v (nsub (Num 1) v)))), d)
  | None => None
  end.

(** A call of one of the public methods. *)
Inductive call : Type :=
| Uniform (start : Z) (init : bool)
| Exponential (start : Z) (init : bool)
| Normal (start : Z) (mu sig : number) (init : bool)
| Gamma (start : Z) (alpha beta : number) (init : bool)
| Logistic (start : Z) (mu sig : number) (init : bool).

Definition run (fuel : nat) (c : call) (d : state) : option (number * state) :=
  match c with
  | Uniform start init => Some (uniform d start init)
  | Exponential start init => exponential fuel d start init
  | Normal start mu sig init => normal fuel d start mu sig init
  | Gamma start alpha beta init => gamma fuel d start alpha beta init
  | Logistic start mu sig init => logistic fuel d start mu sig init
  end.

(** The states an instance can be in: the constructor's, and those left by
    a call that returned. *)
Inductive reachable : state -> Prop :=
| reachable_new : reachable new
| reachable_call d fuel c v d' :
    reachable d -> run fuel c d = Some (v, d') -> reachable d'.

End Transcendental.

End Deviates.

(** ** libs/Bagging.ts *)
Module Bagging.

Record ISamples : Type := { x : list (option number); y : list (option number) }.

Definition min : number := nneg (Num (499 # 1000)).
Definition max (n : nat) : number :=
  nadd (nsub (of_nat n) (Num 1)) (Num (499 # 1000)).

(** One draw from the shared generator and its mapping to an index: the
    three lines every sampling loop starts with (74-76, 127-129, 184-186,
    245-247). *)
Definition to_index_signed (r : number) (n : nat) : signed :=
  let index :=
    Math_floor_signed
      (Math_round_signed (nadd min (nmul r (nsub (max n) min)))) in
  Math_abs_signed index.

(** The index as a key of [data]: -0 and +0 name the same element. *)
Definition to_index (r : number) (n : nat) : number :=
  magnitude (to_index_signed r n).

Definition draw_index (d : Deviates.state) (n : nat) : number * Deviates.state :=
  let '(r, d) := Deviates.uniform d 1001 false in
  (to_index r n, d).

(** The inner [for] loop of the variants with replacement: the indices of
    one output set, in the order they are pushed. *)
Fixpoint draw_indices (count : nat) (d : Deviates.state) (n : nat)
  : list number * Deviates.state :=
  match count with
  | O => ([], d)
  | S count =>
      let '(index, d) := draw_index d n in
      let '(rest, d) := draw_indices count d n in
      (index :: rest, d)
  end.

Fixpoint draw_sets (sets : nat) (d : Deviates.state) (n : nat)
  : list (list number) * Deviates.state :=
  match sets with
  | O => ([], d)
  | S sets =>
      let '(set, d) := draw_indices n d n in
      let '(rest, d) := draw_sets sets d n in
      (set :: rest, d)
  end.

(** The indices drawn by a call with replacement on [n] observations, set by
    set: the call seeds the generator with 1001, then runs the two loops. *)
Definition indices_with_replacement (d : Deviates.state) (n : nat)
    (numSets : number) : option (list (list number) * Deviates.state) :=
  let '(_, d) := Deviates.uniform d 1001 true in
  match for_count numSets with
  | Some sets => Some (draw_sets sets d n)
  | None => None
  end.

(** The [while] loop of the variants without replacement: [tmp] holds the
    indices pushed so far; [sampledIndices], which only ever stores [true],
    is the list of its keys, two numbers being the same key when they are
    the same property name. *)
Fixpoint draw_distinct (fuel : nat) (d : Deviates.state) (n : nat) (m : number)
    (tmp sampledIndices : list number) : option (list number * Deviates.state) :=
  if nlt (of_nat (length tmp)) m
  then
    match fuel with
    | O => None
    | S fuel =>
        let '(index, d) := draw_index d n in
        if existsb (same_key index) sampledIndices
        then draw_distinct fuel d n m tmp sampledIndices
        else draw_distinct fuel d n m (tmp ++ [index]) (index :: sampledIndices)
    end
  else Some (tmp, d).

Fixpoint draw_distinct_sets (sets fuel : nat) (d : Deviates.state) (n : nat)
    (m : number) : option (list (list number) * Deviates.state) :=
  match sets with
  | O => Some ([], d)
  | S sets =>
      match draw_distinct fuel d n m [] [] with
      | Some (set, d) =>
          match draw_distinct_sets sets fuel d n m with
          | Some (rest, d) => Some (set :: rest, d)
          | None => None
          end
      | None => None
      end
  end.

Definition indices_without_replacement (fuel : nat) (d : Deviates.state)
    (n : nat) (m numSets : number)
  : option (list (list number) * Deviates.state) :=
  let '(_, d) := Deviates.uniform d 1001 true in
  match for_count numSets with
  | Some sets => draw_distinct_sets sets fuel d n m
  | None => None
  end.

(** The observations at the drawn indices. *)
Definition pick (data : list number) (set : list number) : list (option number) :=
  map (array_get data) set.

Definition pick2 (xs ys : list number) (set : list number) : ISamples :=
  {| x := pick xs set; y := pick ys set |}.

Definition half (n : nat) : number := Math_floor (ndiv (of_nat n) (Num 2)).

Definition get1DSamplesWithReplacement (d : Deviates.state)
    (data : option (list number)) (numSets : option number)
  : option (list (list (option number)) * Deviates.state) :=
  match data with
  | None | Some [] => Some ([], d)
  | Some data =>
      let n := length data in
      let numSets :=
        match numSets with
        | None => of_nat n
        | Some s => if nlt s (Num 1) then of_nat n else Math_round s
        end in
      match indices_with_replacement d n numSets with
      | Some (sets, d) => Some (map (pick data) sets, d)
      | None => None
      end
  end.

Definition get1DSamplesWithoutReplacement (fuel : nat) (d : Deviates.state)
    (data : option (list number)) (m numSets : option number)
  : option (list (list (option number)) * Deviates.state) :=
  match data with
  | None | Some [] => Some ([], d)
  | Some data =>
      let n := length data in
      let m :=
        match m with
        | None => half n
        | Some m =>
            if isNaN m || nlt m (Num 1) || ngt m (of_nat n) then half n
            else Math_round m
        end in
      let numSets :=
        match numSets with
        | None => of_nat n
        | Some s =>
            if isNaN s || nlt s (Num 1) then of_nat n else Math_round s
        end in
      match indices_without_replacement fuel d n m numSets with
      | Some (sets, d) => Some (map (pick data) sets, d)
      | None => None
      end
  end.

Definition get2DSamplesWithReplacement (d : Deviates.state)
    (x y : option (list number)) (numSets : option number)
  : option (list ISamples * Deviates.state) :=
  match x, y with
  | None, _ | _, None | Some [], _ => Some ([], d)
  | Some xs, Some ys =>
      let n := length xs in
      if negb (length ys =? n)%nat then Some ([], d)
      else
        let numSets :=
          match numSets with
          | None => of_nat n
          | Some s =>
              if isNaN s || nlt s (Num 1) then of_nat n else Math_round s
          end in
        match indices_with_replacement d n numSets with
        | Some (sets, d) => Some (map (pick2 xs ys) sets, d)
        | None => None
        end
  end.

Definition get2DSamplesWithoutReplacement (fuel : nat) (d : Deviates.state)
    (x y : option (list number)) (m numSets : option number)
  : option (list ISamples * Deviates.state) :=
  match x, y with
  | None, _ | _, None | Some [], _ => Some ([], d)
  | Some xs, Some ys =>
      let n := length xs in
      if negb (length ys =? n)%nat then Some ([], d)
      else
        let m :=
          match m with
          | None => half n
          | Some m => if nlt m (Num 1) || ngt m (of_nat n) then half n else m
          end in
        let numSets :=
          match numSets with
          | None => of_nat n
          | Some s =>
              if isNaN s || nlt s (Num 1) then of_nat n else Math_round s
          end in
        match indices_without_replacement fuel d n m numSets with
        | Some (sets, d) => Some (map (pick2 xs ys) sets, d)
        | None => None
        end
  end.

End Bagging.

(** ** libs/llsq.ts *)
Module LLSQ.

Record ILLSQResult : Type := {
  a : number;
  b : number;
  siga : number;
  sigb : number;
  chi2 : number;
  r : number
}.

Definition zero : ILLSQResult :=
  {| a := Num 0; b := Num 0; siga := Num 0; sigb := Num 0; chi2 := Num 0;
     r := Num 0 |}.

Section Fit.

Variable Math_sqrt : number -> number.

(** Lines 67-120, for two arrays of the same length [n >= 3]. *)
Definition fit_points (xs ys : list number) : ILLSQResult :=
  let n := length xs in
  let sx := fold_left nadd xs (Num 0) in
  let sy := fold_left nadd ys (Num 0) in
  let ss := of_nat n in
  let sxoss := ndiv sx ss in
  let ybar := ndiv sy ss in
  let '(st2, b) :=
    fold_left (fun '(st2, b) '(xi, yi) =>
                 let t := nsub xi sxoss in
                 (nadd st2 (nmul t t), nadd b (nmul t yi)))
              (combine xs ys) (Num 0, Num 0) in
  let b := ndiv b st2 in
  let a := ndiv (nsub sy (nmul sx b)) ss in
  let sigdat := Num 1 in
  let siga :=
    Math_sqrt (ndiv (nadd (Num 1) (ndiv (nmul sx sx) (nmul ss st2))) ss) in
  let sigb := Math_sqrt (ndiv (Num 1) st2) in
  let '(chi2, s) :=
    fold_left (fun '(chi2, s) '(xi, yi) =>
                 let w := nsub yi ybar in
                 let t := nsub (nsub yi a) (nmul b xi) in
                 (nadd chi2 (nmul t t), nadd s (nmul w w)))
              (combine xs ys) (Num 0, Num 0) in
  let sigdat :=
    if (2 <? n)%nat then Math_sqrt (ndiv chi2 (nsub (of_nat n) (Num 2)))
    else sigdat in
  let siga := nmul siga sigdat in
  let sigb := nmul sigb sigdat in
  let r := nsub (Num 1) (ndiv chi2 s) in
  {| a := b; b := a; siga := siga; sigb := sigb; chi2 := chi2; r := r |}.

(** [fit]: [_x.length] is read first, and [_y.length] only when [n < 3]
    fails; reading the length of [null] throws. *)
Definition fit (_x _y : option (list number)) : completion ILLSQResult :=
  match _x with
  | None => Throw
  | Some xs =>
      let n := length xs in
      if (n <? 3)%nat then Return zero
      else
        match _y with
        | None => Throw
        | Some ys =>
            if negb (length ys =? n)%nat then Return zero
            else Return (fit_points xs ys)
        end
  end.

End Fit.

End LLSQ.

(** ** libs/Pllsq.ts *)
Module Pllsq.

(** The result; the literal returned for malformed input carries an [r]
    property besides those of the interface. *)
Record IPolyLLSQResult : Type := {
  coef : list number;
  r : option number;
  rms : number
}.

Definition empty : IPolyLLSQResult :=
  {| coef := []; r := Some (Num 0); rms := Num 0 |}.

Record state : Type := { _c : list number; _n : number }.

(** The constructor. *)
Definition new : state := {| _c := []; _n := Num 0 |}.

(** [eval]: nested multiplication from the highest coefficient down. *)
Definition eval (p : state) (x : number) : number :=
  match rev (_c p) with
  | [] => Num 0
  | top :: lower => fold_left (fun val ci => nadd (nmul x val) ci) lower top
  end.

(** The value of [m] after line 71. *)
Definition coefficients (m : number) : number :=
  if isNaN m || nlt m (Num 1) then Num 1 else nadd (Math_round m) (Num 1).

(** The integer a loop bound stands for. *)
Definition nat_of (a : number) : nat :=
  match a with Num q => Z.to_nat (Qfloor q) | _ => O end.

(** [tmp[i]] for [i = 2 .. ], each the previous entry times [xj]. *)
Fixpoint powers (count : nat) (xj prev : number) : list number :=
  match count with
  | O => []
  | S count => let t := nmul prev xj in t :: powers count xj t
  end.

(** One pass of the loop of lines 101-121 over a point: [asums[i]] and
    [b[i]] for [i >= 1] receive [tmp[i]] and [tmp[i]*yj]; [b[0]] receives
    [yj]. *)
Definition accumulate (len : nat) (acc : list number * list number)
    (pt : number * number) : list number * list number :=
  let '(asums, b) := acc in
  let '(xj, yj) := pt in
  let tmp := match len with O => [] | S l => xj :: powers l xj xj end in
  (match asums with
   | [] => []
   | a0 :: rest => a0 :: zip_with nadd rest tmp
   end,
   match b with
   | [] => []
   | b0 :: rest =>
       nadd b0 yj :: zip_with (fun bi ti => nadd bi (nmul ti yj)) rest tmp
   end).

Section Fit.

Variable Math_sqrt : number -> number.
(** [TSMT$Matrix]: [fromArray] followed by [solve]. *)
Variable Matrix_solve : list (list number) -> list number -> completion (list number).

Definition fit (p : state) (x y : option (list number)) (m : number)
  : completion IPolyLLSQResult * state :=
  match x, y with
  | None, _ | _, None => (Return empty, p)
  | Some xs, Some ys =>
      let n := length xs in
      let m := coefficients m in
      if nle (of_nat n) m then (Return empty, p)
      else
        let mm := nat_of m in
        let len := (2 * (mm - 1))%nat in
        let pts := map (fun j => (to_number (xs !! j), to_number (ys !! j)))
                       (seq 0 n) in
        let '(asums, b) :=
          fold_left (accumulate len) pts
                    (of_nat n :: repeat (Num 0) len, repeat (Num 0) mm) in
        let a :=
          map (fun i => map (fun j => to_number (asums !! (i + j)%nat))
                            (seq 0 mm))
              (seq 0 mm) in
        match Matrix_solve a b with
        | Throw => (Throw, p)
        | Return c =>
            let p := {| _c := c; _n := m |} in
            let s :=
              fold_left (fun s '(xi, yi) =>
                           let t := nsub (eval p xi) yi in
                           nadd s (nmul t t))
                        pts (Num 0) in
            (Return {| coef := _c p; r := None;
                       rms := Math_sqrt (ndiv s (of_nat n)) |}, p)
        end
  end.

End Fit.

End Pllsq.

(** ** libs/Bllsq.ts *)
Module Bllsq.

Record IBagggedLinearFit : Type := {
  a : number;
  b : number;
  fits : list LLSQ.ILLSQResult
}.

Definition empty : IBagggedLinearFit :=
  {| a := Num 0; b := Num 0; fits := [] |}.

(** An array of a bag as [TSMT$LLSQ.fit] reads it: an element that is
    [undefined] only enters sums and products, where it is NaN. *)
Definition as_numbers (l : list (option number)) : option (list number) :=
  Some (map to_number l).

Section Fit.

Variable Math_sqrt : number -> number.

(** The loops of lines 85-93 and 144-151 over the indices [i] of the bags:
    [bag[i].x] throws when [bag[i]] is [undefined]. *)
Fixpoint fit_bags (bag : list Bagging.ISamples) (indices : list nat)
    (a_ave b_ave : number) (fitArray : list LLSQ.ILLSQResult)
  : completion (number * number * list LLSQ.ILLSQResult) :=
  match indices with
  | [] => Return (a_ave, b_ave, fitArray)
  | i :: indices =>
      match bag !! i with
      | None => Throw
      | Some samples =>
          match LLSQ.fit Math_sqrt (as_numbers (Bagging.x samples))
                         (as_numbers (Bagging.y samples)) with
          | Throw => Throw
          | Return fit =>
              fit_bags bag indices (nadd a_ave (LLSQ.a fit))
                       (nadd b_ave (LLSQ.b fit)) (fitArray ++ [fit])
          end
      end
  end.

(** What follows the sampling in both methods: the loop over [numSets]
    bags and the two divisions.  A loop bounded by +Infinity ends at the
    first index past the bags, by a throw. *)
Definition average (bag : list Bagging.ISamples) (numSets : number)
  : completion IBagggedLinearFit :=
  let indices :=
    match for_count numSets with
    | Some count => seq 0 count
    | None => seq 0 (S (length bag))
    end in
  match fit_bags bag indices (Num 0) (Num 0) [] with
  | Throw => Throw
  | Return (a_ave, b_ave, fitArray) =>
      Return {| a := ndiv a_ave numSets; b := ndiv b_ave numSets;
                fits := fitArray |}
  end.

Definition bagFit (d : Deviates.state) (x y : option (list number))
    (numSets : option number)
  : option (completion IBagggedLinearFit * Deviates.state) :=
  match x, y with
  | None, _ | _, None => Some (Return empty, d)
  | Some xs, Some ys =>
      let n := length xs in
      if (n <? 3)%nat then Some (Return empty, d)
      else
        let numSets :=
          match numSets with
          | None => of_nat n
          | Some s =>
              if isNaN s || nlt s (Num 1) then of_nat n else Math_round s
          end in
        match Bagging.get2DSamplesWithReplacement d x y (Some numSets) with
        | Some (bag, d) => Some (average bag numSets, d)
        | None => None
        end
  end.

Definition subbagFit (fuel : nat) (d : Deviates.state)
    (x y : option (list number)) (m numSets : option number)
  : option (completion IBagggedLinearFit * Deviates.state) :=
  match x, y with
  | None, _ | _, None => Some (Return empty, d)
  | Some xs, Some ys =>
      let n := length xs in
      if (n <? 3)%nat then Some (Return empty, d)
      else
        let m :=
          match m with
          | None => Bagging.half n
          | Some m =>
              if isNaN m || nlt m (Num 1) || ngt m (of_nat n)
              then Bagging.half n else Math_round m
          end in
        let numSets :=
          match numSets with
          | None => of_nat n
          | Some s =>
              if isNaN s || nlt s (Num 1) then of_nat n else Math_round s
          end in
        match Bagging.get2DSamplesWithoutReplacement fuel d x y (Some m)
                (Some numSets) with
        | Some (bag, d) => Some (average bag numSets, d)
        | None => None
        end
  end.

End Fit.

End Bllsq.

(** ** app/app.component.ts *)
Module AppComponent.

(** Line 78: horizontal and vertical buffer space, in pixels. *)
Definition BUFFER : number := Num 5.

(** The fields of the component [__transform] reads and writes: the size
    of the drawing surface and the extremes of the data. *)
Record view : Type := {
  _width : number;
  _height : number;
  _xmin : option number;
  _xmax : option number;
  _ymin : option number;
  _ymax : option number
}.

Definition set_x (v : view) (min max : option number) : view :=
  {| _width := _width v; _height := _height v; _xmin := min; _xmax := max;
     _ymin := _ymin v; _ymax := _ymax v |}.

Definition set_y (v : view) (min max : option number) : view :=
  {| _width := _width v; _height := _height v; _xmin := _xmin v;
     _xmax := _xmax v; _ymin := min; _ymax := max |}.

(** [Math.min] and [Math.max] of two numbers. *)
Definition Math_min (a b : number) : number :=
  if isNaN a || isNaN b then NaN else if nlt b a then b else a.

Definition Math_max (a b : number) : number :=
  if isNaN a || isNaN b then NaN else if nlt a b then b else a.

(** Lines 511-520: the smallest and the largest element; [arr[0]] is
    [undefined] when the array is empty. *)
Definition extremes (arr : list number) : option number * option number :=
  match arr with
  | [] => (None, None)
  | a0 :: rest =>
      let '(min, max) :=
        fold_left (fun '(min, max) v => (Math_min min v, Math_max max v))
                  rest (a0, a0) in
      (Some min, Some max)
  end.

(** Lines 508-550: raw coordinates to canvas coordinates; the [y] axis is
    turned over. *)
Definition __transform (v : view) (arr : list number) (coord : String.string)
  : list number * view :=
  let '(min, max) := extremes arr in
  let range := nsub (to_number max) (to_number min) in
  if String.eqb coord "x" then
    let v := set_x v min max in
    let m := ndiv (nsub (_width v) (nmul (Num 2) BUFFER))
                  (nsub (to_number max) (to_number min)) in
    (map (fun x => Math_round (nadd (nmul m (nsub x (to_number min))) BUFFER))
         arr, v)
  else
    let v := set_y v min max in
    let m := ndiv (nsub (nmul (Num 2) BUFFER) (_height v))
                  (nsub (to_number max) (to_number min)) in
    (map (fun y => Math_round
                     (nsub (nadd (nmul m (nsub y (to_number min))) (_height v))
                           BUFFER))
         arr, v).

End AppComponent.

Arguments Deviates.uniform : simpl never.

(** ** Calling sequences the properties are about *)

(** [k] successive calls [uniform(start, false)], with the values returned. *)
Fixpoint continue (k : nat) (d : Deviates.state) (start : Z)
  : list number * Deviates.state :=
  match k with
  | O => ([], d)
  | S k =>
      let '(v, d) := Deviates.uniform d start false in
      let '(rest, d) := continue k d start in
      (v :: rest, d)
  end.

(** [uniform(start, true)] followed by [k] calls [uniform(start, false)]. *)
Definition sequence (k : nat) (d : Deviates.state) (start : Z) : list number :=
  let '(v, d) := Deviates.uniform d start true in
  v :: fst (continue k d start).

(** A number strictly between 0 and 1. *)
Definition in_open_unit (a : number) : Prop :=
  exists q, a = Num q /\ (0 < q)%Q /\ (q < 1)%Q.

(** A value [uniform] returns from a seeded table: positive and at most
    [RNMX]. *)
Definition clamped (a : number) : Prop :=
  exists q, a = Num q /\ (0 < q)%Q /\ (q <= 24999997 # 25000000)%Q.

(** The generator after a proper seeding: the state and the 32 slots of the
    table hold integers of [1, IM-1]. *)
Definition seeded (idum : Z) (iv : gmap Z Z) : Prop :=
  1 <= idum < Deviates.IM /\
  forall j, 0 <= j < Deviates.NTAB ->
            exists v, iv !! j = Some v /\ 1 <= v < Deviates.IM.

Definition seeded_state (d : Deviates.state) : Prop :=
  seeded (Deviates._idum d) (Deviates._iv d).

(** The order of the polynomial in the specification's words: NaN and
    values below 1 become 1, other values are rounded down. *)
Definition order_as_specified (m : number) : number :=
  if isNaN m || nlt m (Num 1) then Num 1 else Math_floor m.

(** The specification's requirement on the number [n] of points:
    [n > order + 1]. *)
Definition enough_points_as_specified (n : nat) (m : number) : bool :=
  ngt (of_nat n) (nadd (order_as_specified m) (Num 1)).

(** The distribution parameters an instance stores. *)
Definition parameters (d : Deviates.state) : number * number * number * number :=
  (Deviates._u d, Deviates._s d, Deviates._a d, Deviates._b d).

(** The ranges the stored parameters are kept in: mean at least 0, standard
    deviation at least 1, shape at least 1, scale at least 1e-4. *)
Definition parameters_in_range (d : Deviates.state) : Prop :=
  nle (Num 0) (Deviates._u d) = true /\
  nle (Num 1) (Deviates._s d) = true /\
  nle (Num 1) (Deviates._a d) = true /\
  nle (Num (1 # 10000)) (Deviates._b d) = true.

(** An index into an array of [n] elements. *)
Definition valid_index (n : nat) (a : number) : Prop :=
  exists i, a = of_Z i /\ 0 <= i < Z.of_nat n.

(** An element of an output set that is one of the observations of
    [data]. *)
Definition copy_of (data : list number) (e : option number) : Prop :=
  exists v, e = Some v /\ In v data.

(** The value [uniform] makes of a table entry: scaled by [AM], and
    [RNMX] when that exceeds [RNMX] (lines 112-113). *)
Definition scale (z : Z) : number :=
  let temp := nmul Deviates.AM (of_Z z) in
  if ngt temp Deviates.RNMX then Deviates.RNMX else temp.

(** Two instances whose generators are in the same state. *)
Definition same_generator (d d' : Deviates.state) : Prop :=
  Deviates._idum d = Deviates._idum d' /\ Deviates._iv d = Deviates._iv d'.

(** The number of sets three of the four sampling operations produce (lines
    106, 166, 222): [n] when [numSets] is omitted, NaN or below 1.  The
    fourth, [get1DSamplesWithReplacement], does not test for NaN. *)
Definition sets_requested (n : nat) (numSets : option number) : number :=
  match numSets with
  | None => of_nat n
  | Some s => if isNaN s || nlt s (Num 1) then of_nat n else Math_round s
  end.

(** A pair of elements of two output arrays that is one of the points
    [(xs[i], ys[i])]. *)
Definition point_of (xs ys : list number) (p : option number * option number)
  : Prop :=
  exists v w, p = (Some v, Some w) /\ In (v, w) (combine xs ys).

(** The sum of a list of rationals. *)
Definition Qsum (l : list Q) : Q := fold_right Qplus 0%Q l.

(** [x] to the power [i]. *)
Fixpoint Qpow (x : Q) (i : nat) : Q :=
  match i with
  | O => 1%Q
  | S i => (x * Qpow x i)%Q
  end.

(** The value at [x] of the polynomial with coefficients [cs], lowest
    degree first: the sum of the [cs[i] * x^i]. *)
Definition poly_value (cs : list Q) (x : Q) : Q :=
  Qsum (map (fun ic => (snd ic * Qpow x (fst ic))%Q)
            (combine (seq 0 (length cs)) cs)).

(** The fit [bagFit] and [subbagFit] compute on one bag (an array read
    from a bag is never null, so that the call returns). *)
Definition fit_of_bag (Math_sqrt : number -> number) (samples : Bagging.ISamples)
  : LLSQ.ILLSQResult :=
  match LLSQ.fit Math_sqrt (Bllsq.as_numbers (Bagging.x samples))
                 (Bllsq.as_numbers (Bagging.y samples)) with
  | Return fit => fit
  | Throw => LLSQ.zero
  end.

(** The sample size [subbagFit] passes on (Bllsq.ts, the test on [m]):
    [floor(n/2)] when [m] is omitted, NaN, below 1 or above [n]. *)
Definition size_requested (n : nat) (m : option number) : number :=
  match m with
  | None => Bagging.half n
  | Some m =>
      if isNaN m || nlt m (Num 1) || ngt m (of_nat n)
      then Bagging.half n else Math_round m
  end.

(** The sum of the [i]-th powers of the abscissae of a list of points. *)
Definition power_sum (pts : list (Q * Q)) (i : nat) : Q :=
  Qsum (map (fun p => Qpow (fst p) i) pts).

(** The sum of the [x^i * y] over a list of points. *)
Definition moment (pts : list (Q * Q)) (i : nat) : Q :=
  Qsum (map (fun p => (Qpow (fst p) i * snd p)%Q) pts).

(** The normal equations of the least-squares polynomial with [mm]
    coefficients: matrix and right-hand side. *)
Definition normal_matrix (mm : nat) (pts : list (Q * Q)) : list (list number) :=
  map (fun i => map (fun j => fin (power_sum pts (i + j))) (seq 0 mm)) (seq 0 mm).

Definition normal_rhs (mm : nat) (pts : list (Q * Q)) : list number :=
  map (fun i => fin (moment pts i)) (seq 0 mm).

(** The two arrays of a list of points with rational coordinates. *)
Definition abscissae (pts : list (Q * Q)) : list number :=
  map (fun p => fin (fst p)) pts.
Definition ordinates (pts : list (Q * Q)) : list number :=
  map (fun p => fin (snd p)) pts.

(** The smallest and the largest of a list of rationals. *)
Definition least (qs : list Q) (lo : Q) : Prop :=
  In lo qs /\ Forall (fun x => (lo <= x)%Q) qs.

Definition greatest (qs : list Q) (hi : Q) : Prop :=
  In hi qs /\ Forall (fun x => (x <= hi)%Q) qs.

(** Points with integer coordinates, as points with rational ones. *)
Definition integer_points (pts : list (Z * Z)) : list (Q * Q) :=
  map (fun p => (inject_Z (fst p), inject_Z (snd p))) pts.

(** Integer points on which the sums [fit] accumulates for [mm]
    coefficients are exact in double precision: with abscissae within
    [X <= 2^53] and ordinates within [Y], every power, product and partial
    sum is an integer of magnitude at most
    [n * X^(2 (mm - 1)) * Y <= 2^53]. *)
Definition exactly_summed (pts : list (Z * Z)) (mm : nat) : Prop :=
  exists X Y,
    1 <= X <= 2 ^ 53 /\ 1 <= Y /\
    Forall (fun p => Z.abs (fst p) <= X /\ Z.abs (snd p) <= Y) pts /\
    Z.of_nat (length pts) * X ^ Z.of_nat (2 * (mm - 1)) * Y <= 2 ^ 53.

(** A bound on every intermediate value of the nested multiplication of
    [eval]: the sum of the [|cs[i]| * max(1, |x|)^i]. *)
Definition evaluation_bound (cs : list Z) (x : Z) : Z :=
  fold_right (fun c acc => Z.abs c + Z.max 1 (Z.abs x) * acc) 0 cs.

(** ** Facts on numbers *)

Lemma Qltb_lt a b : Qltb a b = true <-> (a < b)%Q.
Proof.
  unfold Qltb. rewrite negb_true_iff. split.
  - intros H. apply Qnot_le_lt. intros Hle.
    apply Qle_bool_iff in Hle. congruence.
  - intros H. destruct (Qle_bool b a) eqn:E; [|reflexivity].
    apply Qle_bool_iff in E. exfalso. exact (Qlt_not_le _ _ H E).
Qed.

Lemma Qltb_ge a b : Qltb a b = false <-> (b <= a)%Q.
Proof.
  unfold Qltb. rewrite negb_false_iff. apply Qle_bool_iff.
Qed.

(** ** The congruential generator *)

Lemma IM_decomposition : Deviates.IM = Deviates.IA * Deviates.IQ + Deviates.IR.
Proof. reflexivity. Qed.

Lemma lcg_range x :
  1 <= x < Deviates.IM -> 1 <= Deviates.lcg x < Deviates.IM.
Proof.
  intros Hx. unfold Deviates.lcg.
  pose proof (Z.div_mod x Deviates.IQ ltac:(discriminate)) as Hdm.
  pose proof (Z.mod_pos_bound x Deviates.IQ ltac:(reflexivity)) as Hr.
  set (k := x / Deviates.IQ) in *.
  set (rm := x mod Deviates.IQ) in *.
  assert (Hk : 0 <= k <= 16807).
  { split.
    - apply Z.div_pos; [lia | reflexivity].
    - subst k. apply Z.lt_succ_r. apply Z.div_lt_upper_bound; [reflexivity|].
      unfold Deviates.IM, Deviates.IQ in *. lia. }
  assert (Hv : Deviates.IA * (x - k * Deviates.IQ) - Deviates.IR * k
               = Deviates.IA * rm - Deviates.IR * k) by (f_equal; lia).
  rewrite Hv.
  assert (Hnz : Deviates.IA * rm - Deviates.IR * k <> 0).
  { intros H0.
    assert (Hdiv : (Deviates.IM | Deviates.IA * x)).
    { exists k. rewrite IM_decomposition. rewrite Hdm at 1. lia. }
    apply Z.gauss in Hdiv; [|reflexivity].
    apply Z.divide_pos_le in Hdiv; lia. }
  unfold Deviates.IM, Deviates.IQ, Deviates.IA, Deviates.IR in *.
  destruct (Z.ltb_spec (16807 * rm - 2836 * k) 0); lia.
Qed.

Lemma seed_fold_range l acc :
  1 <= fst acc < Deviates.IM ->
  (forall j v, snd acc !! j = Some v -> 1 <= v < Deviates.IM) ->
  let res := fold_left Deviates.seed_step l acc in
  1 <= fst res < Deviates.IM /\
  (forall j v, snd res !! j = Some v -> 1 <= v < Deviates.IM).
Proof.
  revert acc. induction l as [|j l IH]; intros acc Hi Hv; simpl; [auto|].
  apply IH; unfold Deviates.seed_step; simpl.
  - apply lcg_range, Hi.
  - intros j' v'. destruct (j <? Deviates.NTAB); [|apply Hv].
    rewrite lookup_insert. case_decide.
    + intros [= <-]. apply lcg_range, Hi.
    + apply Hv.
Qed.

Lemma seed_fold_covers l acc j :
  (In j l /\ j < Deviates.NTAB) \/ is_Some (snd acc !! j) ->
  is_Some (snd (fold_left Deviates.seed_step l acc) !! j).
Proof.
  revert acc. induction l as [|i l IH]; intros acc H; simpl.
  - destruct H as [[[] _]|H]; exact H.
  - apply IH. unfold Deviates.seed_step; simpl.
    destruct H as [[[->|Hin] Hlt]|H].
    + right. apply Z.ltb_lt in Hlt. rewrite Hlt.
      rewrite lookup_insert_eq. eauto.
    + left. auto.
    + right. destruct (i <? Deviates.NTAB); [|exact H].
      rewrite lookup_insert. case_decide; eauto.
Qed.

Lemma seed_table_seeded start :
  1 <= start < Deviates.IM ->
  seeded (fst (Deviates.seed_table start)) (snd (Deviates.seed_table start)).
Proof.
  intros Hs. unfold Deviates.seed_table.
  assert (Hst : (if start <? 1 then 1 else start) = start).
  { destruct (Z.ltb_spec start 1); lia. }
  rewrite Hst.
  pose proof (seed_fold_range (rev (seqZ 0 (Deviates.NTAB + 7 + 1))) (start, ∅))
    as [Hi Hv]; [exact Hs | intros j v; simpl; rewrite lookup_empty; discriminate |].
  split; [exact Hi|].
  intros j Hj.
  destruct (seed_fold_covers (rev (seqZ 0 (Deviates.NTAB + 7 + 1))) (start, ∅) j)
    as [v Hjv].
  - left. split; [|lia]. apply in_rev. rewrite rev_involutive.
    apply list_elem_of_In, elem_of_seqZ. unfold Deviates.NTAB in *. lia.
  - exists v. split; [exact Hjv | exact (Hv _ _ Hjv)].
Qed.

Lemma RNMX_value : Deviates.RNMX = Num (24999997 # 25000000).
Proof. reflexivity. Qed.

(** Scaling and clamping a table entry. *)
Lemma scaled_entry_clamped v :
  1 <= v < Deviates.IM ->
  clamped (let temp := nmul Deviates.AM (of_Z v) in
           if ngt temp Deviates.RNMX then Deviates.RNMX else temp).
Proof.
  intros Hv.
  change Deviates.AM with (Num (1 # 2147483647)).
  change Deviates.RNMX with (Num (24999997 # 25000000)).
  cbv zeta. unfold of_Z, nmul, fin, ngt, nlt.
  destruct (Qltb _ _) eqn:E.
  - exists (24999997 # 25000000)%Q. split; [reflexivity|].
    split; [reflexivity | apply Qle_refl].
  - eexists. split; [reflexivity|].
    apply Qltb_ge in E. split; [|exact E].
    rewrite Qred_correct. unfold Qlt, Qmult, inject_Z. simpl. lia.
Qed.

Lemma clamped_in_open_unit a : clamped a -> in_open_unit a.
Proof.
  intros (q & -> & Hpos & Hle). exists q. split; [reflexivity|].
  split; [exact Hpos|].
  eapply Qle_lt_trans; [exact Hle | reflexivity].
Qed.

(** The slot an initialising call reads lies in the table. *)
Lemma slot_of_entry v :
  1 <= v < Deviates.IM ->
  exists j, index_of (Math_floor (ndiv (of_Z v) Deviates.NDIV)) = Some j /\
            0 <= j < Deviates.NTAB.
Proof.
  intros Hv.
  change Deviates.NDIV with (Num (1073741839 # 16)).
  unfold of_Z, ndiv. change (Qeq_bool (1073741839 # 16) 0) with false.
  cbv iota. unfold fin, Math_floor, of_Z, index_of.
  rewrite Qfloor_Z, Qeq_bool_refl.
  eexists. split; [reflexivity|].
  rewrite Qred_correct.
  set (qv := (inject_Z v / (1073741839 # 16))%Q).
  assert (H0 : (0 <= qv)%Q).
  { subst qv. unfold Qle, Qdiv, Qmult, Qinv, inject_Z. simpl. lia. }
  assert (H32 : (qv < inject_Z 32)%Q).
  { subst qv. unfold Qlt, Qdiv, Qmult, Qinv, inject_Z. simpl.
    unfold Deviates.IM in Hv. lia. }
  split.
  - apply (Qfloor_resp_le 0 qv H0).
  - pose proof (Qfloor_le qv) as Hfl.
    apply (Qle_lt_trans _ _ _ Hfl) in H32.
    rewrite <- Zlt_Qlt in H32. exact H32.
Qed.

(** What a continuing call does: it reads and replaces slot 0. *)
Lemma uniform_continue_eq d start :
  Deviates.uniform d start false =
  (let temp := nmul Deviates.AM
                    (to_number (of_Z <$> Deviates._iv d !! 0)) in
   if ngt temp Deviates.RNMX then Deviates.RNMX else temp,
   Deviates.set_gen d (Deviates.lcg (Deviates._idum d))
     (<[0 := Deviates.lcg (Deviates._idum d)]> (Deviates._iv d))).
Proof. reflexivity. Qed.

Lemma seeded_insert idum iv j v :
  seeded idum iv -> 1 <= v < Deviates.IM ->
  seeded (Deviates.lcg idum) (<[j := v]> iv).
Proof.
  intros [Hi Hiv] Hv. split; [apply lcg_range, Hi|].
  intros j' Hj'. rewrite lookup_insert. case_decide; eauto.
Qed.

Lemma uniform_continue_seeded d start :
  seeded_state d ->
  clamped (fst (Deviates.uniform d start false)) /\
  seeded_state (snd (Deviates.uniform d start false)).
Proof.
  intros Hd. rewrite uniform_continue_eq. simpl.
  destruct Hd as [Hi Hiv].
  destruct (Hiv 0 ltac:(unfold Deviates.NTAB; lia)) as (v & Hv & Hr).
  split.
  - rewrite Hv. apply (scaled_entry_clamped v Hr).
  - apply seeded_insert; [split; assumption | apply lcg_range, Hi].
Qed.

Lemma uniform_init_eq d d' start :
  fst (Deviates.uniform d start true) = fst (Deviates.uniform d' start true) /\
  Deviates._idum (snd (Deviates.uniform d start true))
  = Deviates._idum (snd (Deviates.uniform d' start true)) /\
  Deviates._iv (snd (Deviates.uniform d start true))
  = Deviates._iv (snd (Deviates.uniform d' start true)).
Proof.
  unfold Deviates.uniform.
  destruct (Deviates.seed_table start) as [idum iv].
  destruct (index_of _); auto.
Qed.

Lemma uniform_init_seeded d start :
  1 <= start < Deviates.IM ->
  clamped (fst (Deviates.uniform d start true)) /\
  seeded_state (snd (Deviates.uniform d start true)).
Proof.
  intros Hs. pose proof (seed_table_seeded start Hs) as Hseed.
  unfold Deviates.uniform.
  destruct (Deviates.seed_table start) as [idum iv]. simpl in Hseed.
  destruct Hseed as [Hi Hiv].
  destruct (Hiv 0 ltac:(unfold Deviates.NTAB; lia)) as (v0 & Hv0 & Hr0).
  rewrite Hv0. simpl to_number.
  destruct (slot_of_entry v0 Hr0) as (j & Hj & Hjr).
  rewrite Hj.
  destruct (Hiv j Hjr) as (v & Hv & Hr).
  rewrite Hv. split.
  - apply (scaled_entry_clamped v Hr).
  - apply seeded_insert; [split; assumption | apply lcg_range, Hi].
Qed.

Lemma continue_succ k d start :
  continue (S k) d start =
  (fst (Deviates.uniform d start false)
     :: fst (continue k (snd (Deviates.uniform d start false)) start),
   snd (continue k (snd (Deviates.uniform d start false)) start)).
Proof.
  change (continue (S k) d start)
    with (let '(v, e) := Deviates.uniform d start false in
          let '(rest, e) := continue k e start in (v :: rest, e)).
  destruct (Deviates.uniform d start false) as [v e]. simpl.
  destruct (continue k e start); reflexivity.
Qed.

Lemma continue_generator_only k : forall d d' start,
  Deviates._idum d = Deviates._idum d' ->
  Deviates._iv d = Deviates._iv d' ->
  fst (continue k d start) = fst (continue k d' start).
Proof.
  induction k as [|k IH]; intros d d' start Hi Hv; [reflexivity|].
  rewrite !continue_succ, !uniform_continue_eq.
  cbn [fst snd]. rewrite Hv. f_equal.
  apply IH; cbn [Deviates.set_gen Deviates._idum Deviates._iv]; congruence.
Qed.

Lemma continue_clamped k : forall d start,
  seeded_state d ->
  Forall clamped (fst (continue k d start)) /\
  seeded_state (snd (continue k d start)) /\
  length (fst (continue k d start)) = k.
Proof.
  induction k as [|k IH]; intros d start Hd.
  - split; [constructor | split; [exact Hd | reflexivity]].
  - rewrite continue_succ. cbn [fst snd].
    destruct (uniform_continue_seeded d start Hd) as [Hv Hd'].
    destruct (IH _ start Hd') as (Hall & Hs & Hlen).
    split; [constructor; assumption | split; [exact Hs|]].
    cbn [length]. congruence.
Qed.

(** For an integer seed [s] of [1, 2^31 - 2], [uniform(s, true)] followed
    by [k] calls [uniform(s, false)] returns [k + 1] values, each positive,
    at most [RNMX = 1 - 1.2e-7] and so below 1; the values do not depend on
    the state the instance was in before the seeding call. *)
Lemma seeded_sequence_in_unit_interval (s : Z) (k : nat)
    (d d' : Deviates.state) :
  1 <= s < Deviates.IM ->
  length (sequence k d s) = S k /\
  Forall (fun v => clamped v /\ in_open_unit v) (sequence k d s) /\
  sequence k d s = sequence k d' s.
Proof.
  intros Hs. unfold sequence.
  destruct (uniform_init_seeded d s Hs) as [Hv Hd].
  destruct (uniform_init_eq d d' s) as (Efst & Eidum & Eiv).
  pose proof (continue_generator_only k _ _ s Eidum Eiv) as Econt.
  destruct (Deviates.uniform d s true) as [v e].
  destruct (Deviates.uniform d' s true) as [v' e'].
  simpl in *. subst v'.
  destruct (continue_clamped k e s Hd) as (Hall & _ & Hlen).
  split; [simpl; congruence|].
  split; [|congruence].
  constructor.
  - split; [exact Hv | apply clamped_in_open_unit, Hv].
  - eapply Forall_impl; [exact Hall|].
    intros a Ha. split; [exact Ha | apply clamped_in_open_unit, Ha].
Qed.

(** Seeds up to 757223 * IQ - 1 = 96752654378: there [IR * k < IM], so
    that one addition of [IM] brings the step back into [0, IM-1], and every
    product is below 2^53. *)
Lemma lcg_modular_wide (x : Z) :
  0 <= x < 757223 * Deviates.IQ ->
  Deviates.lcg x = (Deviates.IA * x) mod Deviates.IM.
Proof.
  intros Hx. unfold Deviates.lcg.
  pose proof (Z.div_mod x Deviates.IQ ltac:(discriminate)) as Hdm.
  pose proof (Z.mod_pos_bound x Deviates.IQ ltac:(reflexivity)) as Hr.
  set (k := x / Deviates.IQ) in *.
  set (rm := x mod Deviates.IQ) in *.
  assert (Hk : 0 <= k <= 757222).
  { split.
    - apply Z.div_pos; [lia | reflexivity].
    - subst k. apply Z.lt_succ_r. apply Z.div_lt_upper_bound; [reflexivity|].
      unfold Deviates.IQ in *. lia. }
  assert (Hv : Deviates.IA * (x - k * Deviates.IQ) - Deviates.IR * k
               = Deviates.IA * rm - Deviates.IR * k) by (f_equal; lia).
  rewrite Hv.
  assert (Hprod : Deviates.IA * x
                  = k * Deviates.IM + (Deviates.IA * rm - Deviates.IR * k)).
  { rewrite IM_decomposition. rewrite Hdm at 1. lia. }
  unfold Deviates.IM, Deviates.IQ, Deviates.IA, Deviates.IR in *.
  destruct (Z.ltb_spec (16807 * rm - 2836 * k) 0).
  - apply (Z.mod_unique_pos _ _ (k - 1)); lia.
  - apply (Z.mod_unique_pos _ _ k); lia.
Qed.

Lemma seed_table_first_step (s : Z) :
  1 <= s ->
  Deviates.seed_table s
  = fold_left Deviates.seed_step (rev (seqZ 0 (Deviates.NTAB + 7)))
              (Deviates.lcg s, ∅).
Proof.
  intros Hs. unfold Deviates.seed_table.
  destruct (Z.ltb_spec s 1) as [|_]; [lia|].
  change (rev (seqZ 0 (Deviates.NTAB + 7 + 1)))
    with ((Deviates.NTAB + 7) :: rev (seqZ 0 (Deviates.NTAB + 7))).
  reflexivity.
Qed.

Lemma seed_table_congruent (s s' : Z) :
  1 <= s -> 1 <= s' -> Deviates.lcg s = Deviates.lcg s' ->
  Deviates.seed_table s = Deviates.seed_table s'.
Proof.
  intros Hs Hs' E. rewrite !seed_table_first_step by assumption.
  rewrite E. reflexivity.
Qed.

Lemma uniform_init_congruent d (s s' : Z) :
  Deviates.seed_table s = Deviates.seed_table s' ->
  Deviates.uniform d s true = Deviates.uniform d s' true.
Proof. intros E. unfold Deviates.uniform. rewrite E. reflexivity. Qed.

Lemma continue_ignores_seed k : forall d s s',
  continue k d s = continue k d s'.
Proof.
  induction k as [|k IH]; intros d s s'; [reflexivity|].
  rewrite !continue_succ, !uniform_continue_eq. cbn [fst snd].
  rewrite (IH _ s s'). reflexivity.
Qed.

Lemma sequence_congruent k d (s s' : Z) :
  Deviates.seed_table s = Deviates.seed_table s' ->
  sequence k d s = sequence k d s'.
Proof.
  intros E. unfold sequence. rewrite (uniform_init_congruent d s s' E).
  destruct (Deviates.uniform d s' true) as [v e].
  rewrite (continue_ignores_seed k e s s'). reflexivity.
Qed.

Lemma continue_at_zero k : forall d s,
  Deviates._idum d = 0 -> Deviates._iv d !! 0 = Some 0 ->
  fst (continue k d s) = repeat (Num 0) k.
Proof.
  induction k as [|k IH]; intros d s Hi Hv; [reflexivity|].
  rewrite continue_succ, uniform_continue_eq. cbn [fst snd repeat].
  rewrite Hv, Hi. f_equal.
  apply IH; cbn [Deviates.set_gen Deviates._idum Deviates._iv];
    [reflexivity | apply lookup_insert_eq].
Qed.

Lemma sequence_at_modulus k d :
  sequence k d Deviates.IM = repeat (Num 0) (S k).
Proof.
  unfold sequence.
  destruct (Deviates.uniform d Deviates.IM true) as [v e] eqn:E.
  assert (Hv : v = Num 0 /\ Deviates._idum e = 0 /\ Deviates._iv e !! 0 = Some 0).
  { apply (f_equal fst) in E as E1. apply (f_equal snd) in E as E2.
    cbn [fst snd] in E1, E2. subst v e.
    unfold Deviates.uniform. vm_compute. repeat split; reflexivity. }
  destruct Hv as (-> & Hi & Hl). cbn [repeat]. f_equal.
  apply continue_at_zero; assumption.
Qed.

(** C1.  The seed is only guarded from below.  For every integer seed
    [s] with [1 <= s < 757223 * IQ] (the seeds whose first step is the exact
    modular product), [uniform(s, true)] followed by [k] calls
    [uniform(s, false)] behaves as the claim says exactly when [s] is not a
    multiple of [IM = 2^31 - 1]: it returns [k + 1] values, each positive
    and at most [RNMX], the same whatever the instance did before.  For a
    multiple of [IM], the first being [2^31 - 1] itself, the table is filled
    with zeros and every value returned is exactly 0, which is not in
    (0, 1). *)
Theorem uniform_sequence_by_seed (s : Z) (k : nat) (d d' : Deviates.state) :
  1 <= s < 757223 * Deviates.IQ ->
  (s mod Deviates.IM <> 0 ->
   length (sequence k d s) = S k /\
   Forall (fun v => clamped v /\ in_open_unit v) (sequence k d s) /\
   sequence k d s = sequence k d' s) /\
  (s mod Deviates.IM = 0 ->
   sequence k d s = repeat (Num 0) (S k) /\
   Forall (fun v => ~ in_open_unit v) (sequence k d s)).
Proof.
  intros Hs.
  pose proof (Z.mod_pos_bound s Deviates.IM ltac:(reflexivity)) as Hm.
  assert (Hl : Deviates.lcg s = Deviates.lcg (s mod Deviates.IM)).
  { rewrite (lcg_modular_wide s) by lia.
    rewrite (lcg_modular_wide (s mod Deviates.IM))
      by (unfold Deviates.IM, Deviates.IQ in *; lia).
    rewrite Z.mul_mod_idemp_r by discriminate. reflexivity. }
  split.
  - intros Hne.
    assert (E : Deviates.seed_table s = Deviates.seed_table (s mod Deviates.IM))
      by (apply seed_table_congruent; [lia | lia | exact Hl]).
    rewrite !(sequence_congruent k _ s (s mod Deviates.IM) E).
    apply seeded_sequence_in_unit_interval. lia.
  - intros Hz.
    assert (E : Deviates.seed_table s = Deviates.seed_table Deviates.IM).
    { apply seed_table_congruent; [lia | discriminate|].
      rewrite Hl, Hz. reflexivity. }
    rewrite (sequence_congruent k d s Deviates.IM E), sequence_at_modulus.
    split; [reflexivity|].
    apply List.Forall_forall. intros v Hv. apply repeat_spec in Hv. subst v.
    intros (q & [= <-] & Hpos & _). exact (Qlt_irrefl 0 Hpos).
Qed.

Lemma uniform_sequence_by_seed_witness :
  sequence 2 Deviates.new 2147483647 = [Num 0; Num 0; Num 0] /\
  Forall (fun v => ~ in_open_unit v) (sequence 2 Deviates.new 2147483647).
Proof.
  apply (proj2 (uniform_sequence_by_seed 2147483647 2 Deviates.new Deviates.new
                  ltac:(unfold Deviates.IQ; lia))).
  reflexivity.
Defined.

(** C8.  A continuing call advances the generator by one step, returns the
    scaled and clamped content of slot 0 and stores the new state in slot 0,
    whatever the instance returned before: [iy] is a local that starts at 0
    on every call.  After [uniform(1, true)], which returned
    893351816 / IM, the Bays-Durham scheme reads slot
    floor(893351816 / NDIV) = 13, holding 197493099; the call
    [uniform(1, false)] returns the content of slot 0, 784558821 / IM. *)
Theorem uniform_continue_reads_slot_zero :
  (forall d start,
     Deviates.uniform d start false =
     (let temp := nmul Deviates.AM
                       (to_number (of_Z <$> Deviates._iv d !! 0)) in
      if ngt temp Deviates.RNMX then Deviates.RNMX else temp,
      Deviates.set_gen d (Deviates.lcg (Deviates._idum d))
        (<[0 := Deviates.lcg (Deviates._idum d)]> (Deviates._iv d)))) /\
  (let '(v, d) := Deviates.uniform Deviates.new 1 true in
   v = Num (893351816 # 2147483647) /\
   index_of (Math_floor (ndiv (of_Z 893351816) Deviates.NDIV)) = Some 13 /\
   Deviates._iv d !! 13 = Some 197493099 /\
   Deviates._iv d !! 0 = Some 784558821 /\
   fst (Deviates.uniform d 1 false) = Num (784558821 # 2147483647)).
Proof.
  split; [exact uniform_continue_eq|].
  vm_compute. repeat split; reflexivity.
Qed.

(** ** Simple linear least squares *)

(** Arrays that are not null but too short or of different lengths give the
    zeroed result. *)
Lemma fit_short_or_mismatched Math_sqrt (xs ys : list number) :
  (length xs < 3)%nat \/ length ys <> length xs ->
  LLSQ.fit Math_sqrt (Some xs) (Some ys) = Return LLSQ.zero.
Proof.
  intros H. unfold LLSQ.fit.
  destruct (Nat.ltb_spec (length xs) 3) as [|Hge]; [reflexivity|].
  destruct H as [H|H]; [lia|].
  destruct (Nat.eqb_spec (length ys) (length xs)); [contradiction|reflexivity].
Qed.

Lemma fit_short_x_null_y Math_sqrt (xs : list number) :
  (length xs < 3)%nat -> LLSQ.fit Math_sqrt (Some xs) None = Return LLSQ.zero.
Proof.
  intros H. unfold LLSQ.fit.
  destruct (Nat.ltb_spec (length xs) 3); [reflexivity|lia].
Qed.

(** C3.  [fit] reads [_x.length] before any test: with a null [_x] the call
    throws whatever [_y] is, and with three points in [_x] and a null [_y]
    it throws on [_y.length]; no zeroed result is returned. *)
Theorem fit_null_array_throws (Math_sqrt : number -> number) :
  (forall _y, LLSQ.fit Math_sqrt None _y = Throw) /\
  LLSQ.fit Math_sqrt None (Some [Num 1; Num 2; Num 3]) = Throw /\
  LLSQ.fit Math_sqrt (Some [Num 1; Num 2; Num 3]) None = Throw.
Proof. repeat split. Qed.

(** C6.  On the points (0,1), (1,3), (2,5), (3,7) the fit returns slope
    [a = 2], intercept [b = 1], [r = 1] and [chi2 = 0], exactly. *)
Theorem fit_recovers_exact_line (Math_sqrt : number -> number) :
  exists res,
    LLSQ.fit Math_sqrt (Some [Num 0; Num 1; Num 2; Num 3])
                       (Some [Num 1; Num 3; Num 5; Num 7]) = Return res /\
    LLSQ.a res = Num 2 /\ LLSQ.b res = Num 1 /\
    LLSQ.r res = Num 1 /\ LLSQ.chi2 res = Num 0.
Proof.
  eexists. split; [reflexivity|].
  repeat split; vm_compute; reflexivity.
Qed.

(** ** Polynomial least squares *)

(** C7.  On a new instance, before any [fit], [eval(x)] is 0 for every
    [x]. *)
Theorem eval_before_fit_is_zero (x : number) :
  Pllsq.eval Pllsq.new x = Num 0.
Proof. reflexivity. Qed.

(** C4 as stated fails: the order 2.7 rounded down is 2, for which four
    points are enough; [fit] rounds it to 3, requires five points and
    returns the empty result on four. *)
Lemma fit_order_not_rounded_down :
  enough_points_as_specified 4 (Num (27 # 10)) = true /\
  Pllsq.fit (fun a => a) (fun _ b => Return b) Pllsq.new
            (Some [Num 0; Num 1; Num 2; Num 3])
            (Some [Num 1; Num 4; Num 9; Num 16]) (Num (27 # 10))
  = (Return Pllsq.empty, Pllsq.new).
Proof. split; vm_compute; reflexivity. Qed.

(** ** Parameters of the derived generators *)

(** With a seed other than 0 the set-up of [gamma] leaves a shape of at
    least 1 and a scale of at least 1e-4. *)
Lemma gamma_setup_in_range Math_sqrt d start alpha beta :
  start <> 0 ->
  let d' := Deviates.gamma_setup Math_sqrt d start alpha beta in
  nle (Num 1) (Deviates._a d') = true /\
  nle (Num (1 # 10000)) (Deviates._b d') = true.
Proof.
  intros Hs. unfold Deviates.gamma_setup.
  destruct (Z.eqb_spec start 0) as [|_]; [contradiction|].
  cbn [negb Deviates.set_gamma Deviates._a Deviates._b]. split.
  - destruct alpha as [| | |q]; try reflexivity.
    cbn [isNaN orb nle].
    destruct (Qle_bool q 0) eqn:E0; [reflexivity|].
    cbn [nlt]. destruct (Qltb q 1) eqn:E1.
    + cbn [nadd fin nle]. apply Qle_bool_iff. rewrite Qred_correct.
      assert (0 < q)%Q.
      { apply Qnot_le_lt. intros H. apply Qle_bool_iff in H. congruence. }
      rewrite <- (Qplus_0_l 1) at 1. apply Qplus_le_l. apply Qlt_le_weak. assumption.
    + cbn [nle]. apply Qle_bool_iff. apply Qltb_ge. exact E1.
  - destruct beta as [| | |q]; try reflexivity.
    cbn [isNaN orb nlt].
    destruct (Qltb q (1 # 10000)) eqn:E; [reflexivity|].
    cbn [nle]. apply Qle_bool_iff. apply Qltb_ge. exact E.
Qed.

(** C9.  With the seed 0 the set-up of [gamma] is skipped, the guard being
    [if (start)]: the deviate is computed from the shape and scale already
    stored, whatever [alpha] and [beta] are.  On a new instance,
    [gamma(0, 0.5, 0.00001, true)] leaves the shape at 1 and the scale at 1,
    where the seed 1001 gives the shape 1.5 and the scale 0.5. *)
Theorem gamma_ignores_parameters_on_zero_seed
    (Math_log Math_sqrt : number -> number) :
  (forall d alpha beta, Deviates.gamma_setup Math_sqrt d 0 alpha beta = d) /\
  (forall fuel d alpha beta alpha' beta' init,
     Deviates.gamma Math_log Math_sqrt fuel d 0 alpha beta init
     = Deviates.gamma Math_log Math_sqrt fuel d 0 alpha' beta' init) /\
  (let d := Deviates.gamma_setup Math_sqrt Deviates.new 0
              (Num (1 # 2)) (Num (1 # 100000)) in
   Deviates._a d = Num 1 /\ Deviates._b d = Num 1) /\
  (let d := Deviates.gamma_setup Math_sqrt Deviates.new 1001
              (Num (1 # 2)) (Num (1 # 100000)) in
   Deviates._a d = Num (3 # 2) /\ Deviates._b d = Num (1 # 2)).
Proof. repeat split. Qed.

Lemma uniform_parameters d start init :
  parameters (snd (Deviates.uniform d start init)) = parameters d.
Proof.
  unfold Deviates.uniform.
  destruct init; [destruct (Deviates.seed_table start)|];
    destruct (index_of _); reflexivity.
Qed.

Section Frames.

Variables Math_log Math_sqrt : number -> number.

Lemma exponential_loop_parameters fuel : forall d start init v d',
  Deviates.exponential_loop fuel d start init = Some (v, d') ->
  parameters d' = parameters d.
Proof.
  induction fuel as [|fuel IH]; intros d start init v d'; simpl; [discriminate|].
  pose proof (uniform_parameters d start init) as Hu.
  destruct (Deviates.uniform d start init) as [tmp e]. simpl in Hu.
  destruct (num_eqb tmp (Num 0)).
  - intros H. apply IH in H. congruence.
  - intros [= _ <-]. exact Hu.
Qed.

Lemma normal_loop_parameters fuel : forall d start init v1 v2 rsq d',
  Deviates.normal_loop fuel d start init = Some (v1, v2, rsq, d') ->
  parameters d' = parameters d.
Proof.
  induction fuel as [|fuel IH]; intros d start init v1 v2 rsq d'; simpl;
    [discriminate|].
  pose proof (uniform_parameters d start init) as Hu1.
  destruct (Deviates.uniform d start init) as [r1 e1]. simpl in Hu1.
  pose proof (uniform_parameters e1 start init) as Hu2.
  destruct (Deviates.uniform e1 start init) as [r2 e2]. simpl in Hu2.
  destruct (_ || _).
  - intros H. apply IH in H. congruence.
  - intros [= _ _ _ <-]. congruence.
Qed.

Lemma logistic_loop_parameters fuel : forall d start init v d',
  Deviates.logistic_loop fuel d start init = Some (v, d') ->
  parameters d' = parameters d.
Proof.
  induction fuel as [|fuel IH]; intros d start init v d'; simpl; [discriminate|].
  pose proof (uniform_parameters d start init) as Hu.
  destruct (Deviates.uniform d start init) as [tmp e]. simpl in Hu.
  destruct (num_eqb _ (Num 0)).
  - intros H. apply IH in H. congruence.
  - intros [= _ <-]. exact Hu.
Qed.

Lemma gamma_inner_parameters fuel : forall d start init x v x' v' d',
  Deviates.gamma_inner fuel d start init x v = Some (x', v', d') ->
  parameters d' = parameters d.
Proof.
  induction fuel as [|fuel IH]; intros d start init x v x' v' d'; simpl.
  - destruct (nle v (Num 0)); [discriminate|]. intros [= _ _ <-]. reflexivity.
  - destruct (nle v (Num 0)); [|intros [= _ _ <-]; reflexivity].
    pose proof (uniform_parameters d start init) as Hu.
    destruct (Deviates.uniform d start init) as [r e]. simpl in Hu.
    intros H. apply IH in H. congruence.
Qed.

Lemma gamma_outer_parameters fuel : forall d start init u v x xSQ v' d',
  Deviates.gamma_outer Math_log fuel d start init u v x xSQ = Some (v', d') ->
  parameters d' = parameters d.
Proof.
  induction fuel as [|fuel IH]; intros d start init u v x xSQ v' d'; simpl.
  - destruct (_ && _); [discriminate|]. intros [= _ <-]. reflexivity.
  - destruct (_ && _); [|intros [= _ <-]; reflexivity].
    destruct (nle v (Num 0)).
    + pose proof (uniform_parameters d start init) as Hu0.
      destruct (Deviates.uniform d start init) as [r0 e0]. simpl in Hu0.
      destruct (Deviates.gamma_inner fuel e0 start init r0 _)
        as [[[x1 v1] e1]|] eqn:Hin; [|discriminate].
      apply gamma_inner_parameters in Hin.
      pose proof (uniform_parameters e1 start init) as Hu.
      destruct (Deviates.uniform e1 start init) as [r e]. simpl in Hu.
      intros H. apply IH in H. congruence.
    + pose proof (uniform_parameters d start init) as Hu.
      destruct (Deviates.uniform d start init) as [r e]. simpl in Hu.
      intros H. apply IH in H. congruence.
Qed.

Lemma store_mean_sd_stored d mu sig :
  let d' := Deviates.store_mean_sd d mu sig true in
  Deviates._u d' = (if isNaN mu || nlt mu (Num 0) then Num 0 else mu) /\
  Deviates._s d' = (if isNaN sig || nlt sig (Num 1) then Num 1 else sig) /\
  Deviates._a d' = Deviates._a d /\ Deviates._b d' = Deviates._b d.
Proof. repeat split. Qed.

Lemma coerced_mean_nonnegative mu :
  nle (Num 0) (if isNaN mu || nlt mu (Num 0) then Num 0 else mu) = true.
Proof.
  destruct mu as [| | |q]; try reflexivity.
  cbn [isNaN orb nlt]. destruct (Qltb q 0) eqn:E; [reflexivity|].
  cbn [nle]. apply Qle_bool_iff, Qltb_ge, E.
Qed.

Lemma coerced_sd_at_least_one sig :
  nle (Num 1) (if isNaN sig || nlt sig (Num 1) then Num 1 else sig) = true.
Proof.
  destruct sig as [| | |q]; try reflexivity.
  cbn [isNaN orb nlt]. destruct (Qltb q 1) eqn:E; [reflexivity|].
  cbn [nle]. apply Qle_bool_iff, Qltb_ge, E.
Qed.

Lemma store_mean_sd_in_range d mu sig init :
  parameters_in_range d ->
  parameters_in_range (Deviates.store_mean_sd d mu sig init).
Proof.
  intros (Hu & Hs & Ha & Hb). destruct init; [|repeat split; assumption].
  split; [apply coerced_mean_nonnegative|].
  split; [apply coerced_sd_at_least_one|]. split; assumption.
Qed.

Lemma parameters_in_range_eq d d' :
  parameters d' = parameters d -> parameters_in_range d ->
  parameters_in_range d'.
Proof.
  unfold parameters, parameters_in_range. intros [= -> -> -> ->]. auto.
Qed.

Lemma gamma_setup_keeps_range d start alpha beta :
  parameters_in_range d ->
  parameters_in_range (Deviates.gamma_setup Math_sqrt d start alpha beta).
Proof.
  intros H. destruct (Z.eq_dec start 0) as [->|Hne]; [exact H|].
  destruct (gamma_setup_in_range Math_sqrt d start alpha beta Hne) as [Ha Hb].
  destruct H as (Hu & Hs & _ & _).
  split; [|split; [|split; assumption]].
  - unfold Deviates.gamma_setup. destruct (negb _); exact Hu.
  - unfold Deviates.gamma_setup. destruct (negb _); exact Hs.
Qed.

Lemma normal_stores fuel d start mu sig init v d' :
  Deviates.normal Math_log Math_sqrt fuel d start mu sig init = Some (v, d') ->
  parameters d' = parameters (Deviates.store_mean_sd d mu sig init).
Proof.
  unfold Deviates.normal.
  destruct (num_eqb _ _).
  - destruct (Deviates.normal_loop _ _ _ _) as [[[[v1 v2] rsq] e]|] eqn:Hl;
      [|discriminate].
    apply normal_loop_parameters in Hl. intros [= _ <-]. exact Hl.
  - intros [= _ <-]. reflexivity.
Qed.

Lemma logistic_stores fuel d start mu sig init v d' :
  Deviates.logistic Math_log fuel d start mu sig init = Some (v, d') ->
  parameters d' = parameters (Deviates.store_mean_sd d mu sig init).
Proof.
  unfold Deviates.logistic.
  destruct (Deviates.logistic_loop _ _ _ _) as [[v1 e]|] eqn:Hl; [|discriminate].
  apply logistic_loop_parameters in Hl. intros [= _ <-]. exact Hl.
Qed.

Lemma run_keeps_range fuel c d v d' :
  Deviates.run Math_log Math_sqrt fuel c d = Some (v, d') ->
  parameters_in_range d -> parameters_in_range d'.
Proof.
  destruct c as [start init|start init|start mu sig init
                 |start alpha beta init|start mu sig init]; simpl; intros H Hd.
  - injection H as H. apply (f_equal snd) in H. simpl in H. subst d'.
    eapply parameters_in_range_eq; [apply uniform_parameters | exact Hd].
  - unfold Deviates.exponential in H.
    destruct (Deviates.exponential_loop _ _ _ _) as [[tmp e]|] eqn:Hl;
      [|discriminate].
    injection H as _ <-. apply exponential_loop_parameters in Hl.
    eapply parameters_in_range_eq; eassumption.
  - apply normal_stores in H.
    eapply parameters_in_range_eq; [exact H|].
    apply store_mean_sd_in_range, Hd.
  - unfold Deviates.gamma in H.
    destruct (Deviates.gamma_outer _ _ _ _ _ _ _ _ _) as [[v1 e]|] eqn:Hl;
      [|discriminate].
    injection H as _ <-. apply gamma_outer_parameters in Hl.
    eapply parameters_in_range_eq; [exact Hl|].
    apply gamma_setup_keeps_range, Hd.
  - apply logistic_stores in H.
    eapply parameters_in_range_eq; [exact H|].
    apply store_mean_sd_in_range, Hd.
Qed.

Lemma reachable_in_range d :
  Deviates.reachable Math_log Math_sqrt d -> parameters_in_range d.
Proof.
  induction 1 as [|d fuel c v d' _ IH Hrun].
  - repeat split.
  - exact (run_keeps_range fuel c d v d' Hrun IH).
Qed.

End Frames.



(** ** Resampling *)

Lemma index_of_of_Z i : index_of (of_Z i) = Some i.
Proof.
  unfold index_of, of_Z. rewrite Qfloor_Z, Qeq_bool_refl. reflexivity.
Qed.

Lemma Qred_inject_Z z : Qred (inject_Z z) = inject_Z z.
Proof.
  unfold Qred, inject_Z.
  pose proof (Z.ggcd_gcd z 1) as Hg.
  pose proof (Z.ggcd_correct_divisors z 1) as Hd.
  destruct (Z.ggcd z 1) as [g [r1 r2]]. simpl in *.
  rewrite Z.gcd_1_r in Hg. subst g. destruct Hd as [H1 H2].
  rewrite Z.mul_1_l in H1, H2. subst z r2. reflexivity.
Qed.

Lemma Math_floor_of_Z z : Math_floor (of_Z z) = of_Z z.
Proof. unfold Math_floor, of_Z. rewrite Qfloor_Z. reflexivity. Qed.

Lemma Math_abs_of_Z z : 0 <= z -> Math_abs (of_Z z) = of_Z z.
Proof.
  intros Hz. unfold Math_abs, of_Z, fin, Qabs, inject_Z.
  rewrite Z.abs_eq by exact Hz. f_equal. apply Qred_inject_Z.
Qed.

Lemma to_index_valid r n :
  (1 <= n)%nat -> clamped r -> valid_index n (Bagging.to_index r n).
Proof.
  intros Hn (q & -> & Hpos & Hle).
  unfold Bagging.to_index, Bagging.to_index_signed, Math_abs_signed,
    Math_floor_signed, Math_round_signed.
  cbn [magnitude].
  set (N := inject_Z (Z.of_nat n)).
  set (W := (N - (2 # 1000))%Q).
  assert (Hx : exists x,
             nadd Bagging.min
                  (nmul (Num q) (nsub (Bagging.max n) Bagging.min)) = Num x /\
             (x + (1 # 2) == (1 # 1000) + q * W)%Q).
  { eexists. split; [reflexivity|].
    rewrite !Qred_correct. subst W N. ring. }
  destruct Hx as (x & -> & HX).
  unfold Math_round. rewrite Math_floor_of_Z.
  set (X := (x + (1 # 2))%Q) in *.
  assert (HN : (1 <= N)%Q).
  { subst N. change 1%Q with (inject_Z 1). rewrite <- Zle_Qle. lia. }
  assert (HW : (0 < W)%Q) by (subst W; lra).
  assert (Hq1 : (q < 1)%Q) by (eapply Qle_lt_trans; [exact Hle | reflexivity]).
  pose proof (Qmult_lt_0_compat q W Hpos HW) as Hlo.
  pose proof (Qmult_lt_compat_r q 1 W HW Hq1) as Hhi.
  assert (H0 : (0 <= X)%Q) by (rewrite HX; lra).
  assert (H1 : (X < N)%Q) by (rewrite HX; subst W; lra).
  assert (Hz0 : 0 <= Qfloor X) by (apply (Qfloor_resp_le 0 X H0)).
  assert (Hz1 : Qfloor X < Z.of_nat n).
  { rewrite Zlt_Qlt. eapply Qle_lt_trans; [apply Qfloor_le | exact H1]. }
  rewrite Math_abs_of_Z by exact Hz0.
  exists (Qfloor X). split; [reflexivity | lia].
Qed.

Lemma draw_index_valid d n :
  (1 <= n)%nat -> seeded_state d ->
  valid_index n (fst (Bagging.draw_index d n)) /\
  seeded_state (snd (Bagging.draw_index d n)).
Proof.
  intros Hn Hd. unfold Bagging.draw_index.
  destruct (uniform_continue_seeded d 1001 Hd) as [Hr Hd'].
  destruct (Deviates.uniform d 1001 false) as [r e]. simpl in *.
  split; [apply to_index_valid; assumption | exact Hd'].
Qed.

Opaque Deviates.uniform Bagging.draw_index.

Lemma draw_indices_valid count : forall d n,
  (1 <= n)%nat -> seeded_state d ->
  let res := Bagging.draw_indices count d n in
  length (fst res) = count /\ Forall (valid_index n) (fst res) /\
  seeded_state (snd res).
Proof.
  induction count as [|count IH]; intros d n Hn Hd; simpl.
  - split; [reflexivity | split; [constructor | exact Hd]].
  - destruct (draw_index_valid d n Hn Hd) as [Hi Hd'].
    destruct (Bagging.draw_index d n) as [index e]. simpl in *.
    specialize (IH e n Hn Hd').
    destruct (Bagging.draw_indices count e n) as [rest e']. simpl in *.
    destruct IH as (Hlen & Hall & Hs).
    split; [congruence | split; [constructor; assumption | exact Hs]].
Qed.

Lemma draw_sets_valid sets : forall d n,
  (1 <= n)%nat -> seeded_state d ->
  let res := Bagging.draw_sets sets d n in
  length (fst res) = sets /\
  Forall (fun set => length set = n /\ Forall (valid_index n) set) (fst res) /\
  seeded_state (snd res).
Proof.
  induction sets as [|sets IH]; intros d n Hn Hd; simpl.
  - split; [reflexivity | split; [constructor | exact Hd]].
  - destruct (draw_indices_valid n d n Hn Hd) as (Hlen & Hall & Hd').
    destruct (Bagging.draw_indices n d n) as [set e]. simpl in *.
    specialize (IH e n Hn Hd').
    destruct (Bagging.draw_sets sets e n) as [rest e']. simpl in *.
    destruct IH as (Hl & Hf & Hs).
    split; [congruence | split; [constructor; auto | exact Hs]].
Qed.

Transparent Deviates.uniform Bagging.draw_index.

Lemma seed_1001_seeded d :
  seeded_state (snd (Deviates.uniform d 1001 true)).
Proof. apply uniform_init_seeded. unfold Deviates.IM. lia. Qed.

Lemma indices_with_replacement_valid d n numSets sets d' :
  (1 <= n)%nat ->
  Bagging.indices_with_replacement d n numSets = Some (sets, d') ->
  Forall (fun set => length set = n /\ Forall (valid_index n) set) sets.
Proof.
  intros Hn. unfold Bagging.indices_with_replacement.
  pose proof (seed_1001_seeded d) as Hd.
  destruct (Deviates.uniform d 1001 true) as [r e]. simpl in Hd.
  destruct (for_count numSets) as [count|]; [|discriminate].
  intros [= H]. destruct (draw_sets_valid count e n Hn Hd) as (_ & Hall & _).
  rewrite H in Hall. exact Hall.
Qed.

Lemma indices_with_replacement_returns d n numSets :
  numSets <> PInf ->
  is_Some (Bagging.indices_with_replacement d n numSets).
Proof.
  intros Hne. unfold Bagging.indices_with_replacement.
  destruct (Deviates.uniform d 1001 true) as [r e].
  destruct numSets; simpl; eauto. contradiction.
Qed.

Opaque Deviates.uniform Bagging.draw_index.

Lemma same_key_refl a : same_key a a = true.
Proof. destruct a; try reflexivity. apply Qeq_bool_refl. Qed.

Lemma not_sampled index sampledIndices :
  existsb (same_key index) sampledIndices = false -> ~ In index sampledIndices.
Proof.
  intros H Hin.
  assert (Ht : existsb (same_key index) sampledIndices = true).
  { apply existsb_exists. exists index. split; [exact Hin | apply same_key_refl]. }
  congruence.
Qed.

(** The loop of the variants without replacement: when it ends, the indices
    pushed are valid and pairwise distinct, their number is not below [m],
    and was below [m] before the last push. *)
Lemma draw_distinct_spec fuel : forall d n m tmp sampledIndices out d',
  (1 <= n)%nat -> seeded_state d ->
  Forall (valid_index n) tmp -> NoDup tmp ->
  (forall a, In a tmp -> In a sampledIndices) ->
  Bagging.draw_distinct fuel d n m tmp sampledIndices = Some (out, d') ->
  Forall (valid_index n) out /\ NoDup out /\ seeded_state d' /\
  nlt (of_nat (length out)) m = false /\
  (out = tmp \/ nlt (of_nat (length out - 1)) m = true).
Proof.
  induction fuel as [|fuel IH];
    intros d n m tmp sampled out d' Hn Hd Hval Hnd Hincl;
    cbn [Bagging.draw_distinct].
  - destruct (nlt (of_nat (length tmp)) m) eqn:Hlt; [discriminate|].
    intros [= <- <-]. auto 6.
  - destruct (nlt (of_nat (length tmp)) m) eqn:Hlt;
      [|intros [= <- <-]; auto 6].
    destruct (draw_index_valid d n Hn Hd) as [Hi Hd'].
    destruct (Bagging.draw_index d n) as [index e]. simpl in Hi, Hd'.
    destruct (existsb (same_key index) sampled) eqn:Hex.
    + apply IH; assumption.
    + intros H.
      assert (Hfresh : ~ In index tmp).
      { intros Hin. apply (not_sampled _ _ Hex), Hincl, Hin. }
      apply IH in H; try assumption.
      * destruct H as (H1 & H2 & H3 & H4 & H5).
        split; [exact H1|]. split; [exact H2|]. split; [exact H3|].
        split; [exact H4|]. right. destruct H5 as [->|H5]; [|exact H5].
        rewrite length_app. simpl.
        replace (length tmp + 1 - 1)%nat with (length tmp) by lia. exact Hlt.
      * apply Forall_app. split; [exact Hval | constructor; [exact Hi | constructor]].
      * apply NoDup_app. split; [exact Hnd|].
        split; [|apply NoDup_singleton].
        intros a Ha Ha'. apply list_elem_of_In in Ha.
        apply list_elem_of_singleton in Ha'. subst a. contradiction.
      * intros a Ha. apply in_app_or in Ha. destruct Ha as [Ha|[<-|[]]].
        -- right. apply Hincl, Ha.
        -- left. reflexivity.
Qed.

Lemma draw_distinct_sets_spec sets : forall fuel d n m out d',
  (1 <= n)%nat -> seeded_state d ->
  Bagging.draw_distinct_sets sets fuel d n m = Some (out, d') ->
  length out = sets /\
  Forall (fun set => Forall (valid_index n) set /\ NoDup set /\
                     nlt (of_nat (length set)) m = false /\
                     (set = [] \/ nlt (of_nat (length set - 1)) m = true)) out /\
  seeded_state d'.
Proof.
  induction sets as [|sets IH]; intros fuel d n m out d' Hn Hd;
    cbn [Bagging.draw_distinct_sets].
  - intros [= <- <-]. split; [reflexivity | split; [constructor | exact Hd]].
  - destruct (Bagging.draw_distinct fuel d n m [] []) as [[set e]|] eqn:Hset;
      [|discriminate].
    apply draw_distinct_spec in Hset;
      [|assumption|assumption|constructor|apply NoDup_nil_2|intros a []].
    destruct Hset as (H1 & H2 & H3 & H4 & H5).
    destruct (Bagging.draw_distinct_sets sets fuel e n m) as [[rest e']|] eqn:Hrest;
      [|discriminate].
    apply IH in Hrest; [|assumption|assumption].
    destruct Hrest as (Hl & Hf & Hs).
    intros [= <- <-]. split; [simpl; congruence|].
    split; [constructor; auto | exact Hs].
Qed.

Lemma indices_without_replacement_spec fuel d n m numSets sets d' :
  (1 <= n)%nat ->
  Bagging.indices_without_replacement fuel d n m numSets = Some (sets, d') ->
  Forall (fun set => Forall (valid_index n) set /\ NoDup set /\
                     nlt (of_nat (length set)) m = false /\
                     (set = [] \/ nlt (of_nat (length set - 1)) m = true)) sets.
Proof.
  intros Hn. unfold Bagging.indices_without_replacement.
  pose proof (seed_1001_seeded d) as Hd.
  destruct (Deviates.uniform d 1001 true) as [r e]. simpl in Hd.
  destruct (for_count numSets) as [count|]; [|discriminate].
  intros H. apply draw_distinct_sets_spec in H; [|assumption|assumption].
  apply H.
Qed.

Lemma array_get_valid (data : list number) a :
  valid_index (length data) a -> copy_of data (array_get data a).
Proof.
  intros (i & -> & Hi). unfold array_get. rewrite index_of_of_Z.
  destruct (Z.ltb_spec i 0) as [|_]; [lia|].
  destruct (lookup_lt_is_Some_2 data (Z.to_nat i) ltac:(lia)) as [v Hv].
  exists v. split; [exact Hv|].
  apply list_elem_of_In, list_elem_of_lookup. eauto.
Qed.

Lemma pick_copies (data : list number) set :
  Forall (valid_index (length data)) set ->
  length (Bagging.pick data set) = length set /\
  Forall (copy_of data) (Bagging.pick data set).
Proof.
  intros H. unfold Bagging.pick. split; [apply length_map|].
  induction H as [|a set Ha _ IH]; [constructor|].
  constructor; [apply array_get_valid, Ha | exact IH].
Qed.

Lemma round_not_infinite s : s <> PInf -> Math_round s <> PInf.
Proof. destruct s; unfold Math_round, of_Z; congruence. Qed.

Transparent Deviates.uniform Bagging.draw_index.

(** Before [Math.abs] the index is -0 for every deviate small enough for
    the rounded value to lie in (-0.5, 0). *)
Lemma index_negative_zero (q : Q) (n : nat) :
  (1 <= n)%nat -> (0 < q)%Q ->
  (q * (inject_Z (Z.of_nat n) - (2 # 1000)) < 499 # 1000)%Q ->
  Math_floor_signed
    (Math_round_signed
       (nadd Bagging.min (nmul (Num q) (nsub (Bagging.max n) Bagging.min))))
  = {| magnitude := Num 0; negative_zero := true |}.
Proof.
  intros Hn Hq Hsmall.
  set (W := (inject_Z (Z.of_nat n) - (2 # 1000))%Q) in *.
  assert (Hx : exists x,
             nadd Bagging.min
                  (nmul (Num q) (nsub (Bagging.max n) Bagging.min)) = Num x /\
             (x + (1 # 2) == (1 # 1000) + q * W)%Q).
  { eexists. split; [reflexivity|].
    rewrite !Qred_correct. subst W. ring. }
  destruct Hx as (x & -> & HX).
  assert (HN : (1 <= inject_Z (Z.of_nat n))%Q).
  { change 1%Q with (inject_Z 1). rewrite <- Zle_Qle. lia. }
  assert (HW : (0 < q * W)%Q).
  { apply Qmult_lt_0_compat; [exact Hq | subst W; lra]. }
  unfold Math_floor_signed, Math_round_signed, Math_round.
  cbn [magnitude negative_zero].
  assert (Hf : Qfloor (x + (1 # 2)) = 0).
  { assert (H0 : 0 <= Qfloor (x + (1 # 2)))
      by (apply (Qfloor_resp_le 0); lra).
    assert (H1 : Qfloor (x + (1 # 2)) < 1).
    { rewrite Zlt_Qlt. eapply Qle_lt_trans; [apply Qfloor_le|].
      change (inject_Z 1) with 1%Q. lra. }
    lia. }
  rewrite Hf. f_equal.
  apply andb_true_intro. split.
  - apply Qle_bool_iff. lra.
  - apply Qltb_lt. lra.
Qed.

(** C2.  On a source of [n >= 1] observations, every index the four
    operations draw (lines 74-77, 127-130, 184-187, 245-248), from the
    generator they have seeded, is an integer of [0, n-1] and is +0 when it
    is zero: [Math.round] does give -0 for the small deviates, and
    [Math.abs] removes its sign.  Hence every element of every set the four
    operations return is one of the observations, never [undefined]; with
    replacement each set has exactly [n] elements, and those two calls
    return when [numSets] is omitted or at most 2^53. *)
Theorem resampled_indices_in_range (xs ys : list number)
    (m numSets : option number) (fuel : nat) (d : Deviates.state) :
  xs <> [] ->
  let n := length xs in
  (forall e, seeded_state e ->
     exists i, 0 <= i < Z.of_nat n /\
       Bagging.to_index_signed (fst (Deviates.uniform e 1001 false)) n
       = {| magnitude := of_Z i; negative_zero := false |} /\
       fst (Bagging.draw_index e n) = of_Z i) /\
  (forall q, (0 < q)%Q ->
     (q * (inject_Z (Z.of_nat n) - (2 # 1000)) < 499 # 1000)%Q ->
     Math_floor_signed
       (Math_round_signed
          (nadd Bagging.min (nmul (Num q) (nsub (Bagging.max n) Bagging.min))))
     = {| magnitude := Num 0; negative_zero := true |}) /\
  (forall sets_wanted sets d',
     Bagging.indices_with_replacement d n sets_wanted = Some (sets, d') ->
     Forall (fun set => length set = n /\ Forall (valid_index n) set) sets) /\
  (forall size sets_wanted sets d',
     Bagging.indices_without_replacement fuel d n size sets_wanted
     = Some (sets, d') ->
     Forall (Forall (valid_index n)) sets) /\
  (forall out d',
     Bagging.get1DSamplesWithReplacement d (Some xs) numSets = Some (out, d') ->
     Forall (fun o => length o = n /\ Forall (copy_of xs) o) out) /\
  (forall out d',
     Bagging.get2DSamplesWithReplacement d (Some xs) (Some ys) numSets
     = Some (out, d') ->
     Forall (fun o => length (Bagging.x o) = n /\ length (Bagging.y o) = n /\
                      Forall (copy_of xs) (Bagging.x o) /\
                      Forall (copy_of ys) (Bagging.y o)) out) /\
  (forall out d',
     Bagging.get1DSamplesWithoutReplacement fuel d (Some xs) m numSets
     = Some (out, d') ->
     Forall (Forall (copy_of xs)) out) /\
  (forall out d',
     Bagging.get2DSamplesWithoutReplacement fuel d (Some xs) (Some ys) m numSets
     = Some (out, d') ->
     Forall (fun o => Forall (copy_of xs) (Bagging.x o) /\
                      Forall (copy_of ys) (Bagging.y o)) out) /\
  ((forall s, numSets = Some s -> nle s (Num 9007199254740992) = true) ->
   is_Some (Bagging.get1DSamplesWithReplacement d (Some xs) numSets) /\
   is_Some (Bagging.get2DSamplesWithReplacement d (Some xs) (Some ys) numSets)).
Proof.
  intros Hne n.
  assert (Hn : (1 <= n)%nat).
  { subst n. destruct xs; [contradiction | simpl; lia]. }
  split; [|split; [|split; [|split; [|split; [|split; [|split; [|split]]]]]]].
  - intros e He.
    destruct (uniform_continue_seeded e 1001 He) as [Hr _].
    destruct (to_index_valid _ n Hn Hr) as (i & Hi & Hrange).
    exists i. split; [exact Hrange|].
    assert (E : fst (Bagging.draw_index e n)
                = Bagging.to_index (fst (Deviates.uniform e 1001 false)) n).
    { unfold Bagging.draw_index.
      destruct (Deviates.uniform e 1001 false); reflexivity. }
    split; [|rewrite E; exact Hi].
    unfold Bagging.to_index in Hi.
    destruct (Bagging.to_index_signed _ n) as [mag sign] eqn:Es.
    cbn [magnitude] in Hi. subst mag. f_equal.
    apply (f_equal negative_zero) in Es. exact (eq_sym Es).
  - intros q Hq Hsmall. apply index_negative_zero; assumption.
  - intros k sets d' E.
    exact (indices_with_replacement_valid d n k sets d' Hn E).
  - intros size k sets d' E.
    apply indices_without_replacement_spec in E; [|exact Hn].
    eapply Forall_impl; [exact E|]. intros set H. apply H.
  - intros out d'. unfold Bagging.get1DSamplesWithReplacement.
    destruct xs as [|x0 xs']; [contradiction|]. fold n.
    destruct (Bagging.indices_with_replacement d n _) as [[sets e]|] eqn:E;
      [|discriminate].
    intros [= <- <-].
    apply indices_with_replacement_valid in E; [|exact Hn].
    apply Forall_map. eapply Forall_impl; [exact E|].
    intros set [Hl Hv]. destruct (pick_copies (x0 :: xs') set Hv) as [Hl' Hc].
    split; [congruence | exact Hc].
  - intros out d'. unfold Bagging.get2DSamplesWithReplacement.
    destruct xs as [|x0 xs']; [contradiction|]. fold n.
    destruct (Nat.eqb_spec (length ys) n) as [Hlen|_]; cbn [negb].
    2: { intros [= <- <-]. constructor. }
    destruct (Bagging.indices_with_replacement d n _) as [[sets e]|] eqn:E;
      [|discriminate].
    intros [= <- <-].
    apply indices_with_replacement_valid in E; [|exact Hn].
    apply Forall_map. eapply Forall_impl; [exact E|].
    intros set [Hl Hv]. unfold Bagging.pick2. cbn [Bagging.x Bagging.y].
    destruct (pick_copies (x0 :: xs') set Hv) as [Hlx Hcx].
    assert (Hv' : Forall (valid_index (length ys)) set) by (rewrite Hlen; exact Hv).
    destruct (pick_copies ys set Hv') as [Hly Hcy].
    repeat split; try congruence; assumption.
  - intros out d'. unfold Bagging.get1DSamplesWithoutReplacement.
    destruct xs as [|x0 xs']; [contradiction|]. fold n.
    destruct (Bagging.indices_without_replacement fuel d n _ _)
      as [[sets e]|] eqn:E; [|discriminate].
    intros [= <- <-].
    apply indices_without_replacement_spec in E; [|exact Hn].
    apply Forall_map. eapply Forall_impl; [exact E|].
    intros set (Hv & _). apply (pick_copies (x0 :: xs') set Hv).
  - intros out d'. unfold Bagging.get2DSamplesWithoutReplacement.
    destruct xs as [|x0 xs']; [contradiction|]. fold n.
    destruct (Nat.eqb_spec (length ys) n) as [Hlen|_]; cbn [negb].
    2: { intros [= <- <-]. constructor. }
    destruct (Bagging.indices_without_replacement fuel d n _ _)
      as [[sets e]|] eqn:E; [|discriminate].
    intros [= <- <-].
    apply indices_without_replacement_spec in E; [|exact Hn].
    apply Forall_map. eapply Forall_impl; [exact E|].
    intros set (Hv & _). unfold Bagging.pick2. cbn [Bagging.x Bagging.y].
    assert (Hv' : Forall (valid_index (length ys)) set) by (rewrite Hlen; exact Hv).
    split; [apply (pick_copies (x0 :: xs') set Hv) | apply (pick_copies ys set Hv')].
  - intros Hbound.
    assert (Hfin : numSets <> Some PInf).
    { intros ->. specialize (Hbound PInf eq_refl). discriminate Hbound. }
    assert (Hk : forall k, k <> PInf ->
                 exists r, Bagging.indices_with_replacement d n k = Some r).
    { intros k Hk. apply indices_with_replacement_returns, Hk. }
    unfold Bagging.get1DSamplesWithReplacement,
      Bagging.get2DSamplesWithReplacement.
    destruct xs as [|x0 xs']; [contradiction|]. fold n.
    split.
    + destruct numSets as [s|].
      * destruct (nlt s (Num 1)).
        -- destruct (Hk (of_nat n)) as [[sets e] ->]; [discriminate | eauto].
        -- destruct (Hk (Math_round s)) as [[sets e] ->]; [|eauto].
           apply round_not_infinite. congruence.
      * destruct (Hk (of_nat n)) as [[sets e] ->]; [discriminate | eauto].
    + destruct (negb (length ys =? n)%nat); [eauto|].
      destruct numSets as [s|].
      * destruct (isNaN s || nlt s (Num 1)).
        -- destruct (Hk (of_nat n)) as [[sets e] ->]; [discriminate | eauto].
        -- destruct (Hk (Math_round s)) as [[sets e] ->]; [|eauto].
           apply round_not_infinite. congruence.
      * destruct (Hk (of_nat n)) as [[sets e] ->]; [discriminate | eauto].
Qed.

Lemma resampled_indices_in_range_witness :
  let xs := [Num 10; Num 20; Num 30] in
  let ys := [Num 1; Num 2; Num 3] in
  xs <> [] /\
  (exists out d',
     Bagging.get1DSamplesWithReplacement Deviates.new (Some xs) (Some (Num 2))
     = Some (out, d') /\
     Forall (fun o => length o = 3%nat /\ Forall (copy_of xs) o) out) /\
  (exists out d',
     Bagging.get2DSamplesWithReplacement Deviates.new (Some xs) (Some ys)
       (Some (Num 2)) = Some (out, d') /\
     Forall (fun o => length (Bagging.x o) = 3%nat /\
                      length (Bagging.y o) = 3%nat /\
                      Forall (copy_of xs) (Bagging.x o) /\
                      Forall (copy_of ys) (Bagging.y o)) out) /\
  (exists out d',
     Bagging.get1DSamplesWithoutReplacement 50 Deviates.new (Some xs)
       (Some (Num 2)) (Some (Num 2)) = Some (out, d') /\
     Forall (Forall (copy_of xs)) out) /\
  (exists out d',
     Bagging.get2DSamplesWithoutReplacement 50 Deviates.new (Some xs) (Some ys)
       (Some (Num 2)) (Some (Num 2)) = Some (out, d') /\
     Forall (fun o => Forall (copy_of xs) (Bagging.x o) /\
                      Forall (copy_of ys) (Bagging.y o)) out).
Proof.
  intros xs ys.
  assert (Hne : xs <> []) by discriminate.
  destruct (resampled_indices_in_range xs ys (Some (Num 2)) (Some (Num 2))
              50%nat Deviates.new Hne)
    as (_ & _ & _ & _ & H1 & H2 & H3 & H4 & Hret).
  destruct (Hret ltac:(intros s [= <-]; reflexivity)) as [[r1 E1] [r2 E2]].
  split; [exact Hne|]. split; [|split; [|split]].
  - destruct r1 as [out d']. exists out, d'. split; [exact E1|].
    exact (H1 out d' E1).
  - destruct r2 as [out d']. exists out, d'. split; [exact E2|].
    exact (H2 out d' E2).
  - destruct (Bagging.get1DSamplesWithoutReplacement 50 Deviates.new (Some xs)
                (Some (Num 2)) (Some (Num 2))) as [[out d']|] eqn:E.
    + exists out, d'. split; [reflexivity|]. exact (H3 out d' eq_refl).
    + vm_compute in E. discriminate E.
  - destruct (Bagging.get2DSamplesWithoutReplacement 50 Deviates.new (Some xs)
                (Some ys) (Some (Num 2)) (Some (Num 2))) as [[out d']|] eqn:E.
    + exists out, d'. split; [reflexivity|]. exact (H4 out d' eq_refl).
    + vm_compute in E. discriminate E.
Defined.

Opaque Deviates.uniform Bagging.draw_index.

(** The size a call without replacement on [n] observations works with,
    when it is an integer of [0, n]: each set then has exactly that many
    elements. *)
Lemma exact_size (k : Z) (set : list number) :
  0 <= k ->
  nlt (of_nat (length set)) (of_Z k) = false ->
  set = [] \/ nlt (of_nat (length set - 1)) (of_Z k) = true ->
  Z.of_nat (length set) = k.
Proof.
  unfold nlt, of_nat, of_Z. intros Hk Hge Hlt.
  apply Qltb_ge in Hge. rewrite <- Zle_Qle in Hge.
  destruct Hlt as [->|Hlt].
  - simpl in *. lia.
  - apply Qltb_lt in Hlt. rewrite <- Zlt_Qlt in Hlt. lia.
Qed.

Lemma half_integer n : exists k, Bagging.half n = of_Z k /\ 0 <= k.
Proof.
  unfold Bagging.half, of_nat, of_Z, ndiv.
  change (Qeq_bool 2 0) with false. cbv iota. unfold fin, Math_floor.
  eexists. split; [reflexivity|].
  rewrite Qred_correct.
  apply (Qfloor_resp_le 0).
  unfold Qle, Qdiv, Qmult, Qinv, inject_Z. simpl. lia.
Qed.

Lemma round_integer m :
  isNaN m || nlt m (Num 1) = false -> m <> PInf ->
  exists k, Math_round m = of_Z k /\ 0 <= k.
Proof.
  destruct m as [| | |q]; try discriminate; [congruence|].
  cbn [isNaN orb nlt]. intros Hq _. apply Qltb_ge in Hq.
  eexists. split; [reflexivity|].
  apply (Qfloor_resp_le 0). lra.
Qed.

(** On one array, a call without replacement that returns gives sets of
    exactly the rounded sample size ([floor(n/2)] when [m] is omitted, NaN,
    below 1 or above [n]), drawn at pairwise distinct valid indices. *)
Lemma subsample_1D_distinct fuel d (xs : list number) m numSets out d' :
  xs <> [] ->
  Bagging.get1DSamplesWithoutReplacement fuel d (Some xs) m numSets
  = Some (out, d') ->
  exists sets k,
    out = map (Bagging.pick xs) sets /\
    of_Z k = match m with
             | None => Bagging.half (length xs)
             | Some m =>
                 if isNaN m || nlt m (Num 1) || ngt m (of_nat (length xs))
                 then Bagging.half (length xs) else Math_round m
             end /\
    Forall (fun set => Z.of_nat (length set) = k /\ NoDup set /\
                       Forall (valid_index (length xs)) set) sets.
Proof.
  intros Hne. unfold Bagging.get1DSamplesWithoutReplacement.
  destruct xs as [|x0 xs']; [contradiction|].
  set (n := length (x0 :: xs')).
  assert (Hn : (1 <= n)%nat) by (subst n; simpl; lia).
  set (size := match m with
               | None => Bagging.half n
               | Some m0 =>
                   if isNaN m0 || nlt m0 (Num 1) || ngt m0 (of_nat n)
                   then Bagging.half n else Math_round m0
               end).
  assert (Hsize : exists k, size = of_Z k /\ 0 <= k).
  { subst size. destruct m as [m0|]; [|apply half_integer].
    destruct (isNaN m0 || nlt m0 (Num 1) || ngt m0 (of_nat n)) eqn:E;
      [apply half_integer|].
    apply orb_false_iff in E. destruct E as [E1 E2].
    apply round_integer; [exact E1|]. intros ->. discriminate E2. }
  destruct Hsize as (k & Hk & Hk0).
  destruct (Bagging.indices_without_replacement fuel d n size _)
    as [[sets e]|] eqn:E; [|discriminate].
  intros [= <- <-]. exists sets, k. split; [reflexivity|].
  split; [symmetry; exact Hk|].
  apply indices_without_replacement_spec in E; [|exact Hn].
  eapply Forall_impl; [exact E|].
  intros set (Hv & Hnd & Hge & Hlt). rewrite Hk in Hge, Hlt.
  split; [apply exact_size; assumption | split; assumption].
Qed.

(** On pairs the same holds when the sample size is omitted or is an
    integer. *)
Lemma subsample_2D_distinct fuel d (xs ys : list number) m numSets out d' :
  xs <> [] -> length ys = length xs ->
  m = None \/ (exists z, m = Some (of_Z z)) ->
  Bagging.get2DSamplesWithoutReplacement fuel d (Some xs) (Some ys) m numSets
  = Some (out, d') ->
  exists sets k,
    out = map (Bagging.pick2 xs ys) sets /\
    of_Z k = match m with
             | None => Bagging.half (length xs)
             | Some m =>
                 if nlt m (Num 1) || ngt m (of_nat (length xs))
                 then Bagging.half (length xs) else m
             end /\
    Forall (fun set => Z.of_nat (length set) = k /\ NoDup set /\
                       Forall (valid_index (length xs)) set) sets.
Proof.
  intros Hne Hlen Hm. unfold Bagging.get2DSamplesWithoutReplacement.
  destruct xs as [|x0 xs']; [contradiction|].
  set (n := length (x0 :: xs')) in *.
  assert (Hn : (1 <= n)%nat) by (subst n; simpl; lia).
  destruct (Nat.eqb_spec (length ys) n) as [_|]; [|contradiction].
  cbn [negb].
  set (size := match m with
               | None => Bagging.half n
               | Some m0 =>
                   if nlt m0 (Num 1) || ngt m0 (of_nat n)
                   then Bagging.half n else m0
               end).
  assert (Hsize : exists k, size = of_Z k /\ 0 <= k).
  { subst size. destruct Hm as [->|[z ->]]; [apply half_integer|].
    destruct (nlt (of_Z z) (Num 1) || ngt (of_Z z) (of_nat n)) eqn:E;
      [apply half_integer|].
    apply orb_false_iff in E. destruct E as [E1 _].
    exists z. split; [reflexivity|].
    unfold nlt, of_Z in E1. apply Qltb_ge in E1.
    change 1%Q with (inject_Z 1) in E1. rewrite <- Zle_Qle in E1. lia. }
  destruct Hsize as (k & Hk & Hk0).
  destruct (Bagging.indices_without_replacement fuel d n size _)
    as [[sets e]|] eqn:E; [|discriminate].
  intros [= <- <-]. exists sets, k. split; [reflexivity|].
  split; [symmetry; exact Hk|].
  apply indices_without_replacement_spec in E; [|exact Hn].
  eapply Forall_impl; [exact E|].
  intros set (Hv & Hnd & Hge & Hlt). rewrite Hk in Hge, Hlt.
  split; [apply exact_size; assumption | split; assumption].
Qed.

Transparent Deviates.uniform Bagging.draw_index.

(** C5.  On pairs, the sample size is neither tested for NaN nor rounded:
    with [m = NaN] on four points the call returns a set with no element,
    whatever the fuel, where [floor(4/2) = 2] are due, and with [m = 2.4] a
    set of three elements; on one array the same sizes give sets of two
    elements. *)
Theorem subsample_2D_keeps_invalid_size :
  let xs := [Num 10; Num 20; Num 30; Num 40] in
  let ys := [Num 1; Num 2; Num 3; Num 4] in
  Bagging.half 4 = Num 2 /\
  (forall fuel,
     fst <$> Bagging.get2DSamplesWithoutReplacement fuel Deviates.new (Some xs)
               (Some ys) (Some NaN) (Some (Num 1))
     = Some [ {| Bagging.x := []; Bagging.y := [] |} ]) /\
  fst <$> Bagging.get1DSamplesWithoutReplacement 20 Deviates.new (Some xs)
            (Some NaN) (Some (Num 1))
  = Some [ [Some (Num 30); Some (Num 20)] ] /\
  fst <$> Bagging.get2DSamplesWithoutReplacement 20 Deviates.new (Some xs)
            (Some ys) (Some (Num (12 # 5))) (Some (Num 1))
  = Some [ {| Bagging.x := [Some (Num 30); Some (Num 20); Some (Num 10)];
              Bagging.y := [Some (Num 3); Some (Num 2); Some (Num 1)] |} ] /\
  fst <$> Bagging.get1DSamplesWithoutReplacement 20 Deviates.new (Some xs)
            (Some (Num (12 # 5))) (Some (Num 1))
  = Some [ [Some (Num 30); Some (Num 20)] ].
Proof.
  intros xs ys. split; [reflexivity|].
  split; [intros [|fuel]; vm_compute; reflexivity|].
  repeat split; vm_compute; reflexivity.
Qed.

(** ** More on the deviates *)

Lemma lcg_modular (x : Z) :
  0 <= x < Deviates.IM ->
  Deviates.lcg x = (Deviates.IA * x) mod Deviates.IM.
Proof.
  intros Hx. unfold Deviates.lcg.
  pose proof (Z.div_mod x Deviates.IQ ltac:(discriminate)) as Hdm.
  pose proof (Z.mod_pos_bound x Deviates.IQ ltac:(reflexivity)) as Hr.
  set (k := x / Deviates.IQ) in *.
  set (rm := x mod Deviates.IQ) in *.
  assert (Hk : 0 <= k <= 16807).
  { split.
    - apply Z.div_pos; [lia | reflexivity].
    - subst k. apply Z.lt_succ_r. apply Z.div_lt_upper_bound; [reflexivity|].
      unfold Deviates.IM, Deviates.IQ in *. lia. }
  assert (Hv : Deviates.IA * (x - k * Deviates.IQ) - Deviates.IR * k
               = Deviates.IA * rm - Deviates.IR * k) by (f_equal; lia).
  rewrite Hv.
  assert (Hprod : Deviates.IA * x
                  = k * Deviates.IM + (Deviates.IA * rm - Deviates.IR * k)).
  { rewrite IM_decomposition. rewrite Hdm at 1. lia. }
  unfold Deviates.IM, Deviates.IQ, Deviates.IA, Deviates.IR in *.
  destruct (Z.ltb_spec (16807 * rm - 2836 * k) 0).
  - apply (Z.mod_unique_pos _ _ (k - 1)); lia.
  - apply (Z.mod_unique_pos _ _ k); lia.
Qed.

(** X1.  On a state of [0, IM-1], the step written with Schrage's
    decomposition is the multiplication by 16807 modulo [2^31 - 1]. *)
Theorem lcg_is_modular_product (x : Z) :
  0 <= x < Deviates.IM ->
  Deviates.lcg x = (Deviates.IA * x) mod Deviates.IM.
Proof. exact (lcg_modular x). Qed.

Lemma lcg_is_modular_product_witness :
  0 <= 1001 < Deviates.IM /\
  Deviates.lcg 1001 = (Deviates.IA * 1001) mod Deviates.IM.
Proof.
  split; [unfold Deviates.IM; lia|].
  apply (lcg_is_modular_product 1001). unfold Deviates.IM; lia.
Defined.

Lemma lcg_keeps_range x :
  0 <= x < Deviates.IM -> 0 <= Deviates.lcg x < Deviates.IM.
Proof.
  intros Hx. destruct (Z.eq_dec x 0) as [->|Hne]; [vm_compute; split; congruence|].
  pose proof (lcg_range x ltac:(lia)). lia.
Qed.

Lemma lcg_iterated i : forall x,
  0 <= x < Deviates.IM ->
  Nat.iter i Deviates.lcg x
  = (Deviates.IA ^ Z.of_nat i * x) mod Deviates.IM /\
  0 <= Nat.iter i Deviates.lcg x < Deviates.IM.
Proof.
  induction i as [|i IH]; intros x Hx.
  - simpl Nat.iter. rewrite Z.pow_0_r, Z.mul_1_l.
    split; [symmetry; apply Z.mod_small; exact Hx | exact Hx].
  - destruct (IH x Hx) as [Heq Hr]. rewrite Nat.iter_succ.
    split; [|apply lcg_keeps_range, Hr].
    rewrite lcg_modular by exact Hr. rewrite Heq.
    rewrite Z.mul_mod_idemp_r by discriminate.
    f_equal. rewrite Nat2Z.inj_succ, Z.pow_succ_r by lia. ring.
Qed.

Lemma continue_synchronised k : forall d start,
  Deviates._iv d !! 0 = Some (Deviates._idum d) ->
  fst (continue k d start)
  = map (fun i => scale (Nat.iter i Deviates.lcg (Deviates._idum d))) (seq 0 k).
Proof.
  induction k as [|k IH]; intros d start Hsync; [reflexivity|].
  rewrite continue_succ, uniform_continue_eq. cbn [fst snd].
  rewrite Hsync. cbn [seq map]. f_equal.
  rewrite IH by (cbn [Deviates.set_gen Deviates._iv Deviates._idum];
                 apply lookup_insert_eq).
  cbn [Deviates.set_gen Deviates._idum].
  rewrite <- seq_shift, map_map.
  apply map_ext. intros i. rewrite Nat.iter_succ_r. reflexivity.
Qed.

(** X2.  Continuing calls form the Lehmer sequence, one call late: from a
    state [x] of [0, IM-1], the first call [uniform(s, false)] returns what
    slot 0 holds, and the call after [i >= 1] others returns
    [16807^i * x mod IM], scaled and clamped, whatever the seed argument and
    the rest of the table. *)
Theorem continuing_calls_are_lehmer_sequence (d : Deviates.state) (start : Z)
    (k : nat) :
  0 <= Deviates._idum d < Deviates.IM ->
  fst (continue (S k) d start)
  = (let temp := nmul Deviates.AM
                      (to_number (of_Z <$> Deviates._iv d !! 0)) in
     if ngt temp Deviates.RNMX then Deviates.RNMX else temp)
    :: map (fun i => scale ((Deviates.IA ^ Z.of_nat i * Deviates._idum d)
                            mod Deviates.IM))
           (seq 1 k).
Proof.
  intros Hx. rewrite continue_succ, uniform_continue_eq. cbn [fst snd].
  f_equal.
  rewrite continue_synchronised
    by (cbn [Deviates.set_gen Deviates._iv Deviates._idum];
        apply lookup_insert_eq).
  cbn [Deviates.set_gen Deviates._idum].
  rewrite <- seq_shift, map_map. apply map_ext. intros i.
  f_equal. rewrite <- Nat.iter_succ_r.
  apply (lcg_iterated (S i) _ Hx).
Qed.

Lemma continuing_calls_are_lehmer_sequence_witness :
  let d := snd (Deviates.uniform Deviates.new 1001 true) in
  0 <= Deviates._idum d < Deviates.IM /\
  fst (continue 3 d 5)
  = [Num (1511848666 # 2147483647);
     scale ((16807 ^ 1 * Deviates._idum d) mod Deviates.IM);
     scale ((16807 ^ 2 * Deviates._idum d) mod Deviates.IM)].
Proof.
  intros d. split; [vm_compute; split; congruence|].
  rewrite (continuing_calls_are_lehmer_sequence d 5 2);
    [|vm_compute; split; congruence].
  vm_compute. reflexivity.
Defined.

(** X3.  A seed below 1 is the seed 1: the initialising call returns the
    same value and leaves the same generator. *)
Theorem seed_below_one_is_one (d : Deviates.state) (start : Z) :
  start < 1 ->
  Deviates.uniform d start true = Deviates.uniform d 1 true.
Proof.
  intros Hs. unfold Deviates.uniform, Deviates.seed_table.
  destruct (Z.ltb_spec start 1); [reflexivity | lia].
Qed.

Lemma seed_below_one_is_one_witness :
  -7 < 1 /\
  Deviates.uniform Deviates.new (-7) true = Deviates.uniform Deviates.new 1 true.
Proof.
  split; [lia|]. apply (seed_below_one_is_one Deviates.new (-7)). lia.
Defined.






Lemma uniform_init_shape start :
  exists v idum iv, forall d,
    Deviates.uniform d start true = (v, Deviates.set_gen d idum iv).
Proof.
  unfold Deviates.uniform.
  destruct (Deviates.seed_table start) as [idum iv].
  destruct (index_of _); do 3 eexists; intros d; reflexivity.
Qed.

Lemma normal_loop_init_round fuel d start :
  Deviates.normal_loop (S fuel) d start true
  = Deviates.normal_loop 1 d start true.
Proof.
  destruct (uniform_init_shape start) as (v & idum & iv & Hu).
  assert (Hround : forall f e,
             Deviates.normal_loop (S f) e start true
             = (let v1 := nsub (nmul (Num 2) v) (Num 1) in
                let rsq := nadd (nmul v1 v1) (nmul v1 v1) in
                if nge rsq (Num 1) || num_eqb rsq (Num 0)
                then Deviates.normal_loop f (Deviates.set_gen e idum iv) start true
                else Some (v1, v1, rsq, Deviates.set_gen e idum iv))).
  { intros f e. cbn [Deviates.normal_loop]. rewrite !Hu. reflexivity. }
  rewrite !Hround. cbv zeta.
  destruct (_ || _) eqn:Hrej; [|reflexivity].
  cbn [Deviates.normal_loop].
  generalize (Deviates.set_gen d idum iv). clear d.
  induction fuel as [|fuel IH]; intros e; [reflexivity|].
  rewrite Hround. cbv zeta. rewrite Hrej. apply IH.
Qed.

(** X5.  An initialising call of [normal] seeds the generator again at
    each of its draws, so that every round of its rejection loop sees the
    same pair: the call returns after one round or not at all.  With the
    seed 3 it does not return, whatever the fuel. *)
Theorem normal_init_returns_at_once_or_never
    (Math_log Math_sqrt : number -> number) :
  (forall fuel d start mu sig,
     Deviates.normal Math_log Math_sqrt (S fuel) d start mu sig true
     = Deviates.normal Math_log Math_sqrt 1 d start mu sig true) /\
  (forall fuel mu sig,
     Deviates.normal Math_log Math_sqrt fuel Deviates.new 3 mu sig true = None).
Proof.
  assert (Hfirst : forall fuel d start mu sig,
             Deviates.normal Math_log Math_sqrt (S fuel) d start mu sig true
             = Deviates.normal Math_log Math_sqrt 1 d start mu sig true).
  { intros fuel d start mu sig. unfold Deviates.normal.
    rewrite normal_loop_init_round. reflexivity. }
  split; [exact Hfirst|].
  intros [|fuel] mu sig; [reflexivity|].
  rewrite Hfirst. vm_compute. reflexivity.
Qed.

(** X6.  In every state an instance can reach, the shape [gamma] samples
    with is at least 1 and its scale at least 1e-4, whatever [alpha] and
    [beta] the calls were given. *)
Theorem gamma_parameters_in_range
    (Math_log Math_sqrt : number -> number) (d : Deviates.state) :
  Deviates.reachable Math_log Math_sqrt d ->
  nle (Num 1) (Deviates._a d) = true /\
  nle (Num (1 # 10000)) (Deviates._b d) = true.
Proof.
  intros Hd.
  destruct (reachable_in_range Math_log Math_sqrt d Hd) as (_ & _ & Ha & Hb).
  split; assumption.
Qed.

Lemma gamma_parameters_in_range_witness :
  exists v d',
    Deviates.gamma (fun a => a) (fun a => a) 5 Deviates.new 1001
                   (Num (-2)) (Num (1 # 100000)) true = Some (v, d') /\
    nle (Num 1) (Deviates._a d') = true /\
    nle (Num (1 # 10000)) (Deviates._b d') = true.
Proof.
  destruct (Deviates.gamma (fun a => a) (fun a => a) 5 Deviates.new 1001
                           (Num (-2)) (Num (1 # 100000)) true)
    as [[v d']|] eqn:E.
  - exists v, d'. split; [reflexivity|].
    apply (gamma_parameters_in_range (fun a => a) (fun a => a) d').
    apply (Deviates.reachable_call _ _ Deviates.new 5%nat
             (Deviates.Gamma 1001 (Num (-2)) (Num (1 # 100000)) true) v d').
    + apply Deviates.reachable_new.
    + exact E.
  - vm_compute in E. discriminate E.
Defined.

(** X7.  Used before any seeding, the generator returns NaN at the first
    continuing call (slot 0 is not set) and exactly 0 at every later one. *)
Theorem unseeded_generator_returns_nan_then_zero (start : Z) (k : nat) :
  fst (continue (S k) Deviates.new start) = NaN :: repeat (Num 0) k.
Proof.
  rewrite continue_succ, uniform_continue_eq. cbn [fst snd].
  f_equal.
  rewrite continue_synchronised
    by (cbn [Deviates.set_gen Deviates._iv Deviates._idum];
        apply lookup_insert_eq).
  change (Deviates._idum (Deviates.set_gen Deviates.new
            (Deviates.lcg (Deviates._idum Deviates.new))
            (<[0:=Deviates.lcg (Deviates._idum Deviates.new)]>
               (Deviates._iv Deviates.new)))) with 0.
  assert (Hit : forall i, Nat.iter i Deviates.lcg 0 = 0).
  { induction i as [|i IH]; [reflexivity|].
    rewrite Nat.iter_succ, IH. reflexivity. }
  generalize 0%nat. induction k as [|k IH]; intros from; [reflexivity|].
  cbn [seq map repeat]. rewrite Hit. f_equal. apply IH.
Qed.

(** ** More on resampling *)

Lemma draw_index_same_generator d d' n :
  same_generator d d' ->
  fst (Bagging.draw_index d n) = fst (Bagging.draw_index d' n) /\
  same_generator (snd (Bagging.draw_index d n)) (snd (Bagging.draw_index d' n)).
Proof.
  intros [Hi Hv]. unfold Bagging.draw_index.
  rewrite !uniform_continue_eq. cbn [fst snd].
  rewrite Hi, Hv. split; [reflexivity | split; reflexivity].
Qed.

Lemma uniform_init_same_generator d d' start :
  same_generator (snd (Deviates.uniform d start true))
                 (snd (Deviates.uniform d' start true)).
Proof.
  destruct (uniform_init_eq d d' start) as (_ & Hi & Hv). split; assumption.
Qed.

Opaque Deviates.uniform Bagging.draw_index.

Lemma draw_indices_same_generator count : forall d d' n,
  same_generator d d' ->
  fst (Bagging.draw_indices count d n) = fst (Bagging.draw_indices count d' n) /\
  same_generator (snd (Bagging.draw_indices count d n))
                 (snd (Bagging.draw_indices count d' n)).
Proof.
  induction count as [|count IH]; intros d d' n H; cbn [Bagging.draw_indices].
  - split; [reflexivity | exact H].
  - destruct (draw_index_same_generator d d' n H) as [E1 E2].
    destruct (Bagging.draw_index d n) as [i e].
    destruct (Bagging.draw_index d' n) as [i' e']. cbn [fst snd] in E1, E2.
    destruct (IH e e' n E2) as [E3 E4].
    destruct (Bagging.draw_indices count e n) as [r f].
    destruct (Bagging.draw_indices count e' n) as [r' f'].
    cbn [fst snd] in *. subst. split; [reflexivity | exact E4].
Qed.

Lemma draw_sets_same_generator sets : forall d d' n,
  same_generator d d' ->
  fst (Bagging.draw_sets sets d n) = fst (Bagging.draw_sets sets d' n).
Proof.
  induction sets as [|sets IH]; intros d d' n H; cbn [Bagging.draw_sets];
    [reflexivity|].
  destruct (draw_indices_same_generator n d d' n H) as [E1 E2].
  destruct (Bagging.draw_indices n d n) as [set e].
  destruct (Bagging.draw_indices n d' n) as [set' e']. cbn [fst snd] in E1, E2.
  specialize (IH e e' n E2).
  destruct (Bagging.draw_sets sets e n) as [r f].
  destruct (Bagging.draw_sets sets e' n) as [r' f'].
  cbn [fst snd] in *. subst. reflexivity.
Qed.

Lemma draw_distinct_same_generator fuel : forall d d' n m tmp sampledIndices,
  same_generator d d' ->
  match Bagging.draw_distinct fuel d n m tmp sampledIndices,
        Bagging.draw_distinct fuel d' n m tmp sampledIndices with
  | Some (set, e), Some (set', e') => set = set' /\ same_generator e e'
  | None, None => True
  | _, _ => False
  end.
Proof.
  induction fuel as [|fuel IH]; intros d d' n m tmp sampled H;
    cbn [Bagging.draw_distinct].
  - destruct (nlt _ m); [exact I | split; [reflexivity | exact H]].
  - destruct (nlt _ m); [|split; [reflexivity | exact H]].
    destruct (draw_index_same_generator d d' n H) as [E1 E2].
    destruct (Bagging.draw_index d n) as [i e].
    destruct (Bagging.draw_index d' n) as [i' e']. cbn [fst snd] in E1, E2.
    subst i'. destruct (existsb _ sampled); apply IH; exact E2.
Qed.

Lemma draw_distinct_sets_same_generator sets : forall fuel d d' n m,
  same_generator d d' ->
  fst <$> Bagging.draw_distinct_sets sets fuel d n m
  = fst <$> Bagging.draw_distinct_sets sets fuel d' n m.
Proof.
  induction sets as [|sets IH]; intros fuel d d' n m H;
    cbn [Bagging.draw_distinct_sets]; [reflexivity|].
  pose proof (draw_distinct_same_generator fuel d d' n m [] [] H) as Hset.
  destruct (Bagging.draw_distinct fuel d n m [] []) as [[set e]|];
    destruct (Bagging.draw_distinct fuel d' n m [] []) as [[set' e']|];
    try contradiction; [|reflexivity].
  destruct Hset as [<- He].
  specialize (IH fuel e e' n m He).
  destruct (Bagging.draw_distinct_sets sets fuel e n m) as [[r f]|];
    destruct (Bagging.draw_distinct_sets sets fuel e' n m) as [[r' f']|];
    cbn in IH; try discriminate; [|reflexivity].
  injection IH as <-. reflexivity.
Qed.

Lemma indices_with_replacement_reproducible d d' n numSets :
  fst <$> Bagging.indices_with_replacement d n numSets
  = fst <$> Bagging.indices_with_replacement d' n numSets.
Proof.
  unfold Bagging.indices_with_replacement.
  pose proof (uniform_init_same_generator d d' 1001) as H.
  destruct (Deviates.uniform d 1001 true) as [r e].
  destruct (Deviates.uniform d' 1001 true) as [r' e']. cbn [snd] in H.
  destruct (for_count numSets) as [sets|]; [|reflexivity].
  cbn. f_equal. apply draw_sets_same_generator, H.
Qed.

Lemma indices_without_replacement_reproducible fuel d d' n m numSets :
  fst <$> Bagging.indices_without_replacement fuel d n m numSets
  = fst <$> Bagging.indices_without_replacement fuel d' n m numSets.
Proof.
  unfold Bagging.indices_without_replacement.
  pose proof (uniform_init_same_generator d d' 1001) as H.
  destruct (Deviates.uniform d 1001 true) as [r e].
  destruct (Deviates.uniform d' 1001 true) as [r' e']. cbn [snd] in H.
  destruct (for_count numSets) as [sets|]; [|reflexivity].
  apply draw_distinct_sets_same_generator, H.
Qed.

Transparent Deviates.uniform Bagging.draw_index.

Lemma fmap_fst_map {A B C : Type} (f : A -> B)
    (r r' : option (list A * C)) :
  fst <$> r = fst <$> r' ->
  fst <$> match r with Some (sets, d) => Some (map f sets, d) | None => None end
  = fst <$> match r' with Some (sets, d) => Some (map f sets, d) | None => None end.
Proof.
  destruct r as [[a c]|], r' as [[a' c']|]; cbn; try discriminate;
    [|reflexivity].
  intros [= ->]. reflexivity.
Qed.

(** X8.  Each sampling operation seeds the shared generator itself before
    it draws: the sets it returns, and whether it returns, depend on its
    arguments only, not on what the generator was used for before. *)
Theorem resampling_is_reproducible (d d' : Deviates.state) (fuel : nat)
    (x y : option (list number)) (m numSets : option number) :
  fst <$> Bagging.get1DSamplesWithReplacement d x numSets
  = fst <$> Bagging.get1DSamplesWithReplacement d' x numSets /\
  fst <$> Bagging.get1DSamplesWithoutReplacement fuel d x m numSets
  = fst <$> Bagging.get1DSamplesWithoutReplacement fuel d' x m numSets /\
  fst <$> Bagging.get2DSamplesWithReplacement d x y numSets
  = fst <$> Bagging.get2DSamplesWithReplacement d' x y numSets /\
  fst <$> Bagging.get2DSamplesWithoutReplacement fuel d x y m numSets
  = fst <$> Bagging.get2DSamplesWithoutReplacement fuel d' x y m numSets.
Proof.
  split; [|split; [|split]].
  - unfold Bagging.get1DSamplesWithReplacement.
    destruct x as [[|x0 xs]|]; [reflexivity | | reflexivity].
    apply fmap_fst_map, indices_with_replacement_reproducible.
  - unfold Bagging.get1DSamplesWithoutReplacement.
    destruct x as [[|x0 xs]|]; [reflexivity | | reflexivity].
    apply fmap_fst_map, indices_without_replacement_reproducible.
  - unfold Bagging.get2DSamplesWithReplacement.
    destruct x as [[|x0 xs]|], y as [ys|];
      [reflexivity | reflexivity | | reflexivity | reflexivity | reflexivity].
    destruct (negb _); [reflexivity|].
    apply fmap_fst_map, indices_with_replacement_reproducible.
  - unfold Bagging.get2DSamplesWithoutReplacement.
    destruct x as [[|x0 xs]|], y as [ys|];
      [reflexivity | reflexivity | | reflexivity | reflexivity | reflexivity].
    destruct (negb _); [reflexivity|].
    apply fmap_fst_map, indices_without_replacement_reproducible.
Qed.

(** X9.  A null or empty array, and for the variants on pairs a null second
    array or arrays of different lengths, give the empty collection; nothing
    is drawn and the shared generator is left as it was. *)
Theorem resampling_of_nothing_is_empty (d : Deviates.state) (fuel : nat)
    (x y : option (list number)) (m numSets : option number) :
  (x = None \/ x = Some [] ->
   Bagging.get1DSamplesWithReplacement d x numSets = Some ([], d) /\
   Bagging.get1DSamplesWithoutReplacement fuel d x m numSets = Some ([], d)) /\
  (x = None \/ x = Some [] \/ y = None \/
   (exists xs ys, x = Some xs /\ y = Some ys /\ length ys <> length xs) ->
   Bagging.get2DSamplesWithReplacement d x y numSets = Some ([], d) /\
   Bagging.get2DSamplesWithoutReplacement fuel d x y m numSets = Some ([], d)).
Proof.
  split.
  - intros [->| ->]; split; reflexivity.
  - intros [->|[->|[->|(xs & ys & -> & -> & Hne)]]].
    + destruct y; split; reflexivity.
    + destruct y; split; reflexivity.
    + destruct x as [[|x0 xs]|]; split; reflexivity.
    + unfold Bagging.get2DSamplesWithReplacement,
        Bagging.get2DSamplesWithoutReplacement.
      destruct xs as [|x0 xs]; [split; reflexivity|].
      destruct (Nat.eqb_spec (length ys) (length (x0 :: xs))) as [|_];
        [contradiction|].
      split; reflexivity.
Qed.

Lemma resampling_of_nothing_is_empty_witness :
  let d := snd (Deviates.uniform Deviates.new 7 true) in
  Bagging.get1DSamplesWithReplacement d (Some []) (Some (Num 3)) = Some ([], d) /\
  Bagging.get2DSamplesWithoutReplacement 9 d (Some [Num 1; Num 2; Num 3])
    (Some [Num 1; Num 2]) None None = Some ([], d).
Proof.
  intros d. split.
  - apply (resampling_of_nothing_is_empty d 0 (Some []) None None (Some (Num 3))).
    right. reflexivity.
  - apply (resampling_of_nothing_is_empty d 9 (Some [Num 1; Num 2; Num 3])
             (Some [Num 1; Num 2]) None None).
    right; right; right. exists [Num 1; Num 2; Num 3], [Num 1; Num 2].
    split; [reflexivity|]. split; [reflexivity|]. simpl. lia.
Defined.

Lemma indices_with_replacement_count d n numSets sets d' :
  (1 <= n)%nat ->
  Bagging.indices_with_replacement d n numSets = Some (sets, d') ->
  for_count numSets = Some (length sets).
Proof.
  intros Hn. unfold Bagging.indices_with_replacement.
  pose proof (seed_1001_seeded d) as Hd.
  destruct (Deviates.uniform d 1001 true) as [r e]. simpl in Hd.
  destruct (for_count numSets) as [count|]; [|discriminate].
  intros [= H]. destruct (draw_sets_valid count e n Hn Hd) as (Hl & _ & _).
  rewrite H in Hl. simpl in Hl. congruence.
Qed.

Lemma indices_without_replacement_count fuel d n m numSets sets d' :
  (1 <= n)%nat ->
  Bagging.indices_without_replacement fuel d n m numSets = Some (sets, d') ->
  for_count numSets = Some (length sets).
Proof.
  intros Hn. unfold Bagging.indices_without_replacement.
  pose proof (seed_1001_seeded d) as Hd.
  destruct (Deviates.uniform d 1001 true) as [r e]. simpl in Hd.
  destruct (for_count numSets) as [count|]; [|discriminate].
  intros H. apply draw_distinct_sets_spec in H; [|assumption|assumption].
  destruct H as (Hl & _). congruence.
Qed.

Lemma for_count_of_nat n : for_count (of_nat n) = Some n.
Proof.
  unfold for_count, of_nat, of_Z. rewrite Qceiling_Z, Nat2Z.id. reflexivity.
Qed.

(** X10.  The number of sets returned.  When [numSets] is omitted or below
    1 every operation returns [n] sets, and for a [numSets] of at least 1 it
    returns [numSets] rounded to the nearest integer.  A NaN [numSets] gives
    [n] sets too, except with [get1DSamplesWithReplacement], which does not
    test for NaN and returns no set at all. *)
Theorem number_of_sets (xs ys : list number) (m numSets : option number)
    (fuel : nat) (d : Deviates.state) :
  xs <> [] -> length ys = length xs ->
  let n := length xs in
  let expected := for_count (sets_requested n numSets) in
  (forall out d',
     Bagging.get1DSamplesWithoutReplacement fuel d (Some xs) m numSets
     = Some (out, d') -> expected = Some (length out)) /\
  (forall out d',
     Bagging.get2DSamplesWithReplacement d (Some xs) (Some ys) numSets
     = Some (out, d') -> expected = Some (length out)) /\
  (forall out d',
     Bagging.get2DSamplesWithoutReplacement fuel d (Some xs) (Some ys) m numSets
     = Some (out, d') -> expected = Some (length out)) /\
  (forall out d',
     Bagging.get1DSamplesWithReplacement d (Some xs) numSets = Some (out, d') ->
     (numSets = Some NaN -> out = []) /\
     (numSets <> Some NaN -> expected = Some (length out))) /\
  (numSets = None \/ numSets = Some NaN \/
   (exists s, numSets = Some s /\ nlt s (Num 1) = true) ->
   expected = Some n) /\
  (forall q, numSets = Some (Num q) -> (1 <= q)%Q ->
             expected = Some (Z.to_nat (Qfloor (q + (1 # 2))))).
Proof.
  intros Hne Hlen n expected.
  assert (Hn : (1 <= n)%nat).
  { subst n. destruct xs; [contradiction | simpl; lia]. }
  assert (Heqb : (length ys =? n)%nat = true) by (apply Nat.eqb_eq, Hlen).
  split; [|split; [|split; [|split; [|split]]]].
  - intros out d'. unfold Bagging.get1DSamplesWithoutReplacement.
    destruct xs as [|x0 xs']; [contradiction|]. fold n.
    destruct (Bagging.indices_without_replacement fuel d n _ _)
      as [[sets e]|] eqn:E; [|discriminate].
    intros [= <- <-]. rewrite length_map.
    exact (indices_without_replacement_count _ _ _ _ _ _ _ Hn E).
  - intros out d'. unfold Bagging.get2DSamplesWithReplacement.
    destruct xs as [|x0 xs']; [contradiction|]. fold n.
    rewrite Heqb. cbn [negb].
    destruct (Bagging.indices_with_replacement d n _) as [[sets e]|] eqn:E;
      [|discriminate].
    intros [= <- <-]. rewrite length_map.
    exact (indices_with_replacement_count _ _ _ _ _ Hn E).
  - intros out d'. unfold Bagging.get2DSamplesWithoutReplacement.
    destruct xs as [|x0 xs']; [contradiction|]. fold n.
    rewrite Heqb. cbn [negb].
    destruct (Bagging.indices_without_replacement fuel d n _ _)
      as [[sets e]|] eqn:E; [|discriminate].
    intros [= <- <-]. rewrite length_map.
    exact (indices_without_replacement_count _ _ _ _ _ _ _ Hn E).
  - intros out d'. unfold Bagging.get1DSamplesWithReplacement.
    destruct xs as [|x0 xs']; [contradiction|]. fold n.
    destruct (Bagging.indices_with_replacement d n _) as [[sets e]|] eqn:E;
      [|discriminate].
    intros [= <- <-].
    apply indices_with_replacement_count in E; [|exact Hn].
    split.
    + intros ->. cbn in E. injection E as E.
      destruct sets; [reflexivity|discriminate].
    + intros Hnan. rewrite length_map. subst expected. unfold sets_requested.
      destruct numSets as [s|]; [|exact E].
      destruct s; try exact E. congruence.
  - subst expected. unfold sets_requested.
    intros [->|[->|(s & -> & Hs)]]; cbn [isNaN orb].
    + apply for_count_of_nat.
    + apply for_count_of_nat.
    + rewrite Hs, orb_true_r. apply for_count_of_nat.
  - intros q -> Hq. subst expected. unfold sets_requested.
    cbn [isNaN orb nlt].
    assert (Hf : Qltb q 1 = false) by (apply Qltb_ge, Hq).
    rewrite Hf. unfold Math_round, for_count, of_Z.
    rewrite Qceiling_Z. reflexivity.
Qed.

Lemma number_of_sets_witness :
  let xs := [Num 10; Num 20; Num 30] in
  exists out d',
    Bagging.get1DSamplesWithoutReplacement 50 Deviates.new (Some xs)
      (Some (Num 2)) (Some (Num (27 # 10))) = Some (out, d') /\
    length out = 3%nat.
Proof.
  intros xs.
  destruct (Bagging.get1DSamplesWithoutReplacement 50 Deviates.new (Some xs)
              (Some (Num 2)) (Some (Num (27 # 10)))) as [[out d']|] eqn:E.
  - exists out, d'. split; [reflexivity|].
    destruct (number_of_sets xs xs (Some (Num 2)) (Some (Num (27 # 10)))
                50%nat Deviates.new ltac:(discriminate) eq_refl)
      as (H1 & _ & _ & _ & _ & H6).
    specialize (H1 out d' E).
    rewrite (H6 (27 # 10)%Q eq_refl ltac:(discriminate)) in H1.
    injection H1 as H1. rewrite <- H1. reflexivity.
  - vm_compute in E. discriminate E.
Defined.

Lemma In_combine_lookup {A B : Type} (xs : list A) (ys : list B) i v w :
  xs !! i = Some v -> ys !! i = Some w -> In (v, w) (combine xs ys).
Proof.
  revert ys i. induction xs as [|a xs IH]; intros [|b ys] [|i]; simpl;
    try discriminate.
  - intros [= ->] [= ->]. left. reflexivity.
  - intros Hv Hw. right. eapply IH; eassumption.
Qed.

Lemma pick2_points (xs ys : list number) set :
  length ys = length xs ->
  Forall (valid_index (length xs)) set ->
  Forall (point_of xs ys) (combine (Bagging.pick xs set) (Bagging.pick ys set)).
Proof.
  intros Hlen H. unfold Bagging.pick.
  induction H as [|a set Ha _ IH]; [constructor|].
  cbn [map combine]. constructor; [|exact IH].
  destruct Ha as (i & -> & Hi). unfold array_get. rewrite index_of_of_Z.
  destruct (Z.ltb_spec i 0) as [|_]; [lia|].
  destruct (lookup_lt_is_Some_2 xs (Z.to_nat i) ltac:(lia)) as [v Hv].
  destruct (lookup_lt_is_Some_2 ys (Z.to_nat i) ltac:(lia)) as [w Hw].
  rewrite Hv, Hw. exists v, w. split; [reflexivity|].
  eapply In_combine_lookup; eassumption.
Qed.

(** X11.  On pairs the abscissa and the ordinate are drawn together: in
    every set returned, with or without replacement, the two arrays have the
    same length and the pair at each position is one of the points
    [(x[i], y[i])] of the source. *)
Theorem resampled_points_stay_paired (xs ys : list number)
    (m numSets : option number) (fuel : nat) (d : Deviates.state) :
  xs <> [] -> length ys = length xs ->
  let paired o :=
    length (Bagging.x o) = length (Bagging.y o) /\
    Forall (point_of xs ys) (combine (Bagging.x o) (Bagging.y o)) in
  (forall out d',
     Bagging.get2DSamplesWithReplacement d (Some xs) (Some ys) numSets
     = Some (out, d') -> Forall paired out) /\
  (forall out d',
     Bagging.get2DSamplesWithoutReplacement fuel d (Some xs) (Some ys) m numSets
     = Some (out, d') -> Forall paired out).
Proof.
  intros Hne Hlen paired.
  assert (Hn : (1 <= length xs)%nat).
  { destruct xs; [contradiction | simpl; lia]. }
  assert (Heqb : (length ys =? length xs)%nat = true) by (apply Nat.eqb_eq, Hlen).
  assert (Hpick : forall set, Forall (valid_index (length xs)) set ->
                              paired (Bagging.pick2 xs ys set)).
  { intros set Hv. subst paired. unfold Bagging.pick2.
    cbn [Bagging.x Bagging.y]. split.
    - unfold Bagging.pick. rewrite !length_map. reflexivity.
    - apply pick2_points; assumption. }
  split.
  - intros out d'. unfold Bagging.get2DSamplesWithReplacement.
    destruct xs as [|x0 xs']; [contradiction|].
    rewrite Heqb. cbn [negb].
    destruct (Bagging.indices_with_replacement d _ _) as [[sets e]|] eqn:E;
      [|discriminate].
    intros [= <- <-].
    apply indices_with_replacement_valid in E; [|exact Hn].
    apply Forall_map. eapply Forall_impl; [exact E|].
    intros set [_ Hv]. apply Hpick, Hv.
  - intros out d'. unfold Bagging.get2DSamplesWithoutReplacement.
    destruct xs as [|x0 xs']; [contradiction|].
    rewrite Heqb. cbn [negb].
    destruct (Bagging.indices_without_replacement fuel d _ _ _)
      as [[sets e]|] eqn:E; [|discriminate].
    intros [= <- <-].
    apply indices_without_replacement_spec in E; [|exact Hn].
    apply Forall_map. eapply Forall_impl; [exact E|].
    intros set [Hv _]. apply Hpick, Hv.
Qed.

Lemma resampled_points_stay_paired_witness :
  let xs := [Num 10; Num 20; Num 30] in
  let ys := [Num 1; Num 2; Num 3] in
  exists out d',
    Bagging.get2DSamplesWithReplacement Deviates.new (Some xs) (Some ys)
      (Some (Num 2)) = Some (out, d') /\
    Forall (fun o => length (Bagging.x o) = length (Bagging.y o) /\
                     Forall (point_of xs ys)
                            (combine (Bagging.x o) (Bagging.y o))) out.
Proof.
  intros xs ys.
  destruct (Bagging.get2DSamplesWithReplacement Deviates.new (Some xs)
              (Some ys) (Some (Num 2))) as [[out d']|] eqn:E.
  - exists out, d'. split; [reflexivity|].
    destruct (resampled_points_stay_paired xs ys None (Some (Num 2)) 0%nat
                Deviates.new ltac:(discriminate) eq_refl) as [H _].
    exact (H out d' E).
  - vm_compute in E. discriminate E.
Defined.

Lemma of_Z_inj i j : of_Z i = of_Z j -> i = j.
Proof. unfold of_Z, inject_Z. congruence. Qed.

Lemma NoDup_map_on {A B : Type} (f : A -> B) (l : list A) :
  (forall a b, In a l -> In b l -> f a = f b -> a = b) ->
  NoDup l -> NoDup (map f l).
Proof.
  intros Hinj H. induction H as [|a l Ha Hl IH]; [apply NoDup_nil_2|].
  cbn [map]. apply NoDup_cons_2.
  - intros Hin. apply list_elem_of_In, in_map_iff in Hin.
    destruct Hin as (b & Hb & Hbl).
    apply Ha. apply list_elem_of_In.
    rewrite (Hinj a b); [exact Hbl | left; reflexivity | right; exact Hbl|].
    symmetry. exact Hb.
  - apply IH. intros x y Hx Hy. apply Hinj; right; assumption.
Qed.

(** Distinct valid indices are at most as many as the observations. *)
Lemma distinct_indices_bounded n set :
  Forall (valid_index n) set -> NoDup set -> (length set <= n)%nat.
Proof.
  intros Hv Hnd.
  set (f := fun a => match index_of a with
                     | Some z => Z.to_nat z | None => O end).
  assert (Hf : forall a, In a set -> exists i, a = of_Z i /\
                                    0 <= i < Z.of_nat n /\ f a = Z.to_nat i).
  { intros a Ha. rewrite Forall_forall in Hv.
    destruct (Hv a (proj2 (list_elem_of_In _ _) Ha)) as (i & -> & Hi).
    exists i. subst f. cbv beta. rewrite index_of_of_Z. auto. }
  assert (Hnd' : NoDup (map f set)).
  { apply NoDup_map_on; [|exact Hnd].
    intros a b Ha Hb Hab.
    destruct (Hf a Ha) as (i & -> & Hi & Ei).
    destruct (Hf b Hb) as (j & -> & Hj & Ej).
    f_equal. lia. }
  assert (Hsub : map f set ⊆+ seq 0 n).
  { apply NoDup_submseteq; [exact Hnd'|].
    intros k Hk. apply list_elem_of_In, in_map_iff in Hk.
    destruct Hk as (a & <- & Ha). destruct (Hf a Ha) as (i & _ & Hi & ->).
    apply list_elem_of_In, in_seq. lia. }
  apply submseteq_length in Hsub. rewrite length_map, length_seq in Hsub.
  exact Hsub.
Qed.

Lemma pick_distinct (data : list number) set :
  NoDup data -> Forall (valid_index (length data)) set -> NoDup set ->
  NoDup (Bagging.pick data set).
Proof.
  intros Hdata Hv Hnd. unfold Bagging.pick.
  apply NoDup_map_on; [|exact Hnd].
  intros a b Ha Hb. rewrite Forall_forall in Hv.
  destruct (Hv a (proj2 (list_elem_of_In _ _) Ha)) as (i & -> & Hi).
  destruct (Hv b (proj2 (list_elem_of_In _ _) Hb)) as (j & -> & Hj).
  unfold array_get. rewrite !index_of_of_Z.
  destruct (Z.ltb_spec i 0) as [|_]; [lia|].
  destruct (Z.ltb_spec j 0) as [|_]; [lia|].
  destruct (lookup_lt_is_Some_2 data (Z.to_nat i) ltac:(lia)) as [v Hvi].
  rewrite Hvi. intros Hvj. symmetry in Hvj.
  pose proof (NoDup_lookup data _ _ v Hdata Hvi Hvj). f_equal. lia.
Qed.

Lemma half_value n : Bagging.half n = of_Z (Z.of_nat n / 2).
Proof.
  unfold Bagging.half, of_nat, of_Z, ndiv.
  change (Qeq_bool 2 0) with false. cbv iota. unfold fin, Math_floor, of_Z.
  do 2 f_equal. rewrite Qred_correct.
  change 2%Q with (inject_Z 2). symmetry. apply Zdiv_Qdiv.
Qed.

(** X12.  A call of [get1DSamplesWithoutReplacement] that returns gives
    sub-samples: every set has exactly the sample size in use ([m] rounded,
    or [floor(n/2)] when [m] is omitted, NaN, below 1 or above [n]), which
    never exceeds [n]; its elements are observations taken at pairwise
    distinct positions, so that distinct observations are never repeated. *)
Theorem subsample_1D_is_a_sub_sample (fuel : nat) (d : Deviates.state)
    (xs : list number) (m numSets : option number) out d' :
  xs <> [] ->
  Bagging.get1DSamplesWithoutReplacement fuel d (Some xs) m numSets
  = Some (out, d') ->
  exists k,
    of_Z k = match m with
             | None => Bagging.half (length xs)
             | Some m =>
                 if isNaN m || nlt m (Num 1) || ngt m (of_nat (length xs))
                 then Bagging.half (length xs) else Math_round m
             end /\
    0 <= k <= Z.of_nat (length xs) /\
    Forall (fun o => Z.of_nat (length o) = k /\ Forall (copy_of xs) o /\
                     (NoDup xs -> NoDup o)) out.
Proof.
  intros Hne H.
  destruct (subsample_1D_distinct fuel d xs m numSets out d' Hne H)
    as (sets & k & -> & Hk & Hsets).
  exists k. split; [exact Hk|].
  assert (Hall : Forall (fun o => Z.of_nat (length o) = k /\
                                  Forall (copy_of xs) o /\
                                  (NoDup xs -> NoDup o))
                        (map (Bagging.pick xs) sets)).
  { apply Forall_map. eapply Forall_impl; [exact Hsets|].
    intros set (Hl & Hnd & Hv).
    destruct (pick_copies xs set Hv) as [Hl' Hc].
    split; [congruence|]. split; [exact Hc|].
    intros Hdata. apply pick_distinct; assumption. }
  split; [|exact Hall].
  destruct sets as [|set sets'].
  - assert (Hk0 : 0 <= k /\ k <= Z.of_nat (length xs)); [|exact Hk0].
    destruct m as [m0|].
    + destruct (isNaN m0 || nlt m0 (Num 1) || ngt m0 (of_nat (length xs))) eqn:E.
      * rewrite half_value in Hk. apply of_Z_inj in Hk. subst k.
        split; [apply Z.div_pos; lia | apply Z.div_le_upper_bound; lia].
      * apply orb_false_iff in E. destruct E as [E1 E2].
        destruct m0 as [| | |q]; try discriminate.
        cbn [isNaN orb nlt] in E1. apply Qltb_ge in E1.
        unfold ngt, nlt, of_nat, of_Z in E2. apply Qltb_ge in E2.
        unfold Math_round, of_Z in Hk. apply of_Z_inj in Hk. subst k.
        split; [apply (Qfloor_resp_le 0); lra|].
        assert (Hq : (q + (1 # 2) < inject_Z (Z.of_nat (length xs) + 1))%Q).
        { rewrite inject_Z_plus. change (inject_Z 1) with 1%Q. lra. }
        pose proof (Qfloor_le (q + (1 # 2))) as Hfl.
        apply (Qle_lt_trans _ _ _ Hfl) in Hq.
        rewrite <- Zlt_Qlt in Hq. lia.
    + rewrite half_value in Hk. apply of_Z_inj in Hk. subst k.
      split; [apply Z.div_pos; lia | apply Z.div_le_upper_bound; lia].
  - apply Forall_cons_1 in Hsets. destruct Hsets as [(Hl & Hnd & Hv) _].
    pose proof (distinct_indices_bounded _ _ Hv Hnd). lia.
Qed.

Lemma subsample_1D_is_a_sub_sample_witness :
  let xs := [Num 10; Num 20; Num 30; Num 40; Num 50] in
  exists out d' k,
    Bagging.get1DSamplesWithoutReplacement 50 Deviates.new (Some xs)
      (Some (Num (27 # 10))) (Some (Num 2)) = Some (out, d') /\
    of_Z k = Num 3 /\
    Forall (fun o => Z.of_nat (length o) = k /\ Forall (copy_of xs) o /\
                     (NoDup xs -> NoDup o)) out.
Proof.
  intros xs.
  destruct (Bagging.get1DSamplesWithoutReplacement 50 Deviates.new (Some xs)
              (Some (Num (27 # 10))) (Some (Num 2))) as [[out d']|] eqn:E.
  - destruct (subsample_1D_is_a_sub_sample 50 Deviates.new xs
                (Some (Num (27 # 10))) (Some (Num 2)) out d'
                ltac:(discriminate) E) as (k & Hk & _ & Hall).
    exists out, d', k. split; [reflexivity|]. split; [exact Hk | exact Hall].
  - vm_compute in E. discriminate E.
Defined.

(** X13.  On pairs, when the sample size is omitted or an integer, a call
    of [get2DSamplesWithoutReplacement] that returns gives sub-samples too:
    every set has exactly the size in use ([m], or [floor(n/2)] when [m] is
    omitted, below 1 or above [n]) in both arrays, at most [n], taken at
    pairwise distinct positions. *)
Theorem subsample_2D_is_a_sub_sample (fuel : nat) (d : Deviates.state)
    (xs ys : list number) (m numSets : option number) out d' :
  xs <> [] -> length ys = length xs ->
  m = None \/ (exists z, m = Some (of_Z z)) ->
  Bagging.get2DSamplesWithoutReplacement fuel d (Some xs) (Some ys) m numSets
  = Some (out, d') ->
  exists k,
    of_Z k = match m with
             | None => Bagging.half (length xs)
             | Some m =>
                 if nlt m (Num 1) || ngt m (of_nat (length xs))
                 then Bagging.half (length xs) else m
             end /\
    Forall (fun o => Z.of_nat (length (Bagging.x o)) = k /\
                     Z.of_nat (length (Bagging.y o)) = k /\
                     k <= Z.of_nat (length xs) /\
                     (NoDup xs -> NoDup (Bagging.x o)) /\
                     (NoDup ys -> NoDup (Bagging.y o))) out.
Proof.
  intros Hne Hlen Hm H.
  destruct (subsample_2D_distinct fuel d xs ys m numSets out d' Hne Hlen Hm H)
    as (sets & k & -> & Hk & Hsets).
  exists k. split; [exact Hk|].
  apply Forall_map. eapply Forall_impl; [exact Hsets|].
  intros set (Hl & Hnd & Hv).
  unfold Bagging.pick2. cbn [Bagging.x Bagging.y].
  assert (Hv' : Forall (valid_index (length ys)) set) by (rewrite Hlen; exact Hv).
  pose proof (distinct_indices_bounded _ _ Hv Hnd) as Hb.
  unfold Bagging.pick at 1 2. rewrite !length_map.
  split; [exact Hl|]. split; [exact Hl|]. split; [lia|].
  split; intros Hdata; apply pick_distinct; assumption.
Qed.

Lemma subsample_2D_is_a_sub_sample_witness :
  let xs := [Num 10; Num 20; Num 30; Num 40] in
  let ys := [Num 1; Num 2; Num 3; Num 4] in
  exists out d',
    Bagging.get2DSamplesWithoutReplacement 50 Deviates.new (Some xs) (Some ys)
      (Some (of_Z 3)) (Some (Num 2)) = Some (out, d') /\
    Forall (fun o => Z.of_nat (length (Bagging.x o)) = 3 /\
                     Z.of_nat (length (Bagging.y o)) = 3) out.
Proof.
  intros xs ys.
  destruct (Bagging.get2DSamplesWithoutReplacement 50 Deviates.new (Some xs)
              (Some ys) (Some (of_Z 3)) (Some (Num 2))) as [[out d']|] eqn:E.
  - exists out, d'. split; [reflexivity|].
    destruct (subsample_2D_is_a_sub_sample 50 Deviates.new xs ys
                (Some (of_Z 3)) (Some (Num 2)) out d'
                ltac:(discriminate) eq_refl
                (or_intror (ex_intro _ 3 eq_refl)) E) as (k & Hk & Hall).
    apply of_Z_inj in Hk. subst k.
    eapply Forall_impl; [exact Hall|].
    intros o (H1 & H2 & _). split; assumption.
  - vm_compute in E. discriminate E.
Defined.

(** ** Arithmetic on rationals in lowest terms *)

Lemma fin_eq p q : (p == q)%Q -> fin p = fin q.
Proof. intros H. unfold fin. f_equal. apply Qred_complete, H. Qed.

Lemma nadd_fin p q : nadd (fin p) (fin q) = fin (p + q).
Proof. unfold nadd, fin. apply fin_eq. rewrite !Qred_correct. reflexivity. Qed.

Lemma nneg_fin q : nneg (fin q) = fin (- q).
Proof. unfold nneg, fin. apply fin_eq. rewrite Qred_correct. reflexivity. Qed.

Lemma nsub_fin p q : nsub (fin p) (fin q) = fin (p - q).
Proof. unfold nsub. rewrite nneg_fin, nadd_fin. reflexivity. Qed.

Lemma nmul_fin p q : nmul (fin p) (fin q) = fin (p * q).
Proof. unfold nmul, fin. apply fin_eq. rewrite !Qred_correct. reflexivity. Qed.

Lemma of_nat_fin n : of_nat n = fin (inject_Z (Z.of_nat n)).
Proof. unfold of_nat, of_Z, fin. rewrite Qred_inject_Z. reflexivity. Qed.

Lemma Qsum_cons x l : Qsum (x :: l) = (x + Qsum l)%Q.
Proof. reflexivity. Qed.

(** ** More on the simple linear fit *)

Lemma fit_on_arrays_returns_aux (Math_sqrt : number -> number)
    (xs ys : list number) :
  exists res, LLSQ.fit Math_sqrt (Some xs) (Some ys) = Return res.
Proof.
  unfold LLSQ.fit.
  destruct (length xs <? 3)%nat; [eauto|].
  destruct (negb _); eauto.
Qed.

(** X15.  On arrays that are not null [fit] never throws; with fewer than
    three points, or with arrays of different lengths, its result is the
    zeroed one. *)
Theorem fit_on_arrays_returns (Math_sqrt : number -> number)
    (xs ys : list number) :
  exists res,
    LLSQ.fit Math_sqrt (Some xs) (Some ys) = Return res /\
    ((length xs < 3)%nat \/ length ys <> length xs -> res = LLSQ.zero).
Proof.
  unfold LLSQ.fit.
  destruct (Nat.ltb_spec (length xs) 3) as [Hlt|Hge].
  - eexists. split; [reflexivity | intros _; reflexivity].
  - destruct (Nat.eqb_spec (length ys) (length xs)) as [Heq|Hne]; cbn [negb].
    + eexists. split; [reflexivity|]. intros [H|H]; [lia | contradiction].
    + eexists. split; [reflexivity | intros _; reflexivity].
Qed.

(** ** More on the polynomial fit *)

Lemma horner_fold (x : Q) l : forall acc,
  fold_left (fun val ci => nadd (nmul (fin x) val) ci) (rev (map fin l)) (fin acc)
  = fin (fold_right (fun c r => c + x * r)%Q acc l).
Proof.
  induction l as [|c l IH]; intros acc; [reflexivity|].
  cbn [map rev fold_right]. rewrite fold_left_app, IH. cbn [fold_left].
  rewrite nmul_fin, nadd_fin. apply fin_eq. ring.
Qed.

Lemma horner_acc_ext (x : Q) l : forall acc acc',
  (acc == acc')%Q ->
  (fold_right (fun c r => c + x * r) acc l
   == fold_right (fun c r => c + x * r) acc' l)%Q.
Proof.
  induction l as [|c l IH]; intros acc acc' H; [exact H|].
  cbn [fold_right]. rewrite (IH acc acc' H). reflexivity.
Qed.

Lemma poly_value_shifted (x : Q) l : forall k,
  (Qsum (map (fun ic => snd ic * Qpow x (fst ic)) (combine (seq k (length l)) l))
   == Qpow x k * fold_right (fun c r => c + x * r) 0 l)%Q.
Proof.
  induction l as [|c l IH]; intros k.
  - simpl. ring.
  - cbn [length seq combine map fold_right fst snd]. rewrite Qsum_cons, IH.
    cbn [Qpow fst snd]. ring.
Qed.

Lemma eval_rational (cs : list Q) (k : number) (x : Q) :
  Pllsq.eval {| Pllsq._c := map fin cs; Pllsq._n := k |} (fin x)
  = fin (poly_value cs x).
Proof.
  unfold Pllsq.eval, poly_value. cbn [Pllsq._c].
  rewrite (fin_eq _ _ (poly_value_shifted x cs 0%nat)).
  destruct cs as [|c cs']; [reflexivity|].
  destruct (exists_last (l := c :: cs') ltac:(discriminate))
    as (front & top & E).
  rewrite E, map_app, rev_app_distr. cbn [map rev app].
  rewrite horner_fold. apply fin_eq.
  rewrite fold_right_app. cbn [fold_right Qpow].
  rewrite (horner_acc_ext x front (top + x * 0) top) by ring. ring.
Qed.

(** ** Bagged linear least squares *)

(** X17.  With a null array or fewer than three abscissae, [bagFit] and
    [subbagFit] return the result with slope 0, intercept 0 and no fit;
    nothing is sampled. *)
Theorem bagged_fit_of_too_few_points (Math_sqrt : number -> number)
    (d : Deviates.state) (fuel : nat) (x y : option (list number))
    (m numSets : option number) :
  x = None \/ y = None \/ (exists xs, x = Some xs /\ (length xs < 3)%nat) ->
  Bllsq.bagFit Math_sqrt d x y numSets = Some (Return Bllsq.empty, d) /\
  Bllsq.subbagFit Math_sqrt fuel d x y m numSets = Some (Return Bllsq.empty, d).
Proof.
  intros [->|[->|(xs & -> & Hlt)]].
  - split; reflexivity.
  - destruct x; split; reflexivity.
  - unfold Bllsq.bagFit, Bllsq.subbagFit.
    destruct y as [ys|]; [|split; reflexivity].
    destruct (Nat.ltb_spec (length xs) 3); [split; reflexivity | lia].
Qed.

Lemma bagged_fit_of_too_few_points_witness :
  Bllsq.bagFit (fun v => v) Deviates.new (Some [Num 1; Num 2])
               (Some [Num 1; Num 2]) (Some (Num 4))
  = Some (Return Bllsq.empty, Deviates.new) /\
  Bllsq.subbagFit (fun v => v) 5 Deviates.new (Some [Num 1; Num 2])
                  (Some [Num 1; Num 2]) None None
  = Some (Return Bllsq.empty, Deviates.new).
Proof.
  apply (bagged_fit_of_too_few_points (fun v => v) Deviates.new 5
           (Some [Num 1; Num 2]) (Some [Num 1; Num 2]) None (Some (Num 4))).
  right; right. exists [Num 1; Num 2]. split; [reflexivity | simpl; lia].
Defined.

(** The number of bags asked for is an integer of at least 1, or
    +Infinity. *)
Lemma sets_requested_positive n numSets :
  (1 <= n)%nat ->
  sets_requested n numSets = PInf \/
  exists z, sets_requested n numSets = of_Z z /\ 1 <= z.
Proof.
  intros Hn.
  assert (Hdef : of_nat n = PInf \/ exists z, of_nat n = of_Z z /\ 1 <= z).
  { right. exists (Z.of_nat n). split; [reflexivity | lia]. }
  unfold sets_requested. destruct numSets as [s|]; [|exact Hdef].
  destruct s as [| | |q]; cbn [isNaN orb nlt]; try exact Hdef.
  - left. reflexivity.
  - destruct (Qltb q 1) eqn:E; [exact Hdef|].
    right. eexists. split; [reflexivity|].
    apply Qltb_ge in E. apply (Qfloor_resp_le 1). lra.
Qed.

Lemma average_of_no_bag (Math_sqrt : number -> number) numSets :
  numSets = PInf \/ (exists z, numSets = of_Z z /\ 1 <= z) ->
  Bllsq.average Math_sqrt [] numSets = Throw.
Proof.
  intros [->|(z & -> & Hz)]; [reflexivity|].
  unfold Bllsq.average, for_count, of_Z. rewrite Qceiling_Z.
  destruct (Z.to_nat z) as [|c] eqn:E; [lia|]. reflexivity.
Qed.

Lemma resample_requested n numSets :
  (1 <= n)%nat ->
  sets_requested n (Some (sets_requested n numSets)) = sets_requested n numSets.
Proof.
  intros Hn.
  destruct (sets_requested_positive n numSets Hn) as [->|(z & -> & Hz)];
    [reflexivity|].
  unfold sets_requested at 1. unfold of_Z at 1 2. cbn [isNaN orb nlt].
  assert (E : Qltb (inject_Z z) 1 = false).
  { apply Qltb_ge. change 1%Q with (inject_Z 1). rewrite <- Zle_Qle. exact Hz. }
  rewrite E. unfold Math_round.
  assert (Hfl : Qfloor (inject_Z z + (1 # 2)) = z).
  { assert (H1 : z <= Qfloor (inject_Z z + (1 # 2))).
    { rewrite <- (Qfloor_Z z) at 1. apply Qfloor_resp_le. lra. }
    assert (H2 : Qfloor (inject_Z z + (1 # 2)) < z + 1).
    { rewrite Zlt_Qlt. eapply Qle_lt_trans; [apply Qfloor_le|].
      rewrite inject_Z_plus. change (inject_Z 1) with 1%Q. lra. }
    lia. }
  unfold of_Z at 1. cbv iota. rewrite Hfl. reflexivity.
Qed.

(** X18.  With three or more abscissae and a different number of
    ordinates, [bagFit] and [subbagFit] throw: the sampler returns no bag
    for such arrays, and the loop over the bags reads [bag[0].x]. *)
Theorem bagged_fit_of_mismatched_arrays_throws (Math_sqrt : number -> number)
    (d : Deviates.state) (fuel : nat) (xs ys : list number)
    (m numSets : option number) :
  (3 <= length xs)%nat -> length ys <> length xs ->
  Bllsq.bagFit Math_sqrt d (Some xs) (Some ys) numSets = Some (Throw, d) /\
  Bllsq.subbagFit Math_sqrt fuel d (Some xs) (Some ys) m numSets
  = Some (Throw, d).
Proof.
  intros Hn Hne.
  unfold Bllsq.bagFit, Bllsq.subbagFit,
    Bagging.get2DSamplesWithReplacement, Bagging.get2DSamplesWithoutReplacement.
  destruct (Nat.ltb_spec (length xs) 3) as [|_]; [lia|].
  destruct xs as [|x0 xs']; [simpl in Hn; lia|].
  destruct (Nat.eqb_spec (length ys) (length (x0 :: xs'))) as [|_];
    [contradiction|].
  cbn [negb].
  fold (sets_requested (length (x0 :: xs')) numSets).
  rewrite (average_of_no_bag Math_sqrt)
    by (apply sets_requested_positive; simpl; lia).
  split; reflexivity.
Qed.

Lemma bagged_fit_of_mismatched_arrays_throws_witness :
  Bllsq.bagFit (fun v => v) Deviates.new (Some [Num 0; Num 1; Num 2; Num 3])
               (Some [Num 1; Num 3; Num 5]) (Some (Num 2))
  = Some (Throw, Deviates.new).
Proof.
  apply (bagged_fit_of_mismatched_arrays_throws (fun v => v) Deviates.new 0
           [Num 0; Num 1; Num 2; Num 3] [Num 1; Num 3; Num 5] None
           (Some (Num 2))); simpl; lia.
Defined.


Lemma fit_of_bag_eq (Math_sqrt : number -> number) samples :
  LLSQ.fit Math_sqrt (Bllsq.as_numbers (Bagging.x samples))
           (Bllsq.as_numbers (Bagging.y samples))
  = Return (fit_of_bag Math_sqrt samples).
Proof.
  unfold fit_of_bag, Bllsq.as_numbers.
  destruct (fit_on_arrays_returns_aux Math_sqrt
              (map to_number (Bagging.x samples))
              (map to_number (Bagging.y samples))) as [res ->].
  reflexivity.
Qed.

Lemma fit_bags_seq (Math_sqrt : number -> number) rest :
  forall front a0 b0 f0,
    Bllsq.fit_bags Math_sqrt (front ++ rest)
                   (seq (length front) (length rest)) a0 b0 f0
    = Return (fold_left nadd (map LLSQ.a (map (fit_of_bag Math_sqrt) rest)) a0,
              fold_left nadd (map LLSQ.b (map (fit_of_bag Math_sqrt) rest)) b0,
              f0 ++ map (fit_of_bag Math_sqrt) rest).
Proof.
  induction rest as [|samples rest IH]; intros front a0 b0 f0.
  - cbn [length seq Bllsq.fit_bags map fold_left]. rewrite app_nil_r. reflexivity.
  - cbn [length seq Bllsq.fit_bags].
    rewrite list_lookup_middle by reflexivity.
    rewrite fit_of_bag_eq.
    replace (front ++ samples :: rest) with ((front ++ [samples]) ++ rest)
      by (rewrite <- app_assoc; reflexivity).
    replace (S (length front)) with (length (front ++ [samples]))
      by (rewrite length_app; simpl; lia).
    rewrite IH. cbn [map fold_left]. rewrite <- app_assoc. reflexivity.
Qed.

Lemma average_of_bags (Math_sqrt : number -> number) bag numSets :
  for_count numSets = Some (length bag) ->
  Bllsq.average Math_sqrt bag numSets
  = Return
      {| Bllsq.a := ndiv (fold_left nadd
                            (map LLSQ.a (map (fit_of_bag Math_sqrt) bag)) (Num 0))
                         numSets;
         Bllsq.b := ndiv (fold_left nadd
                            (map LLSQ.b (map (fit_of_bag Math_sqrt) bag)) (Num 0))
                         numSets;
         Bllsq.fits := map (fit_of_bag Math_sqrt) bag |}.
Proof.
  intros Hc. unfold Bllsq.average. rewrite Hc.
  pose proof (fit_bags_seq Math_sqrt bag [] (Num 0) (Num 0) []) as E.
  cbn [app length] in E. rewrite E. reflexivity.
Qed.



(** *** Sub-bagging with samples too small to fit *)

Lemma size_requested_range n m :
  (2 <= n)%nat ->
  exists k, size_requested n m = of_Z k /\ 1 <= k <= Z.of_nat n.
Proof.
  intros Hn.
  assert (Hhalf : exists k, Bagging.half n = of_Z k /\ 1 <= k <= Z.of_nat n).
  { exists (Z.of_nat n / 2). split; [apply half_value|].
    split; [apply Z.div_le_lower_bound; lia|].
    apply Z.div_le_upper_bound; lia. }
  unfold size_requested. destruct m as [m|]; [|exact Hhalf].
  destruct m as [| | |q]; unfold ngt, of_nat; cbn [isNaN orb nlt of_Z];
    try exact Hhalf.
  destruct (Qltb q 1) eqn:E1; [exact Hhalf|].
  destruct (Qltb (inject_Z (Z.of_nat n)) q) eqn:E2; [exact Hhalf|].
  cbn [orb]. apply Qltb_ge in E1, E2.
  exists (Qfloor (q + (1 # 2))). split; [reflexivity|]. split.
  - apply (Qfloor_resp_le 1). lra.
  - pose proof (Qfloor_le (q + (1 # 2))) as Hf.
    assert (H : (inject_Z (Qfloor (q + (1 # 2)))
                 < inject_Z (Z.of_nat n + 1))%Q).
    { rewrite inject_Z_plus. change (inject_Z 1) with 1%Q. lra. }
    rewrite <- Zlt_Qlt in H. lia.
Qed.

Lemma subsample_2D_count fuel d (xs ys : list number) m numSets out d' :
  xs <> [] -> length ys = length xs ->
  Bagging.get2DSamplesWithoutReplacement fuel d (Some xs) (Some ys) m numSets
  = Some (out, d') ->
  for_count (sets_requested (length xs) numSets) = Some (length out).
Proof.
  intros Hne Hlen. unfold Bagging.get2DSamplesWithoutReplacement.
  destruct xs as [|x0 xs']; [contradiction|].
  assert (Hn : (1 <= length (x0 :: xs'))%nat) by (simpl; lia).
  destruct (Nat.eqb_spec (length ys) (length (x0 :: xs'))) as [_|];
    [|contradiction].
  cbn [negb].
  destruct (Bagging.indices_without_replacement fuel d _ _ _)
    as [[sets e]|] eqn:E; [|discriminate].
  intros [= <- <-]. rewrite length_map.
  exact (indices_without_replacement_count _ _ _ _ _ _ _ Hn E).
Qed.

Lemma fit_of_short_bag (Math_sqrt : number -> number) samples :
  (length (Bagging.x samples) < 3)%nat ->
  fit_of_bag Math_sqrt samples = LLSQ.zero.
Proof.
  intros H. unfold fit_of_bag, Bllsq.as_numbers, LLSQ.fit.
  rewrite length_map.
  destruct (Nat.ltb_spec (length (Bagging.x samples)) 3) as [_|]; [reflexivity|lia].
Qed.

Lemma sum_of_zero_fits (f : LLSQ.ILLSQResult -> number) count :
  f LLSQ.zero = Num 0 ->
  fold_left nadd (map f (repeat LLSQ.zero count)) (Num 0) = Num 0.
Proof.
  intros Hf. induction count as [|count IH]; [reflexivity|].
  cbn [repeat map fold_left]. rewrite Hf. exact IH.
Qed.

Lemma zero_over_count z : 1 <= z -> ndiv (Num 0) (of_Z z) = Num 0.
Proof.
  intros Hz. unfold ndiv, of_Z.
  destruct (Qeq_bool (inject_Z z) 0) eqn:E.
  - apply Qeq_bool_iff in E. unfold Qeq in E. simpl in E. lia.
  - change (Num 0) with (fin 0). apply fin_eq.
    unfold Qeq, Qdiv, Qmult. simpl. lia.
Qed.

(** X20.  [subbagFit] on three or more points and as many ordinates, when
    the sample size in use ([m] rounded, or [floor(n/2)]) is below 3, so in
    particular with [m] omitted on 3, 4 or 5 points: whenever it returns, it
    has not thrown, every fit of the result is the zeroed one and the slope
    and the intercept are 0, for each sub-sample is too short for [fit]. *)
Theorem subbagFit_of_short_samples_is_zero (Math_sqrt : number -> number)
    (fuel : nat) (d : Deviates.state) (xs ys : list number)
    (m numSets : option number) c d' :
  (3 <= length xs)%nat -> length ys = length xs ->
  nlt (size_requested (length xs) m) (Num 3) = true ->
  Bllsq.subbagFit Math_sqrt fuel d (Some xs) (Some ys) m numSets
  = Some (c, d') ->
  exists count,
    for_count (sets_requested (length xs) numSets) = Some count /\
    c = Return {| Bllsq.a := Num 0; Bllsq.b := Num 0;
                  Bllsq.fits := repeat LLSQ.zero count |}.
Proof.
  intros Hn Hlen Hsmall H.
  assert (Hne : xs <> []) by (destruct xs; [simpl in Hn; lia | discriminate]).
  unfold Bllsq.subbagFit in H.
  destruct (Nat.ltb_spec (length xs) 3) as [|_]; [lia|].
  fold (size_requested (length xs) m) in H.
  fold (sets_requested (length xs) numSets) in H.
  destruct (size_requested_range (length xs) m ltac:(lia)) as (k & Hk & Hk1 & Hkn).
  rewrite Hk in H, Hsmall.
  unfold nlt, of_Z in Hsmall. apply Qltb_lt in Hsmall.
  change 3%Q with (inject_Z 3) in Hsmall. rewrite <- Zlt_Qlt in Hsmall.
  destruct (Bagging.get2DSamplesWithoutReplacement fuel d (Some xs) (Some ys)
              (Some (of_Z k)) (Some (sets_requested (length xs) numSets)))
    as [[bag e]|] eqn:E; [|discriminate].
  injection H as <- <-.
  pose proof (subsample_2D_count _ _ _ _ _ _ _ _ Hne Hlen E) as Hcount.
  rewrite resample_requested in Hcount by lia.
  destruct (subsample_2D_distinct _ _ _ _ _ _ _ _ Hne Hlen
              (or_intror (ex_intro _ k eq_refl)) E)
    as (sets & k' & -> & Hk' & Hsets).
  assert (Hin : nlt (of_Z k) (Num 1) || ngt (of_Z k) (of_nat (length xs)) = false).
  { apply orb_false_iff. unfold ngt, nlt, of_nat, of_Z.
    split; apply Qltb_ge.
    - change 1%Q with (inject_Z 1). rewrite <- Zle_Qle. lia.
    - rewrite <- Zle_Qle. lia. }
  rewrite Hin in Hk'. apply of_Z_inj in Hk'. subst k'.
  exists (length (map (Bagging.pick2 xs ys) sets)). split; [exact Hcount|].
  rewrite (average_of_bags Math_sqrt _ _ Hcount).
  assert (Hz : map (fit_of_bag Math_sqrt) (map (Bagging.pick2 xs ys) sets)
               = repeat LLSQ.zero (length (map (Bagging.pick2 xs ys) sets))).
  { clear E Hcount. induction Hsets as [|set sets (Hl & _) _ IH]; [reflexivity|].
    cbn [map length repeat]. rewrite IH. f_equal.
    apply fit_of_short_bag. unfold Bagging.pick2, Bagging.pick.
    cbn [Bagging.x]. rewrite length_map. lia. }
  rewrite Hz, !sum_of_zero_fits by reflexivity.
  destruct (sets_requested_positive (length xs) numSets ltac:(lia))
    as [Hinf|(z & Hz' & Hz1)].
  - rewrite Hinf in Hcount. discriminate Hcount.
  - rewrite Hz', zero_over_count by exact Hz1. reflexivity.
Qed.

Lemma subbagFit_of_short_samples_is_zero_witness :
  exists d',
    Bllsq.subbagFit (fun v => v) 50 Deviates.new
      (Some [Num 0; Num 1; Num 2; Num 3]) (Some [Num 1; Num 3; Num 5; Num 7])
      None (Some (Num 2))
    = Some (Return {| Bllsq.a := Num 0; Bllsq.b := Num 0;
                      Bllsq.fits := [LLSQ.zero; LLSQ.zero] |}, d').
Proof.
  destruct (Bllsq.subbagFit (fun v => v) 50 Deviates.new
              (Some [Num 0; Num 1; Num 2; Num 3])
              (Some [Num 1; Num 3; Num 5; Num 7]) None (Some (Num 2)))
    as [[c d']|] eqn:E.
  - exists d'.
    destruct (subbagFit_of_short_samples_is_zero (fun v => v) 50 Deviates.new
                [Num 0; Num 1; Num 2; Num 3] [Num 1; Num 3; Num 5; Num 7]
                None (Some (Num 2)) c d'
                ltac:(simpl; lia) eq_refl eq_refl E) as (count & Hc & ->).
    vm_compute in Hc. injection Hc as <-. reflexivity.
  - vm_compute in E. discriminate E.
Defined.

Lemma fit_on_arrays_returns_witness :
  exists res,
    LLSQ.fit (fun v => v) (Some [Num 1; Num 2]) (Some [Num 3; Num 4])
    = Return res /\ res = LLSQ.zero.
Proof.
  destruct (fit_on_arrays_returns (fun v => v) [Num 1; Num 2] [Num 3; Num 4])
    as (res & E & Hz).
  exists res. split; [exact E|]. apply Hz. left. simpl. lia.
Defined.

(** ** The normal equations of the polynomial fit *)

Lemma points_read {A : Type} (f g : A -> number) (pts : list A) :
  map (fun j => (to_number (map f pts !! j), to_number (map g pts !! j)))
      (seq 0 (length pts))
  = map (fun p => (f p, g p)) pts.
Proof.
  induction pts as [|p pts IH]; [reflexivity|].
  cbn [length seq map]. rewrite <- seq_shift, map_map.
  cbn [lookup list_lookup to_number]. f_equal. exact IH.
Qed.

Lemma powers_spec (x : Q) count : forall k,
  Pllsq.powers count (fin x) (fin (Qpow x k))
  = map (fun i => fin (Qpow x i)) (seq (S k) count).
Proof.
  induction count as [|count IH]; intros k; [reflexivity|].
  cbn [Pllsq.powers seq map]. rewrite nmul_fin.
  rewrite (fin_eq (Qpow x k * x) (Qpow x (S k))) by (cbn [Qpow]; ring).
  rewrite IH. reflexivity.
Qed.

Lemma tmp_spec (x : Q) len :
  match len with
  | O => []
  | S l => fin x :: Pllsq.powers l (fin x) (fin x)
  end = map (fun i => fin (Qpow x i)) (seq 1 len).
Proof.
  destruct len as [|l]; [reflexivity|].
  cbn [seq map].
  assert (E : fin x = fin (Qpow x 1)) by (apply fin_eq; cbn [Qpow]; ring).
  pose proof (powers_spec x l 1) as P. rewrite <- E in P.
  rewrite P. f_equal. exact E.
Qed.

Lemma zip_with_map_prefix {A B C D : Type} (f : B -> C -> D) (g : A -> B)
    (h : A -> C) (l : list A) (r : list C) :
  zip_with f (map g l) (map h l ++ r) = map (fun i => f (g i) (h i)) l.
Proof.
  induction l as [|a l IH]; [reflexivity|].
  cbn [map app zip_with]. rewrite IH. reflexivity.
Qed.

Lemma zip_with_map_seq {B C D : Type} (f : B -> C -> D) (g : nat -> B)
    (h : nat -> C) (k len : nat) :
  (k <= len)%nat ->
  zip_with f (map g (seq 1 k)) (map h (seq 1 len))
  = map (fun i => f (g i) (h i)) (seq 1 k).
Proof.
  intros H. replace len with (k + (len - k))%nat by lia.
  rewrite seq_app, map_app. apply zip_with_map_prefix.
Qed.

Lemma accumulate_step (len mm : nat) (a0 : number) (S T : nat -> Q) (x y : Q) :
  (mm - 1 <= len)%nat ->
  Pllsq.accumulate len
    (a0 :: map (fun i => fin (S i)) (seq 1 len),
     map (fun i => fin (T i)) (seq 0 mm)) (fin x, fin y)
  = (a0 :: map (fun i => fin (S i + Qpow x i)) (seq 1 len),
     map (fun i => fin (T i + Qpow x i * y)) (seq 0 mm)).
Proof.
  intros Hlen. unfold Pllsq.accumulate. rewrite tmp_spec. f_equal.
  - f_equal. rewrite (zip_with_map_seq nadd _ _ len len) by lia.
    apply map_ext. intros i. apply nadd_fin.
  - destruct mm as [|k]; [reflexivity|].
    cbn [seq map]. f_equal.
    + rewrite nadd_fin. apply fin_eq. cbn [Qpow]. ring.
    + rewrite (zip_with_map_seq _ _ _ k len) by lia.
      apply map_ext. intros i. rewrite nmul_fin, nadd_fin. reflexivity.
Qed.

Lemma accumulate_all (len mm : nat) (a0 : number) (pts : list (Q * Q)) :
  (mm - 1 <= len)%nat ->
  forall S T : nat -> Q,
  fold_left (Pllsq.accumulate len) (map (fun p => (fin (fst p), fin (snd p))) pts)
    (a0 :: map (fun i => fin (S i)) (seq 1 len),
     map (fun i => fin (T i)) (seq 0 mm))
  = (a0 :: map (fun i => fin (S i + power_sum pts i)) (seq 1 len),
     map (fun i => fin (T i + moment pts i)) (seq 0 mm)).
Proof.
  intros Hlen. induction pts as [|[x y] pts IH]; intros S T.
  - cbn [map fold_left]. f_equal; [f_equal|]; apply map_ext; intros i;
      apply fin_eq; unfold power_sum, moment; simpl; ring.
  - cbn [map fold_left fst snd]. rewrite accumulate_step by exact Hlen.
    rewrite IH. f_equal; [f_equal|]; apply map_ext; intros i; apply fin_eq;
      unfold power_sum, moment; cbn [map fst snd]; rewrite Qsum_cons; ring.
Qed.

Lemma repeat_zero_seq start count :
  repeat (Num 0) count = map (fun _ : nat => fin 0) (seq start count).
Proof.
  revert start. induction count as [|count IH]; intros start; [reflexivity|].
  cbn [repeat seq map]. rewrite <- IH. reflexivity.
Qed.

Lemma lookup_map_seq {A : Type} (F : nat -> A) len : forall start i,
  (i < len)%nat -> map F (seq start len) !! i = Some (F (start + i)%nat).
Proof.
  induction len as [|len IH]; intros start i Hi; [lia|].
  destruct i as [|i]; cbn [seq map].
  - rewrite Nat.add_0_r. reflexivity.
  - cbn [lookup list_lookup]. rewrite IH by lia. f_equal. f_equal. lia.
Qed.

Lemma power_sum_zero pts : (power_sum pts 0 == inject_Z (Z.of_nat (length pts)))%Q.
Proof.
  unfold power_sum. induction pts as [|p pts IH]; [reflexivity|].
  cbn [map length]. rewrite Qsum_cons, IH, Nat2Z.inj_succ.
  unfold Z.succ. rewrite inject_Z_plus. cbn [Qpow]. ring.
Qed.

Lemma sums_read (pts : list (Q * Q)) len idx :
  (idx <= len)%nat ->
  to_number ((of_nat (length pts)
              :: map (fun i => fin (0 + power_sum pts i)) (seq 1 len)) !! idx)
  = fin (power_sum pts idx).
Proof.
  intros Hi. destruct idx as [|i].
  - cbn [lookup list_lookup to_number]. rewrite of_nat_fin. apply fin_eq.
    symmetry. apply power_sum_zero.
  - rewrite lookup_cons. cbv iota. rewrite lookup_map_seq by lia.
    cbn [to_number]. apply fin_eq. rewrite Nat.add_1_l. ring.
Qed.

Lemma fit_on_points (Math_sqrt : number -> number)
    (Matrix_solve : list (list number) -> list number -> completion (list number))
    (p : Pllsq.state) (pts : list (Q * Q)) (m : number) :
  nle (of_nat (length pts)) (Pllsq.coefficients m) = false ->
  let mm := Pllsq.nat_of (Pllsq.coefficients m) in
  Pllsq.fit Math_sqrt Matrix_solve p (Some (abscissae pts))
            (Some (ordinates pts)) m
  = match Matrix_solve (normal_matrix mm pts) (normal_rhs mm pts) with
    | Throw => (Throw, p)
    | Return c =>
        let p' := {| Pllsq._c := c; Pllsq._n := Pllsq.coefficients m |} in
        (Return {| Pllsq.coef := c; Pllsq.r := None;
                   Pllsq.rms :=
                     Math_sqrt
                       (ndiv (fold_left
                                (fun s '(xi, yi) =>
                                   let t := nsub (Pllsq.eval p' xi) yi in
                                   nadd s (nmul t t))
                                (map (fun p => (fin (fst p), fin (snd p))) pts)
                                (Num 0))
                             (of_nat (length pts))) |}, p')
    end.
Proof.
  intros Hn mm. unfold Pllsq.fit, abscissae, ordinates.
  rewrite length_map, Hn. fold mm.
  rewrite (points_read (fun p => fin (fst p)) (fun p => fin (snd p)) pts).
  rewrite (repeat_zero_seq 1), (repeat_zero_seq 0).
  rewrite accumulate_all by lia.
  assert (EA : map (fun i => map (fun j =>
                 to_number ((of_nat (length pts)
                   :: map (fun i0 => fin (0 + power_sum pts i0))
                          (seq 1 (2 * (mm - 1)))) !! (i + j)%nat))
                 (seq 0 mm)) (seq 0 mm) = normal_matrix mm pts).
  { unfold normal_matrix. apply map_ext_in. intros i Hi.
    apply map_ext_in. intros j Hj. apply in_seq in Hi, Hj.
    apply sums_read. lia. }
  rewrite EA.
  assert (EB : map (fun i => fin (0 + moment pts i)) (seq 0 mm)
               = normal_rhs mm pts).
  { unfold normal_rhs. apply map_ext. intros i. apply fin_eq. ring. }
  rewrite EB. reflexivity.
Qed.

Lemma moment_zero pts : (moment pts 0 == Qsum (map snd pts))%Q.
Proof.
  unfold moment. induction pts as [|q pts IH]; [reflexivity|].
  cbn [map]. rewrite !Qsum_cons, IH. cbn [Qpow]. ring.
Qed.

(** ** The mapping of the data to the drawing surface *)

Lemma nlt_fin a b : nlt (fin a) (fin b) = Qltb a b.
Proof.
  unfold nlt, fin. destruct (Qltb a b) eqn:E.
  - apply Qltb_lt. rewrite !Qred_correct. apply Qltb_lt, E.
  - apply Qltb_ge. rewrite !Qred_correct. apply Qltb_ge, E.
Qed.

Lemma Math_min_fin a b :
  AppComponent.Math_min (fin a) (fin b) = fin (if Qltb b a then b else a).
Proof.
  unfold AppComponent.Math_min. cbn [isNaN fin orb]. fold (fin a). fold (fin b).
  rewrite nlt_fin. destruct (Qltb b a); reflexivity.
Qed.

Lemma Math_max_fin a b :
  AppComponent.Math_max (fin a) (fin b) = fin (if Qltb a b then b else a).
Proof.
  unfold AppComponent.Math_max. cbn [isNaN fin orb]. fold (fin a). fold (fin b).
  rewrite nlt_fin. destruct (Qltb a b); reflexivity.
Qed.

Lemma scan_rational (rest : list Q) : forall lo0 hi0,
  exists lo hi,
    fold_left (fun '(min, max) v =>
                 (AppComponent.Math_min min v, AppComponent.Math_max max v))
              (map fin rest) (fin lo0, fin hi0)
    = (fin lo, fin hi) /\
    (lo = lo0 \/ In lo rest) /\ (lo <= lo0)%Q /\
    Forall (fun x => (lo <= x)%Q) rest /\
    (hi = hi0 \/ In hi rest) /\ (hi0 <= hi)%Q /\
    Forall (fun x => (x <= hi)%Q) rest.
Proof.
  induction rest as [|x rest IH]; intros lo0 hi0.
  - exists lo0, hi0. cbn [map fold_left].
    repeat split; try (left; reflexivity); try apply Qle_refl; constructor.
  - cbn [map fold_left]. rewrite Math_min_fin, Math_max_fin.
    destruct (IH (if Qltb x lo0 then x else lo0) (if Qltb hi0 x then x else hi0))
      as (lo & hi & E & Hlo & Hle & Hall & Hhi & Hge & Hall').
    exists lo, hi. split; [exact E|].
    assert (L1 : (lo <= lo0)%Q /\ (lo <= x)%Q).
    { destruct (Qltb x lo0) eqn:C.
      - apply Qltb_lt in C. split; lra.
      - apply Qltb_ge in C. split; lra. }
    assert (L2 : (hi0 <= hi)%Q /\ (x <= hi)%Q).
    { destruct (Qltb hi0 x) eqn:C.
      - apply Qltb_lt in C. split; lra.
      - apply Qltb_ge in C. split; lra. }
    split; [|split; [apply L1|split; [constructor; [apply L1|exact Hall]|
      split; [|split; [apply L2|constructor; [apply L2|exact Hall']]]]]].
    + destruct Hlo as [->|Hin]; [|right; right; exact Hin].
      destruct (Qltb x lo0); [right; left; reflexivity | left; reflexivity].
    + destruct Hhi as [->|Hin]; [|right; right; exact Hin].
      destruct (Qltb hi0 x); [right; left; reflexivity | left; reflexivity].
Qed.

Lemma extremes_rational (qs : list Q) (lo hi : Q) :
  least qs lo -> greatest qs hi ->
  AppComponent.extremes (map fin qs) = (Some (fin lo), Some (fin hi)).
Proof.
  intros [Hlo Hle] [Hhi Hge].
  destruct qs as [|a0 rest]; [destruct Hlo|].
  cbn [map AppComponent.extremes].
  destruct (scan_rational rest a0 a0)
    as (lo' & hi' & -> & Hlo' & Hle' & Hall & Hhi' & Hge' & Hall').
  assert (Inlo : In lo' (a0 :: rest)) by (destruct Hlo'; [left; auto | right; auto]).
  assert (Inhi : In hi' (a0 :: rest)) by (destruct Hhi'; [left; auto | right; auto]).
  rewrite List.Forall_forall in Hle, Hge.
  assert (Alo : Forall (fun x => (lo' <= x)%Q) (a0 :: rest))
    by (constructor; assumption).
  assert (Ahi : Forall (fun x => (x <= hi')%Q) (a0 :: rest))
    by (constructor; assumption).
  rewrite List.Forall_forall in Alo, Ahi.
  assert (El : (lo' == lo)%Q).
  { apply Qle_antisym; [apply Alo, Hlo | apply Hle, Inlo]. }
  assert (Eh : (hi' == hi)%Q).
  { apply Qle_antisym; [apply Hge, Inhi | apply Ahi, Hhi]. }
  rewrite (fin_eq lo' lo El), (fin_eq hi' hi Eh). reflexivity.
Qed.

Lemma zero_range_slope (M : number) : nmul (ndiv M (Num 0)) (Num 0) = NaN.
Proof.
  destruct M as [| | |q]; try reflexivity.
  unfold ndiv. change (Qeq_bool 0 0) with true. cbv iota.
  unfold inf_of_sign. destruct (Qltb 0 q); [reflexivity|].
  destruct (Qltb q 0); reflexivity.
Qed.

(** X25.  [__transform] on data that are all equal (a single point
    included) returns NaN at every position, along either axis and whatever
    the size of the surface: the range is 0, the slope infinite or NaN, and
    its product with 0 is NaN. *)
Theorem transform_of_constant_data_is_nan (v : AppComponent.view)
    (qs : list Q) (c : Q) (coord : String.string) :
  Forall (fun x => (x == c)%Q) qs ->
  fst (AppComponent.__transform v (map fin qs) coord)
  = map (fun _ => NaN) qs.
Proof.
  intros Hc. destruct qs as [|a0 rest] eqn:Eq.
  { unfold AppComponent.__transform. cbn [map AppComponent.extremes].
    destruct (String.eqb coord "x"); reflexivity. }
  rewrite <- Eq in *.
  assert (Ha : Forall (fun x => (x == a0)%Q) qs).
  { assert (E0 : (a0 == c)%Q).
    { rewrite Eq in Hc. inversion Hc; assumption. }
    eapply List.Forall_impl; [|exact Hc]. intros x Hx. cbv beta in Hx.
    rewrite Hx, E0. reflexivity. }
  assert (Hin : In a0 qs) by (rewrite Eq; left; reflexivity).
  assert (Hlo : least qs a0).
  { split; [exact Hin|]. eapply List.Forall_impl; [|exact Ha].
    intros x Hx. cbv beta in Hx. rewrite Hx. apply Qle_refl. }
  assert (Hhi : greatest qs a0).
  { split; [exact Hin|]. eapply List.Forall_impl; [|exact Ha].
    intros x Hx. cbv beta in Hx. rewrite Hx. apply Qle_refl. }
  unfold AppComponent.__transform.
  rewrite (extremes_rational qs a0 a0 Hlo Hhi). cbn [to_number].
  assert (Ez : forall x, (x == a0)%Q -> nsub (fin x) (fin a0) = Num 0).
  { intros x Hx. rewrite nsub_fin. change (Num 0) with (fin 0).
    apply fin_eq. rewrite Hx. ring. }
  rewrite (Ez a0) by reflexivity.
  clear Eq Hin Hlo Hhi Hc.
  destruct (String.eqb coord "x"); cbn [fst]; rewrite map_map;
    apply map_ext_Forall; (eapply List.Forall_impl; [|exact Ha]);
    intros x Hx; cbv beta in Hx; rewrite (Ez x Hx), zero_range_slope;
    reflexivity.
Qed.

Lemma transform_of_constant_data_is_nan_witness :
  fst (AppComponent.__transform
         {| AppComponent._width := Num 110; AppComponent._height := Num 60;
            AppComponent._xmin := Some (Num 0); AppComponent._xmax := Some (Num 0);
            AppComponent._ymin := Some (Num 0); AppComponent._ymax := Some (Num 0) |}
         (map fin [2; 4 # 2]%Q) "x"%string)
  = [NaN; NaN].
Proof.
  apply (transform_of_constant_data_is_nan _ [2; 4 # 2]%Q 2%Q "x"%string).
  repeat constructor.
Defined.

(** ** The system of the polynomial fit on exact data *)

Lemma fin_inject_Z z : fin (inject_Z z) = of_Z z.
Proof. unfold fin, of_Z. rewrite Qred_inject_Z. reflexivity. Qed.

Lemma abscissae_integer pts :
  abscissae (integer_points pts) = map (fun p => of_Z (fst p)) pts.
Proof.
  unfold abscissae, integer_points. rewrite map_map.
  apply map_ext. intros p. apply fin_inject_Z.
Qed.

Lemma ordinates_integer pts :
  ordinates (integer_points pts) = map (fun p => of_Z (snd p)) pts.
Proof.
  unfold ordinates, integer_points. rewrite map_map.
  apply map_ext. intros p. apply fin_inject_Z.
Qed.

Lemma coefficients_valid m :
  isNaN m = false -> nlt m (Num 1) = false ->
  Pllsq.coefficients m = nadd (Math_round m) (Num 1).
Proof. intros H1 H2. unfold Pllsq.coefficients. rewrite H1, H2. reflexivity. Qed.

(** What [fit] does with the solver's answer, whatever the arrays. *)
Lemma fit_hands_a_square_system (Math_sqrt : number -> number)
    (Matrix_solve : list (list number) -> list number -> completion (list number))
    (p : Pllsq.state) (xs ys : list number) (m : number) :
  nle (of_nat (length xs)) (Pllsq.coefficients m) = false ->
  let mm := Pllsq.nat_of (Pllsq.coefficients m) in
  let res := Pllsq.fit Math_sqrt Matrix_solve p (Some xs) (Some ys) m in
  exists a b,
    length a = mm /\ Forall (fun row => length row = mm) a /\
    (Matrix_solve a b = Throw -> res = (Throw, p)) /\
    (forall c, Matrix_solve a b = Return c ->
       exists rms,
         res = (Return {| Pllsq.coef := c; Pllsq.r := None; Pllsq.rms := rms |},
                {| Pllsq._c := c; Pllsq._n := Pllsq.coefficients m |})).
Proof.
  intros Hn mm res. subst res. unfold Pllsq.fit. rewrite Hn. fold mm.
  destruct (fold_left _ _ _) as [asums b].
  eexists _, b. split; [|split; [|split]].
  - rewrite length_map, length_seq. reflexivity.
  - apply List.Forall_forall. intros row Hrow.
    apply in_map_iff in Hrow. destruct Hrow as (i & <- & _).
    rewrite length_map, length_seq. reflexivity.
  - intros ->. reflexivity.
  - intros c ->. eexists. reflexivity.
Qed.

(** The same on points, where the system is known. *)
Lemma fit_hands_the_normal_equations (Math_sqrt : number -> number)
    (Matrix_solve : list (list number) -> list number -> completion (list number))
    (p : Pllsq.state) (pts : list (Q * Q)) (m : number) :
  nle (of_nat (length pts)) (Pllsq.coefficients m) = false ->
  let mm := Pllsq.nat_of (Pllsq.coefficients m) in
  let res := Pllsq.fit Math_sqrt Matrix_solve p (Some (abscissae pts))
                       (Some (ordinates pts)) m in
  (Matrix_solve (normal_matrix mm pts) (normal_rhs mm pts) = Throw ->
   res = (Throw, p)) /\
  (forall c, Matrix_solve (normal_matrix mm pts) (normal_rhs mm pts) = Return c ->
     exists rms,
       res = (Return {| Pllsq.coef := c; Pllsq.r := None; Pllsq.rms := rms |},
              {| Pllsq._c := c; Pllsq._n := Pllsq.coefficients m |})).
Proof.
  intros Hn mm res. subst res mm.
  rewrite fit_on_points by exact Hn. cbv zeta. split.
  - intros ->. reflexivity.
  - intros c ->. eexists. reflexivity.
Qed.

(** C4, as amended.  For an order that is neither NaN nor below 1, the
    order is rounded to the nearest integer and the fit requires
    [n > round(order) + 1] points: with a null array or
    [n <= round(order) + 1] the call returns the empty result (no
    coefficient, zero RMS) and leaves the instance as it was.  With more
    points a square system of [round(order) + 1] equations is handed to the
    solver: the call throws when the solver does, and otherwise returns the
    solver's coefficients, with no [r], and caches them.  On points with
    integer coordinates small enough for the sums to be exact in double
    precision, the system is that of the normal equations: the matrix of
    the power sums [sum x^(i+j)] and the right-hand side of the moments
    [sum x^i y]. *)
Theorem fit_requires_more_points_than_rounded_order
    (Math_sqrt : number -> number)
    (Matrix_solve : list (list number) -> list number -> completion (list number))
    (p : Pllsq.state) (x y : option (list number)) (m : number) :
  isNaN m = false -> nlt m (Num 1) = false ->
  let required := nadd (Math_round m) (Num 1) in
  let mm := Pllsq.nat_of required in
  let res := Pllsq.fit Math_sqrt Matrix_solve p x y m in
  (x = None \/ y = None \/
   (exists xs, x = Some xs /\ nle (of_nat (length xs)) required = true) ->
   res = (Return Pllsq.empty, p)) /\
  (forall xs ys,
     x = Some xs -> y = Some ys ->
     nle (of_nat (length xs)) required = false ->
     exists a b,
       length a = mm /\ Forall (fun row => length row = mm) a /\
       (Matrix_solve a b = Throw -> res = (Throw, p)) /\
       (forall c, Matrix_solve a b = Return c ->
          exists rms,
            res = (Return {| Pllsq.coef := c; Pllsq.r := None;
                             Pllsq.rms := rms |},
                   {| Pllsq._c := c; Pllsq._n := required |}))) /\
  (forall pts,
     x = Some (map (fun p => of_Z (fst p)) pts) ->
     y = Some (map (fun p => of_Z (snd p)) pts) ->
     nle (of_nat (length pts)) required = false ->
     exactly_summed pts mm ->
     let A := normal_matrix mm (integer_points pts) in
     let B := normal_rhs mm (integer_points pts) in
     (Matrix_solve A B = Throw -> res = (Throw, p)) /\
     (forall c, Matrix_solve A B = Return c ->
        exists rms,
          res = (Return {| Pllsq.coef := c; Pllsq.r := None;
                           Pllsq.rms := rms |},
                 {| Pllsq._c := c; Pllsq._n := required |}))).
Proof.
  intros Hnan Hlt required mm res. subst res mm required.
  pose proof (coefficients_valid m Hnan Hlt) as Hc.
  split; [|split].
  - intros [->|[->|(xs & -> & Hle)]].
    + reflexivity.
    + destruct x; reflexivity.
    + unfold Pllsq.fit. rewrite Hc, Hle. destruct y; reflexivity.
  - intros xs ys -> -> Hgt. rewrite <- Hc in *.
    apply fit_hands_a_square_system. exact Hgt.
  - intros pts -> -> Hgt _. rewrite <- Hc in *.
    rewrite <- abscissae_integer, <- ordinates_integer.
    apply fit_hands_the_normal_equations.
    unfold integer_points. rewrite length_map. exact Hgt.
Qed.

Lemma fit_requires_more_points_than_rounded_order_witness :
  let solve := fun (_ : list (list number)) (b : list number) => Return b in
  let pts := [(0, 1); (1, 4); (2, 9); (3, 16); (4, 25)] in
  let xs := map (fun p => of_Z (fst p)) pts in
  let ys := map (fun p => of_Z (snd p)) pts in
  Pllsq.fit (fun a => a) solve Pllsq.new None (Some ys) (Num 2)
  = (Return Pllsq.empty, Pllsq.new) /\
  Pllsq.fit (fun a => a) solve Pllsq.new (Some [Num 0; Num 1; Num 2])
            (Some ys) (Num 2)
  = (Return Pllsq.empty, Pllsq.new) /\
  exists rms,
    Pllsq.fit (fun a => a) solve Pllsq.new (Some xs) (Some ys) (Num 2)
    = (Return {| Pllsq.coef := [Num 55; Num 170; Num 584]; Pllsq.r := None;
                 Pllsq.rms := rms |},
       {| Pllsq._c := [Num 55; Num 170; Num 584]; Pllsq._n := Num 3 |}).
Proof.
  intros solve pts xs ys.
  split; [|split].
  - apply (fit_requires_more_points_than_rounded_order
             (fun a => a) solve Pllsq.new None (Some ys) (Num 2));
      [reflexivity | reflexivity | left; reflexivity].
  - apply (fit_requires_more_points_than_rounded_order
             (fun a => a) solve Pllsq.new (Some [Num 0; Num 1; Num 2])
             (Some ys) (Num 2)); [reflexivity | reflexivity |].
    right; right. eexists. split; reflexivity.
  - destruct (fit_requires_more_points_than_rounded_order
                (fun a => a) solve Pllsq.new (Some xs) (Some ys) (Num 2)
                eq_refl eq_refl) as (_ & _ & H).
    assert (Hexact : exactly_summed pts 3).
    { exists 4, 25. split; [lia|]. split; [lia|]. split.
      - repeat constructor; simpl; lia.
      - vm_compute. discriminate. }
    destruct (H pts eq_refl eq_refl eq_refl Hexact) as [_ Hret].
    exact (Hret [Num 55; Num 170; Num 584] eq_refl).
Defined.

(** *** An invalid order *)

Lemma Qsum_inject_Z (l : list Z) :
  (Qsum (map inject_Z l) == inject_Z (fold_right Z.add 0%Z l))%Q.
Proof.
  induction l as [|z l IH]; [reflexivity|].
  cbn [map fold_right]. rewrite Qsum_cons, IH, inject_Z_plus. reflexivity.
Qed.

(** X22.  An order that is NaN or below 1 makes [fit] fit a constant: on
    two or more points with integer coordinates whose ordinates sum exactly,
    the system handed to the solver is the single equation
    [n * c0 = sum y]; the call throws when the solver does, and otherwise
    returns and caches the solver's coefficients. *)
Theorem invalid_order_fits_a_constant (Math_sqrt : number -> number)
    (Matrix_solve : list (list number) -> list number -> completion (list number))
    (p : Pllsq.state) (pts : list (Z * Z)) (m : number) :
  isNaN m || nlt m (Num 1) = true -> (2 <= length pts)%nat ->
  exactly_summed pts 1 ->
  let res := Pllsq.fit Math_sqrt Matrix_solve p
               (Some (map (fun p => of_Z (fst p)) pts))
               (Some (map (fun p => of_Z (snd p)) pts)) m in
  let A := [[of_nat (length pts)]] in
  let B := [of_Z (fold_right Z.add 0 (map snd pts))] in
  (Matrix_solve A B = Throw -> res = (Throw, p)) /\
  (forall c, Matrix_solve A B = Return c ->
     exists rms,
       res = (Return {| Pllsq.coef := c; Pllsq.r := None; Pllsq.rms := rms |},
              {| Pllsq._c := c; Pllsq._n := Num 1 |})).
Proof.
  intros Hm Hn _ res A B. subst res.
  assert (Hc : Pllsq.coefficients m = Num 1).
  { unfold Pllsq.coefficients. rewrite Hm. reflexivity. }
  assert (Hle : nle (of_nat (length (integer_points pts)))
                    (Pllsq.coefficients m) = false).
  { rewrite Hc. unfold integer_points. rewrite length_map.
    unfold nle, of_nat, of_Z.
    destruct (Qle_bool (inject_Z (Z.of_nat (length pts))) 1) eqn:El;
      [|reflexivity].
    apply Qle_bool_iff in El. change 1%Q with (inject_Z 1) in El.
    rewrite <- Zle_Qle in El. lia. }
  pose proof (fit_hands_the_normal_equations Math_sqrt Matrix_solve p
                (integer_points pts) m Hle) as H.
  cbv zeta in H. rewrite abscissae_integer, ordinates_integer, Hc in H.
  assert (EA : normal_matrix (Pllsq.nat_of (Num 1)) (integer_points pts) = A).
  { subst A. change (Pllsq.nat_of (Num 1)) with 1%nat.
    cbn [normal_matrix seq map Nat.add]. do 2 f_equal.
    rewrite of_nat_fin. apply fin_eq. rewrite power_sum_zero.
    unfold integer_points. rewrite length_map. reflexivity. }
  assert (EB : normal_rhs (Pllsq.nat_of (Num 1)) (integer_points pts) = B).
  { subst B. change (Pllsq.nat_of (Num 1)) with 1%nat.
    cbn [normal_rhs seq map]. f_equal.
    rewrite <- fin_inject_Z. apply fin_eq.
    rewrite moment_zero, <- Qsum_inject_Z.
    unfold integer_points. rewrite !map_map. reflexivity. }
  rewrite EA, EB in H. exact H.
Qed.

Lemma invalid_order_fits_a_constant_witness :
  exists rms,
    Pllsq.fit (fun v => v) (fun _ _ => Return [Num 3]) Pllsq.new
              (Some [Num 0; Num 1; Num 2]) (Some [Num 1; Num 3; Num 5]) NaN
    = (Return {| Pllsq.coef := [Num 3]; Pllsq.r := None; Pllsq.rms := rms |},
       {| Pllsq._c := [Num 3]; Pllsq._n := Num 1 |}).
Proof.
  assert (Hexact : exactly_summed [(0, 1); (1, 3); (2, 5)] 1).
  { exists 2, 5. split; [lia|]. split; [lia|]. split.
    - repeat constructor; simpl; lia.
    - vm_compute. discriminate. }
  exact (proj2 (invalid_order_fits_a_constant (fun v => v)
                  (fun _ _ => Return [Num 3]) Pllsq.new
                  [(0, 1); (1, 3); (2, 5)] NaN eq_refl ltac:(simpl; lia) Hexact)
               [Num 3] eq_refl).
Defined.

(** *** Evaluation on integers *)

(** X16.  [eval] computes the polynomial on integers: with integer
    coefficients [cs], lowest degree first, and an integer [x], all small
    enough for the steps of the nested multiplication to be exact in double
    precision, its value is the sum of the [cs[i] * x^i]. *)
Theorem eval_is_polynomial_value (cs : list Z) (k : number) (x : Z) :
  Z.abs x <= 2 ^ 53 -> evaluation_bound cs x <= 2 ^ 53 ->
  Pllsq.eval {| Pllsq._c := map of_Z cs; Pllsq._n := k |} (of_Z x)
  = fin (poly_value (map inject_Z cs) (inject_Z x)).
Proof.
  intros _ _.
  rewrite <- (eval_rational (map inject_Z cs) k (inject_Z x)).
  rewrite fin_inject_Z, map_map.
  do 2 f_equal. apply map_ext. intros c. symmetry. apply fin_inject_Z.
Qed.

Lemma eval_is_polynomial_value_witness :
  Pllsq.eval {| Pllsq._c := [Num 1; Num (-2); Num 3]; Pllsq._n := Num 3 |}
             (Num 2)
  = Num 9.
Proof.
  exact (eval_is_polynomial_value [1; -2; 3] (Num 3) 2
           ltac:(vm_compute; discriminate) ltac:(vm_compute; discriminate)).
Defined.
